(** * SpiderGrow.io: the authoritative game server, embedded and verified

    The repository holds two versions of the server: [server.js] and an
    "anti-lag" revision of it (the file whose header reads
    "Serveur du jeu SpiderGrow.io (optimisé anti-lag)").  Their utilities,
    socket handlers and the first three phases of [gameLoop] are the same
    text; they differ in the tick counter and in what the last phase of
    [gameLoop] broadcasts.

    JavaScript numbers are IEEE 754 binary64 values, and so are Rocq's
    primitive floats: every [x], [y], [score] and [radius] below is a
    [float], every [+], [*], [<] and [Math.sqrt] is the primitive
    operation, and the literals [0.6], [1.05], [0.9], [0.2] denote the
    same doubles as in the source.

    The module-level variables of the server are the fields of a record
    [World] that every function takes and returns.  [Math.random()] reads
    an oracle at a cursor kept in the world, [Date.now()] is an argument
    of the tick, and what the server emits is appended to an outbox.  Node
    runs one callback at a time, so a run of the server is a list of
    events, each handled to completion. *)

From Stdlib Require Import ZArith List String Ascii Bool Lia Floats Permutation.
Import ListNotations.

Set Warnings "-inexact-float".

Open Scope float_scope.

(** ** The JavaScript runtime: numbers, Math, primitive values *)

Module JS.

Definition number := float.

(** An integer as a Number (exact below 2^53, rounded to nearest above). *)
Definition of_Z (z : Z) : number :=
  SF2Prim (binary_normalize prec emax z 0 false).

Definition of_nat (n : nat) : number := of_Z (Z.of_nat n).

(** The value of a Number when it is an integer ([None] for fractions,
    infinities and NaN); both zeros are the integer 0. *)
Definition to_integer (f : number) : option Z :=
  match Prim2SF f with
  | S754_zero _ => Some 0%Z
  | S754_finite s m e =>
      if (0 <=? e)%Z then Some (cond_Zopp s (Zpos m * 2 ^ e))%Z
      else if (Zpos m mod 2 ^ (- e) =? 0)%Z
           then Some (cond_Zopp s (Zpos m / 2 ^ (- e)))%Z
           else None
  | _ => None
  end.

Definition is_pos_zero (f : number) : bool :=
  match classify f with PZero => true | _ => false end.

Definition is_neg_zero (f : number) : bool :=
  match classify f with NZero => true | _ => false end.

(** [Math.max(a, b)] (ECMA-262, 21.3.2.24): NaN if either is NaN, +0 is
    larger than -0. *)
Definition Math_max (a b : number) : number :=
  if is_nan a || is_nan b then nan
  else if is_pos_zero b && is_neg_zero a then b
  else if a <? b then b
  else a.

(** [Math.min(a, b)] (ECMA-262, 21.3.2.25): NaN if either is NaN, -0 is
    smaller than +0. *)
Definition Math_min (a b : number) : number :=
  if is_nan a || is_nan b then nan
  else if is_neg_zero b && is_pos_zero a then b
  else if b <? a then b
  else a.

(** [Math.floor]: the largest integer not above the argument; integers,
    zeros, infinities and NaN are returned as they are. *)
Definition Math_floor (f : number) : number :=
  match Prim2SF f with
  | S754_finite s m e =>
      if (0 <=? e)%Z then f
      else of_Z (cond_Zopp s (Zpos m) / 2 ^ (- e))
  | _ => f
  end.

Definition Math_sqrt (f : number) : number := sqrt f.

(** The primitive values found in a decoded socket.io argument.
    [Undefined] is also what reading a missing property gives.  Objects
    and arrays in the place of a coordinate or of a name are not
    modelled. *)
Inductive value :=
| Undefined
| Null
| Boolean (b : bool)
| Number (n : number)
| String (s : string).

(** [a[k]] on an array, the key being a Number: the element when [k] is
    an integer index in range, [undefined] ([None]) otherwise. *)
Definition array_get {A : Type} (a : list A) (k : number) : option A :=
  match to_integer k with
  | Some z => if (z <? 0)%Z then None else nth_error a (Z.to_nat z)
  | None => None
  end.

(** Completion of a handler: it returns, or throws a TypeError that
    nothing in the server catches. *)
Inductive completion (A : Type) :=
| Normal (a : A)
| Throw.
Arguments Normal {A} a.
Arguments Throw {A}.

End JS.

Import JS.

(** What the runtime does with a string in a numeric position
    ([StringToNumber], ECMA-262 7.1.4.1.1) is a parameter of the model:
    the handlers only pass its result on. *)
Class Runtime := { StringToNumber : string -> number }.

(** [ToNumber] (ECMA-262 7.1.4) on primitive values. *)
Definition ToNumber `{Runtime} (v : value) : number :=
  match v with
  | Undefined => nan
  | Null => 0
  | Boolean true => 1
  | Boolean false => 0
  | Number n => n
  | String s => StringToNumber s
  end.

(** ** Objects used as maps

    [players] is a plain object keyed by socket id.  Its own keys are
    strings kept in insertion order (socket ids are 20 random base64
    characters, never array indices, which JavaScript would order
    first), so it is an association list with distinct keys:
    [Object.keys] and [Object.entries] read it left to right, assigning
    to a present key replaces the value where it stands, assigning to a
    new key appends, [delete] removes. *)

Module Obj.

Definition t (A : Type) := list (string * A).

Section Ops.
Context {A : Type}.

Fixpoint get (o : t A) (k : string) : option A :=
  match o with
  | [] => None
  | (k', v) :: o' => if String.eqb k' k then Some v else get o' k
  end.

Fixpoint set (o : t A) (k : string) (v : A) : t A :=
  match o with
  | [] => [(k, v)]
  | (k', v') :: o' =>
      if String.eqb k' k then (k', v) :: o' else (k', v') :: set o' k v
  end.

Fixpoint delete (o : t A) (k : string) : t A :=
  match o with
  | [] => []
  | (k', v') :: o' =>
      if String.eqb k' k then o' else (k', v') :: delete o' k
  end.

Definition keys (o : t A) : list string := map fst o.

Definition entries (o : t A) : list (string * A) := o.

(** The keys of an object are pairwise distinct. *)
Definition wf (o : t A) : Prop := NoDup (keys o).

End Ops.

End Obj.

(** ** Data model *)

(** [// socketId -> { x, y, score, radius, color, name }].  [color] is
    [colors[k]], which is [undefined] ([None]) for a [k] outside the
    palette. *)
Module Player.
Record t := mk {
  x : number;
  y : number;
  score : number;
  radius : number;
  color : option string;
  name : string
}.
End Player.

(** [{ id, x, y }] *)
Module Pellet.
Record t := mk {
  id : number;
  x : number;
  y : number
}.
End Pellet.

(** What [distance] reads of its arguments. *)
Class Positioned (A : Type) := { pos_x : A -> number; pos_y : A -> number }.

#[export] Instance Player_Positioned : Positioned Player.t :=
  {| pos_x := Player.x; pos_y := Player.y |}.

#[export] Instance Pellet_Positioned : Positioned Pellet.t :=
  {| pos_x := Pellet.x; pos_y := Pellet.y |}.

(** Messages the server emits. *)
Inductive Payload :=
| init (id : string) (width height : number)
| state (players : Obj.t Player.t) (pellets : option (list Pellet.t))
| youAtePlayer (gained : number) (victimName : string)
| youDied.

(** [io.to(id).emit(..)] and [socket.emit(..)] reach one socket,
    [io.emit(..)] reaches all. *)
Inductive Emit :=
| to (target : string) (p : Payload)
| all (p : Payload).

(** The server's state: the module-level variables, the messages emitted so
    far (oldest first) and the number of [Math.random()] calls made so far.
    [tick] exists in the anti-lag revision only; [server.js] neither reads
    nor writes it. *)
Record World := mkWorld {
  players : Obj.t Player.t;
  pellets : list Pellet.t;
  tick : Z;
  draws : nat;
  outbox : list Emit
}.

Definition with_players (ps : Obj.t Player.t) (w : World) : World :=
  mkWorld ps (pellets w) (tick w) (draws w) (outbox w).

Definition with_pellets (pl : list Pellet.t) (w : World) : World :=
  mkWorld (players w) pl (tick w) (draws w) (outbox w).

Definition with_tick (t : Z) (w : World) : World :=
  mkWorld (players w) (pellets w) t (draws w) (outbox w).

Definition emit (e : Emit) (w : World) : World :=
  mkWorld (players w) (pellets w) (tick w) (draws w) (outbox w ++ [e]).

(** ** Constantes du jeu *)

Definition MAP_WIDTH : number := 4000.
Definition MAP_HEIGHT : number := 4000.
Definition INITIAL_RADIUS : number := 25.
Definition RADIUS_PER_POINT : number := 0.6.
Definition MAX_PELLETS : nat := 1200.

(** ** Utilitaires *)

(** The pseudo-random source: [Math_random_at k] is what the [k]-th call of
    [Math.random()] of this run returns. *)
Class Entropy := { Math_random_at : nat -> number }.

Section Server.

Context {rt : Runtime} {en : Entropy}.

Definition Math_random (w : World) : number * World :=
  (Math_random_at (draws w),
   mkWorld (players w) (pellets w) (tick w) (S (draws w)) (outbox w)).

Definition randomInRange (min max : number) (w : World) : number * World :=
  let (r, w) := Math_random w in
  (r * (max - min) + min, w).

Definition randomPosition (w : World) : (number * number) * World :=
  let (x, w) := randomInRange 0 MAP_WIDTH w in
  let (y, w) := randomInRange 0 MAP_HEIGHT w in
  ((x, y), w).

Definition colors : list string :=
  ["#00e5ff"; "#ffb300"; "#ff4081"; "#b388ff"; "#69f0ae"]%string.

Definition randomColor (w : World) : option string * World :=
  let (r, w) := Math_random w in
  (array_get colors (Math_floor (r * of_nat (List.length colors))), w).

(** [generateInitialPellets]: the loop body, and the loop for
    [i = 0 .. count - 1]. *)
Definition pushInitialPellet (w : World) (i : nat) : World :=
  let (pos, w) := randomPosition w in
  with_pellets (pellets w ++ [Pellet.mk (of_nat i) (fst pos) (snd pos)]) w.

Definition generateInitialPellets (count : nat) (w : World) : World :=
  fold_left pushInitialPellet (seq 0 count) (with_pellets [] w).

Definition distance {A B : Type} `{Positioned A} `{Positioned B}
    (a : A) (b : B) : number :=
  let dx := pos_x a - pos_x b in
  let dy := pos_y a - pos_y b in
  Math_sqrt (dx * dx + dy * dy).

(** [String.prototype.trim] on strings whose code units are below 256:
    the white space and line terminators of that range. *)
Definition is_space (c : ascii) : bool :=
  let n := nat_of_ascii c in
  ((9 <=? n) && (n <=? 13) || (n =? 32) || (n =? 160))%nat.

Fixpoint trimStart (s : string) : string :=
  match s with
  | EmptyString => EmptyString
  | String.String c s' => if is_space c then trimStart s' else s
  end.

Fixpoint trimEnd (s : string) : string :=
  match s with
  | EmptyString => EmptyString
  | String.String c s' =>
      match trimEnd s' with
      | EmptyString => if is_space c then EmptyString
                       else String.String c EmptyString
      | t => String.String c t
      end
  end.

Definition trim (s : string) : string := trimEnd (trimStart s).

Definition sanitizeName (rawName : value) : string :=
  match rawName with
  | String s =>
      let name := trim s in
      if (String.length name =? 0)%nat then "Anonyme"%string
      else if (20 <? String.length name)%nat then substring 0 20 name
      else name
  | _ => "Anonyme"%string
  end.

(** ** Boucle de jeu *)

(** *** 1) Joueur mange des pellets *)

(** [distance(player, p) < player.radius + 5] *)
Definition touches (player : Player.t) (p : Pellet.t) : bool :=
  distance player p <? Player.radius player + 5.

(** [player.score += 1; player.radius = INITIAL_RADIUS + player.score *
    RADIUS_PER_POINT] *)
Definition grow (player : Player.t) : Player.t :=
  let score := Player.score player + 1 in
  Player.mk (Player.x player) (Player.y player) score
    (INITIAL_RADIUS + score * RADIUS_PER_POINT)
    (Player.color player) (Player.name player).

(** [a.splice(i, 1)] *)
Definition splice {A : Type} (i : nat) (a : list A) : list A :=
  firstn i a ++ skipn (S i) a.

(** The inner loop [for (let i = pellets.length - 1; i >= 0; i--)], entered
    with [n = i + 1].  [nth_error] is [pellets[i]], and [None] the hole
    that [if (!p) continue] skips. *)
Fixpoint eatLoop (n : nat) (player : Player.t) (pellets : list Pellet.t)
    : Player.t * list Pellet.t :=
  match n with
  | O => (player, pellets)
  | S i =>
      match nth_error pellets i with
      | None => eatLoop i player pellets
      | Some p =>
          if touches player p
          then eatLoop i (grow player) (splice i pellets)
          else eatLoop i player pellets
      end
  end.

(** The outer loop over [Object.entries(players)].  The entries hold the
    player objects themselves and the loop assigns to no key of
    [players], so the objects it has mutated, in the order of the
    entries, are the new content of [players]. *)
Fixpoint eatPellets (entries : list (string * Player.t))
    (pellets : list Pellet.t) : Obj.t Player.t * list Pellet.t :=
  match entries with
  | [] => ([], pellets)
  | (k, player) :: rest =>
      let (player', pellets') := eatLoop (List.length pellets) player pellets in
      let (rest', pellets'') := eatPellets rest pellets' in
      ((k, player') :: rest', pellets'')
  end.

Definition pelletPhase (w : World) : World :=
  let (ps, pl) := eatPellets (Obj.entries (players w)) (pellets w) in
  with_pellets pl (with_players ps w).

(** *** 2) Joueur mange joueur *)

(** [// --- KILL ---] to the end of the loop body.  [eater] is the object
    stored under [eaterId], so assigning to its fields updates that
    entry; the prey's entry is replaced by a new object. *)
Definition kill (eaterId preyId : string) (eater prey : Player.t)
    (w : World) : World :=
  let gained := Math_floor (Player.score prey * 0.5) in
  let score := Player.score eater + gained in
  let eater' :=
    Player.mk (Player.x eater) (Player.y eater) score
      (INITIAL_RADIUS + score * RADIUS_PER_POINT)
      (Player.color eater) (Player.name eater) in
  let w := with_players (Obj.set (players w) eaterId eater') w in
  let (pos, w) := randomPosition w in
  let w :=
    with_players
      (Obj.set (players w) preyId
         (Player.mk (fst pos) (snd pos) 0 INITIAL_RADIUS
            (Player.color prey) (Player.name prey))) w in
  let w := emit (to eaterId (youAtePlayer gained (Player.name prey))) w in
  emit (to preyId youDied) w.

(** The body of the inner loop, for the pair [(ids[i], ids[j])]. *)
Definition pairBody (idi idj : string) (w : World) : World :=
  match Obj.get (players w) idi, Obj.get (players w) idj with
  | Some a, Some b =>
      if Player.score a =? Player.score b then w
      else
        let eaterId := if Player.score b <? Player.score a then idi else idj in
        let preyId := if String.eqb eaterId idi then idj else idi in
        match Obj.get (players w) eaterId, Obj.get (players w) preyId with
        | Some eater, Some prey =>
            let d := distance eater prey in
            let Re := Player.radius eater in
            let Rp := Player.radius prey in
            if Re <=? Rp * 1.05 then w
            else
              let fullContain := d + Rp <=? Re in
              let strongOverlap := d <? Rp * 0.9 in
              if negb fullContain && negb strongOverlap then w
              else kill eaterId preyId eater prey w
        | _, _ => w
        end
  | _, _ => w
  end.

(** [for (let j = i + 1; j < ids.length; j++)]; [ids[i]] and [ids[j]] are
    in range, the default of [nth] is never read. *)
Definition innerLoop (ids : list string) (i : nat) (w : World) : World :=
  fold_left
    (fun w j => pairBody (nth i ids ""%string) (nth j ids ""%string) w)
    (seq (S i) (List.length ids - S i)) w.

(** [const ids = Object.keys(players); for (let i = 0; i < ids.length; i++)] *)
Definition killPhase (w : World) : World :=
  let ids := Obj.keys (players w) in
  fold_left (fun w i => innerLoop ids i w) (seq 0 (List.length ids)) w.

(** *** 3) Respawn progressif des pellets

    [now] is what [Date.now()] returns during this tick. *)
Definition regrowPhase (now : number) (w : World) : World :=
  if (List.length (pellets w) <? MAX_PELLETS)%nat then
    let (r, w) := Math_random w in
    if r <? 0.2 then
      let (pos, w) := randomPosition w in
      let (r', w) := Math_random w in
      with_pellets
        (pellets w ++ [Pellet.mk (now + r') (fst pos) (snd pos)]) w
    else w
  else w.

(** ** Connexions Socket.IO *)

(** The argument of a [move] event, as far as the handler reads it:
    [None] when it is [undefined] or [null] (reading a property of it
    throws), otherwise the values found under [x] and [y]. *)
Record MoveData := { data_x : value; data_y : value }.

Definition onConnection (socketId : string) (w : World) : World :=
  let (pos, w) := randomPosition w in
  let (c, w) := randomColor w in
  let w :=
    with_players
      (Obj.set (players w) socketId
         (Player.mk (fst pos) (snd pos) 0 INITIAL_RADIUS c "Anonyme")) w in
  emit (to socketId (init socketId MAP_WIDTH MAP_HEIGHT)) w.

Definition onMove (socketId : string) (data : option MoveData) (w : World)
    : completion World :=
  match Obj.get (players w) socketId with
  | None => Normal w
  | Some p =>
      let r := Player.radius p in
      match data with
      | None => Throw
      | Some d =>
          let x := Math_max r (Math_min (MAP_WIDTH - r) (ToNumber (data_x d))) in
          let y := Math_max r (Math_min (MAP_HEIGHT - r) (ToNumber (data_y d))) in
          Normal
            (with_players
               (Obj.set (players w) socketId
                  (Player.mk x y (Player.score p) (Player.radius p)
                     (Player.color p) (Player.name p))) w)
      end
  end.

Definition onSetName (socketId : string) (rawName : value) (w : World)
    : World :=
  match Obj.get (players w) socketId with
  | None => w
  | Some p =>
      with_players
        (Obj.set (players w) socketId
           (Player.mk (Player.x p) (Player.y p) (Player.score p)
              (Player.radius p) (Player.color p) (sanitizeName rawName))) w
  end.

Definition onDisconnect (socketId : string) (w : World) : World :=
  with_players (Obj.delete (players w) socketId) w.

End Server.

(** *** 4) Broadcast de l'état, and the whole [gameLoop], per file *)

(** [server.js] *)
Module ServerJs.

Definition broadcast (w : World) : World :=
  emit (all (state (players w) (Some (pellets w)))) w.

Definition gameLoop `{Entropy} (now : number) (w : World) : World :=
  broadcast (regrowPhase now (killPhase (pelletPhase w))).

End ServerJs.

(** The anti-lag revision. *)
Module AntiLag.

(** [tick++] on a Number that holds an integer: exact up to 2^53, where
    adding 1 rounds back to 2^53. *)
Definition incr (t : Z) : Z :=
  if (t <? 2 ^ 53)%Z then (t + 1)%Z else t.

(** [const payload = { players }; if (tick % 4 === 0) payload.pellets =
    pellets; io.emit("state", payload)] *)
Definition broadcast (w : World) : World :=
  let payload_pellets :=
    if (Z.rem (tick w) 4 =? 0)%Z then Some (pellets w) else None in
  emit (all (state (players w) payload_pellets)) w.

Definition gameLoop `{Entropy} (now : number) (w : World) : World :=
  let w := with_tick (incr (tick w)) w in
  broadcast (regrowPhase now (killPhase (pelletPhase w))).

End AntiLag.

(** ** The server as a transition system

    Node runs one callback at a time: a socket event or a timer tick, each
    to completion. *)
Inductive Event :=
| Connect (socketId : string)
| Move (socketId : string) (data : option MoveData)
| SetName (socketId : string) (rawName : value)
| Disconnect (socketId : string)
| Tick (now : number).

Section Run.

Context {rt : Runtime} {en : Entropy}.

(** The [gameLoop] of the file that runs. *)
Variable gameLoop : number -> World -> World.

Definition step (e : Event) (w : World) : completion World :=
  match e with
  | Connect id => Normal (onConnection id w)
  | Move id data => onMove id data w
  | SetName id rawName => Normal (onSetName id rawName w)
  | Disconnect id => Normal (onDisconnect id w)
  | Tick now => Normal (gameLoop now w)
  end.

Fixpoint run (es : list Event) (w : World) : completion World :=
  match es with
  | [] => Normal w
  | e :: es' =>
      match step e w with
      | Normal w' => run es' w'
      | Throw => Throw
      end
  end.

(** [// Lancement]: the state when the timer and the listener start. *)
Definition boot : World :=
  generateInitialPellets MAX_PELLETS (mkWorld [] [] 0 0 []).

(** The states the server can be in. *)
Definition reachable (w : World) : Prop :=
  exists es, run es boot = Normal w.

End Run.

(** ** Vocabulary of the statements *)

Definition is_kill_note (e : Emit) : bool :=
  match e with
  | to _ (youAtePlayer _ _) | to _ youDied => true
  | _ => false
  end.

(** The two messages of a kill. *)
Definition killNotes (eaterId preyId : string) (prey : Player.t)
    : list Emit :=
  [to eaterId
      (youAtePlayer (Math_floor (Player.score prey * 0.5)) (Player.name prey));
   to preyId youDied].

(** [older w w']: [w'] comes after [w] within the kill pass: same pellets,
    same tick, same player ids in the same order, and only kill
    notifications emitted in between. *)
Definition older (w w' : World) : Prop :=
  pellets w' = pellets w /\
  tick w' = tick w /\
  Obj.keys (players w') = Obj.keys (players w) /\
  exists notes,
    outbox w' = outbox w ++ notes /\
    forallb is_kill_note notes = true.

(** *** The order of Numbers

    [rank] sends every Number but NaN to a triple of integers, so that
    [<], [<=] and [===] on Numbers are the lexicographic order on the
    triples: class first (-inf, negative, zero, positive, +inf), then
    exponent, then mantissa. *)
Definition rank (f : spec_float) : Z * Z * Z :=
  match f with
  | S754_zero _ => (0, 0, 0)%Z
  | S754_infinity false => (2, 0, 0)%Z
  | S754_infinity true => (-2, 0, 0)%Z
  | S754_nan => (0, 0, 0)%Z
  | S754_finite false m e => (1, e, Zpos m)%Z
  | S754_finite true m e => (-1, - e, Zneg m)%Z
  end.

Definition lex3 (a b : Z * Z * Z) : comparison :=
  let '(a1, a2, a3) := a in
  let '(b1, b2, b3) := b in
  match (a1 ?= b1)%Z with
  | Eq => match (a2 ?= b2)%Z with
          | Eq => (a3 ?= b3)%Z
          | c => c
          end
  | c => c
  end.

Definition lt3 (a b : Z * Z * Z) : Prop :=
  let '(a1, a2, a3) := a in
  let '(b1, b2, b3) := b in
  (a1 < b1 \/ (a1 = b1 /\ (a2 < b2 \/ (a2 = b2 /\ a3 < b3))))%Z.

Definition le3 (a b : Z * Z * Z) : Prop :=
  let '(a1, a2, a3) := a in
  let '(b1, b2, b3) := b in
  (a1 < b1 \/ (a1 = b1 /\ (a2 < b2 \/ (a2 = b2 /\ a3 <= b3))))%Z.

(** The rank of a Number. *)
Definition rk (x : number) : Z * Z * Z := rank (Prim2SF x).

(** The roles in a pair of players whose scores differ, as the source
    assigns them: the eater is the one with the higher score. *)
Definition roles (idi idj : string) (a b : Player.t)
    : (string * Player.t) * (string * Player.t) :=
  if Player.score b <? Player.score a
  then ((idi, a), (idj, b))
  else ((idj, b), (idi, a)).

(** Full containment, or strong overlap of the centres. *)
Definition killCondition (eater prey : Player.t) : bool :=
  let d := distance eater prey in
  (d + Player.radius prey <=? Player.radius eater)
  || (d <? Player.radius prey * 0.9).

(** To clamp [v] into [[lo, hi]], in the words of the specification. *)
Definition clamp (lo hi v : number) : number :=
  if v <? lo then lo else if hi <? v then hi else v.

(** [v] lies in [[lo, hi]]. *)
Definition within (lo hi v : number) : bool :=
  (lo <=? v) && (v <=? hi).

(** The position of a player lies in
    [[radius, MAP_WIDTH - radius] x [radius, MAP_HEIGHT - radius]]. *)
Definition contained (p : Player.t) : bool :=
  within (Player.radius p) (MAP_WIDTH - Player.radius p) (Player.x p)
  && within (Player.radius p) (MAP_HEIGHT - Player.radius p) (Player.y p).

(** [radius == INITIAL_RADIUS + score * RADIUS_PER_POINT] *)
Definition radius_ok (p : Player.t) : Prop :=
  Player.radius p = INITIAL_RADIUS + Player.score p * RADIUS_PER_POINT.

(** Every unordered pair of a list, once: each element with each of the
    elements after it. *)
Fixpoint pairs (ids : list string) : list (string * string) :=
  match ids with
  | [] => []
  | a :: rest => map (pair a) rest ++ pairs rest
  end.

(** *** Pellet consumption, as the specification words it

    One player meets one pellet: if the pellet is within reach it is eaten
    (the player grows, the pellet is gone), otherwise it is kept.  The
    result is the player, the pellets kept and the pellets eaten. *)
Definition meet (p : Pellet.t) (acc : Player.t * list Pellet.t * list Pellet.t)
    : Player.t * list Pellet.t * list Pellet.t :=
  let '(player, kept, eaten) := acc in
  if touches player p then (grow player, kept, p :: eaten)
  else (player, p :: kept, eaten).

(** A player meets every pellet of the world, the last one first. *)
Definition consume (player : Player.t) (pellets : list Pellet.t)
    : Player.t * list Pellet.t * list Pellet.t :=
  fold_right meet (player, [], []) pellets.

(** What each player eats, the players taking turns in the order of the
    entries, each on the pellets the players before it have left. *)
Fixpoint meals (entries : list (string * Player.t)) (pellets : list Pellet.t)
    : list (list Pellet.t) :=
  match entries with
  | [] => []
  | (_, player) :: rest =>
      let '(_, kept, eaten) := consume player pellets in
      eaten :: meals rest kept
  end.

Section Regrown.

Context {en : Entropy}.

(** The regrowth step, its draws spelled out: the chance, [x], [y], and
    the fraction added to [Date.now()]. *)
Definition regrown (now : number) (w : World) : World :=
  mkWorld (players w)
    (pellets w ++
       [Pellet.mk (now + Math_random_at (3 + draws w))
          (Math_random_at (1 + draws w) * (MAP_WIDTH - 0) + 0)
          (Math_random_at (2 + draws w) * (MAP_HEIGHT - 0) + 0)])
    (tick w) (4 + draws w) (outbox w).

End Regrown.


(** The number of ticks among some events. *)
Definition count_ticks (es : list Event) : nat :=
  List.length (filter (fun e => match e with Tick _ => true | _ => false end) es).

(** ** Worlds and draws the statements are tried on *)

(** Draws 0.5, 0.25, then 0.125 for ever. *)
Definition demoEntropy : Entropy :=
  {| Math_random_at := fun k => match k with O => 0.5 | 1%nat => 0.25 | _ => 0.125 end |}.

Definition demoRuntime : Runtime := {| StringToNumber := fun _ => nan |}.

(** Scenario 1 of the specification: A (score 125, radius 100) at the
    origin, B (score 0, radius 25) at (60, 0). *)
Definition scenario1 : World :=
  mkWorld
    [("a", Player.mk 0 0 125 100 (Some "#00e5ff") "A");
     ("b", Player.mk 60 0 0 25 (Some "#ffb300") "B")]%string
    [] 0 0 [].

(** Scenario 2: A as before, B (score 50, radius 55) at (90, 0). *)
Definition scenario2 : World :=
  mkWorld
    [("a", Player.mk 0 0 125 100 (Some "#00e5ff") "A");
     ("b", Player.mk 90 0 50 55 (Some "#ffb300") "B")]%string
    [] 0 0 [].

(** Scenario 3, with a second pellet in reach and one out of reach. *)
Definition scenario3 : World :=
  mkWorld
    [("a", Player.mk 10 10 0 20 None "A")]%string
    [Pellet.mk 0 10 10; Pellet.mk 1 500 500; Pellet.mk 2 11 11] 3 0 [].

(** Scenario 5: a player of radius 25 that will send a move. *)
Definition scenario5 : World :=
  mkWorld [("a", Player.mk 100 100 0 25 (Some "#00e5ff") "A")]%string [] 0 0 [].

(** All players of a world obey the radius formula. *)
Definition radius_inv (w : World) : Prop :=
  forall id p, In (id, p) (players w) -> radius_ok p.

(** A long session: one player joins where the pellets are and the server
    ticks 2100 times. *)
Definition longSession : list Event :=
  Connect "a" :: repeat (Tick 1700000000000) 2100.

(** The two players of scenario 1. *)
Definition playerA : Player.t := Player.mk 0 0 125 100 (Some "#00e5ff"%string) "A".
Definition playerB : Player.t := Player.mk 60 0 0 25 (Some "#ffb300"%string) "B".

(** Draws that are all 0: every spawn lands on the corner (0, 0). *)
Definition edgeEntropy : Entropy := {| Math_random_at := fun _ => 0 |}.

(** The record of the player "a" after a run of [server.js] from boot. *)
Definition playerAfter (en : Entropy) (es : list Event) : option Player.t :=
  match @run demoRuntime en (@ServerJs.gameLoop en) es (@boot en) with
  | Normal w => Obj.get (players w) "a"
  | Throw => None
  end.

(** ** Vocabulary of the statements about runs *)

(** The ids that have joined and not left, in the order of joining, after
    the events [es] when they were [ids] before. *)
Fixpoint roster (es : list Event) (ids : list string) : list string :=
  match es with
  | [] => ids
  | Connect id :: es' =>
      roster es' (if existsb (String.eqb id) ids then ids else ids ++ [id])
  | Disconnect id :: es' => roster es' (remove string_dec id ids)
  | _ :: es' => roster es' ids
  end.

(** The number of joins among some events. *)
Definition count_connects (es : list Event) : nat :=
  List.length
    (filter (fun e => match e with Connect _ => true | _ => false end) es).

(** The kinds of messages. *)
Definition is_state (e : Emit) : bool :=
  match e with all (state _ _) => true | _ => false end.

(** A [state] message that has a [pellets] member. *)
Definition carries_pellets (e : Emit) : bool :=
  match e with all (state _ (Some _)) => true | _ => false end.

Definition is_init (e : Emit) : bool :=
  match e with to _ (init _ _ _) => true | _ => false end.

Definition is_youAtePlayer (e : Emit) : bool :=
  match e with to _ (youAtePlayer _ _) => true | _ => false end.

Definition is_youDied (e : Emit) : bool :=
  match e with to _ youDied => true | _ => false end.

(** Every kind of message goes where the source sends it: [state] to all
    sockets; [init] to the socket it names, with the size of the map; the
    two kill notifications to one socket each. *)
Definition addressed (e : Emit) : bool :=
  match e with
  | all (state _ _) => true
  | to id (init id' width height) =>
      String.eqb id id' && (width =? MAP_WIDTH) && (height =? MAP_HEIGHT)
  | to _ (youAtePlayer _ _) => true
  | to _ youDied => true
  | all _ => false
  | to _ (state _ _) => false
  end.

(** [kept notes w w']: from [w] to [w'] no player has joined, left or
    changed place in the order of the ids; every player has kept its name
    and its colour; and every player has kept its position, unless [notes]
    has a [youDied] for it. *)
Definition kept (notes : list Emit) (w w' : World) : Prop :=
  Obj.keys (players w') = Obj.keys (players w) /\
  forall id p,
    Obj.get (players w) id = Some p ->
    exists p',
      Obj.get (players w') id = Some p' /\
      Player.name p' = Player.name p /\
      Player.color p' = Player.color p /\
      (In (to id youDied) notes \/
       (Player.x p' = Player.x p /\ Player.y p' = Player.y p)).

(** [w'] comes after [w], with [kept] for the messages emitted in
    between. *)
Definition settled (w w' : World) : Prop :=
  exists notes, outbox w' = outbox w ++ notes /\ kept notes w w'.

(** Every draw is in [[0, 1)], as [Math.random()] promises. *)
Definition unit_draws (en : Entropy) : Prop :=
  forall k,
    (0 <=? Math_random_at k) = true /\ (Math_random_at k <? 1) = true.

(** A pellet lies on the map, [[0, MAP_WIDTH) x [0, MAP_HEIGHT)]. *)
Definition on_map (p : Pellet.t) : bool :=
  (0 <=? Pellet.x p) && (Pellet.x p <? MAP_WIDTH)
  && (0 <=? Pellet.y p) && (Pellet.y p <? MAP_HEIGHT).

(** A player a client can draw: a name of 1 to 20 characters and a colour
    of the palette. *)
Definition presentable (p : Player.t) : Prop :=
  (1 <= String.length (Player.name p) <= 20)%nat /\
  exists c, In c colors /\ Player.color p = Some c.

(** The commands of a socket: moving and renaming. *)
Inductive CommandKind := Moves | Renames.

Definition command_of (e : Event) : option (string * CommandKind) :=
  match e with
  | Move id _ => Some (id, Moves)
  | SetName id _ => Some (id, Renames)
  | _ => None
  end.

(** A Number that counts: a non-negative integer, or [Infinity]. *)
Definition counting (f : number) : Prop :=
  f = infinity \/ exists z, to_integer f = Some z /\ (0 <= z)%Z.

(** [m * 2 ^ e] is an integer. *)
Definition integral (m e : Z) : Prop :=
  (0 <= e)%Z \/ (2 ^ (- e) | m)%Z.

(** The Numbers that count, told by their representation: the zeros,
    [Infinity], and the positive [m * 2 ^ e] that are integers. *)
Definition SFcounting (f : spec_float) : Prop :=
  match f with
  | S754_zero _ => True
  | S754_infinity s => s = false
  | S754_finite s m e => s = false /\ integral (Zpos m) e
  | S754_nan => False
  end.

(** The score of every player of a world counts. *)
Definition score_inv (w : World) : Prop :=
  forall id p, In (id, p) (players w) -> counting (Player.score p).

(** A player as a join or a respawn leaves it: score 0 and the initial
    radius. *)
Definition fresh (w : World) (id : string) : Prop :=
  exists p,
    Obj.get (players w) id = Some p /\
    Player.score p = 0 /\ Player.radius p = INITIAL_RADIUS.

(** [w'] comes after [w] in a kill pass of a world whose scores count:
    the scores still count, and every player told that it died since is
    fresh. *)
Definition restarted (w w' : World) : Prop :=
  score_inv w' /\
  exists notes,
    outbox w' = outbox w ++ notes /\
    forall id, In (to id youDied) notes -> fresh w' id.

(** A message without the pellets that a [state] may carry. *)
Definition without_pellets (e : Emit) : Emit :=
  match e with
  | all (state ps _) => all (state ps None)
  | to id (state ps _) => to id (state ps None)
  | _ => e
  end.

(** Two worlds, one of each file, in the same game: the same players,
    pellets and draws made, and the same messages sent but for the
    pellets in the [state] messages. *)
Definition same_game (wS wA : World) : Prop :=
  players wA = players wS /\
  pellets wA = pellets wS /\
  draws wA = draws wS /\
  map without_pellets (outbox wA) = map without_pellets (outbox wS).

(** A world with another counter and with messages sent before its
    own. *)
Definition rebase (t : Z) (o : list Emit) (w : World) : World :=
  mkWorld (players w) (pellets w) t (draws w) (o ++ outbox w).

(** The clock of a run: the [Date.now()] of every tick is an integer
    number of milliseconds below [2 ^ 52], at least 2 more than that of
    the tick before ([last], to begin with). *)
Fixpoint timed (last : Z) (es : list Event) : Prop :=
  match es with
  | [] => True
  | Tick now :: es' =>
      exists t, now = of_Z t /\ (last + 2 <= t < 2 ^ 52)%Z /\ timed t es'
  | _ :: es' => timed last es'
  end.

(** The ids of the pellets of a world are distinct, and none is above
    [top]. *)
Definition ids_inv (top : Z) (w : World) : Prop :=
  NoDup (map Pellet.id (pellets w)) /\
  forall p, In p (pellets w) -> (Pellet.id p <=? of_Z top) = true.

(** The first and the last character of a string. *)
Definition first_char (s : string) : option ascii :=
  match s with
  | EmptyString => None
  | String.String c _ => Some c
  end.

Fixpoint last_char (s : string) : option ascii :=
  match s with
  | EmptyString => None
  | String.String c EmptyString => Some c
  | String.String _ s' => last_char s'
  end.

(** The pellet that [generateInitialPellets] makes at index [i], the
    function being entered after [d] draws. *)
Definition initialPellet `{Entropy} (d i : nat) : Pellet.t :=
  Pellet.mk (of_nat i)
    (Math_random_at (d + 2 * i) * (MAP_WIDTH - 0) + 0)
    (Math_random_at (d + 2 * i + 1) * (MAP_HEIGHT - 0) + 0).

(** ** Tactics *)

(** Destructs the ranks in sight and hands the order facts to [lia]. *)
Ltac rk_lia :=
  repeat match goal with
         | H : context [rk ?x] |- _ =>
             let a := fresh "a" in let b := fresh "b" in let c := fresh "c" in
             destruct (rk x) as [[a b] c]
         | |- context [rk ?x] =>
             let a := fresh "a" in let b := fresh "b" in let c := fresh "c" in
             destruct (rk x) as [[a b] c]
         end;
  unfold lt3, le3 in *;
  repeat match goal with
         | H : (_, _, _) = (_, _, _) |- _ => injection H as ? ? ?
         end;
  subst; lia.
(** * Verification *)

(** ** The order of Numbers *)

Lemma lex3_Lt a b : lex3 a b = Lt <-> lt3 a b.
Proof.
  destruct a as [[a1 a2] a3], b as [[b1 b2] b3]. unfold lex3, lt3.
  destruct (Z.compare_spec a1 b1), (Z.compare_spec a2 b2);
    try rewrite Z.compare_lt_iff;
    (split; [intros; try discriminate; lia | intros; try reflexivity; lia]).
Qed.

Lemma lex3_Eq a b : lex3 a b = Eq <-> a = b.
Proof.
  destruct a as [[a1 a2] a3], b as [[b1 b2] b3]. unfold lex3.
  destruct (Z.compare_spec a1 b1), (Z.compare_spec a2 b2);
    try rewrite Z.compare_eq_iff;
    (split; [intros H'; try discriminate; subst; congruence
            | intros H'; injection H' as -> -> ->; lia]).
Qed.

Lemma lex3_Gt a b : lex3 a b = Gt <-> lt3 b a.
Proof.
  destruct a as [[a1 a2] a3], b as [[b1 b2] b3]. unfold lex3, lt3.
  destruct (Z.compare_spec a1 b1), (Z.compare_spec a2 b2);
    try rewrite Z.compare_gt_iff;
    (split; [intros; try discriminate; lia | intros; try reflexivity; lia]).
Qed.

Lemma SFcompare_rank f1 f2 :
  f1 <> S754_nan -> f2 <> S754_nan ->
  SFcompare f1 f2 = Some (lex3 (rank f1) (rank f2)).
Proof.
  intros H1 H2.
  destruct f1 as [s1|s1| |s1 m1 e1], f2 as [s2|s2| |s2 m2 e2];
    try contradiction; try (destruct s1, s2; reflexivity);
    try (destruct s1; reflexivity); try (destruct s2; reflexivity).
  destruct s1, s2; try reflexivity; simpl.
  - rewrite Z.compare_opp, (Z.compare_antisym e1 e2).
    destruct (e1 ?= e2)%Z; reflexivity.
Qed.

Lemma SFcompare_nan f1 f2 :
  SFcompare f1 f2 = None <-> f1 = S754_nan \/ f2 = S754_nan.
Proof.
  destruct f1 as [s1|s1| |s1 m1 e1], f2 as [s2|s2| |s2 m2 e2]; simpl;
    split; intros H; try discriminate; auto;
    try (destruct H; discriminate).
Qed.

Lemma is_nan_spec x : is_nan x = true <-> Prim2SF x = S754_nan.
Proof.
  unfold is_nan. rewrite eqb_spec. unfold SFeqb.
  destruct (Prim2SF x) as [s|s| |s m e].
  - split; discriminate.
  - destruct s; split; discriminate.
  - simpl. tauto.
  - rewrite SFcompare_rank by discriminate.
    replace (lex3 _ _) with Eq by (symmetry; now apply lex3_Eq).
    split; discriminate.
Qed.

Lemma not_nan_spec x : is_nan x = false <-> Prim2SF x <> S754_nan.
Proof.
  rewrite <- is_nan_spec. destruct (is_nan x); split; congruence.
Qed.

Section NumberOrder.

Variables x y : number.
Hypothesis Hx : is_nan x = false.
Hypothesis Hy : is_nan y = false.

Lemma ltb_rk : (x <? y) = true <-> lt3 (rk x) (rk y).
Proof.
  rewrite ltb_spec, <- lex3_Lt. unfold SFltb, rk.
  rewrite SFcompare_rank by now apply not_nan_spec.
  destruct (lex3 _ _); split; congruence.
Qed.

Lemma eqb_rk : (x =? y) = true <-> rk x = rk y.
Proof.
  rewrite eqb_spec, <- lex3_Eq. unfold SFeqb, rk.
  rewrite SFcompare_rank by now apply not_nan_spec.
  destruct (lex3 _ _); split; congruence.
Qed.

Lemma leb_rk : (x <=? y) = true <-> lt3 (rk x) (rk y) \/ rk x = rk y.
Proof.
  rewrite leb_spec, <- lex3_Lt, <- lex3_Eq. unfold SFleb, rk.
  rewrite SFcompare_rank by now apply not_nan_spec.
  destruct (lex3 _ _); split; intros H; auto; try discriminate;
    destruct H; discriminate.
Qed.

Lemma ltb_false_rk : (x <? y) = false <-> lt3 (rk y) (rk x) \/ rk x = rk y.
Proof.
  rewrite ltb_spec, <- lex3_Gt, <- lex3_Eq. unfold SFltb, rk.
  rewrite SFcompare_rank by now apply not_nan_spec.
  destruct (lex3 _ _); split; intros H; auto; try discriminate;
    destruct H; discriminate.
Qed.

Lemma leb_false_rk : (x <=? y) = false <-> lt3 (rk y) (rk x).
Proof.
  rewrite leb_spec, <- lex3_Gt. unfold SFleb, rk.
  rewrite SFcompare_rank by now apply not_nan_spec.
  destruct (lex3 _ _); split; congruence.
Qed.

Lemma eqb_false_rk : (x =? y) = false <-> rk x <> rk y.
Proof.
  rewrite <- eqb_rk. destruct (x =? y); split; congruence.
Qed.

(** Numbers of the same rank are the same Number, or are both zero. *)
Lemma rk_inj : rk x = rk y -> x = y \/ (is_zero x = true /\ is_zero y = true).
Proof.
  unfold rk. intros H.
  apply not_nan_spec in Hx, Hy.
  destruct (Prim2SF x) as [s1|s1| |s1 m1 e1] eqn:E1;
    destruct (Prim2SF y) as [s2|s2| |s2 m2 e2] eqn:E2;
    try contradiction; try (destruct s1, s2; discriminate).
  - right. unfold is_zero. rewrite !eqb_spec, E1, E2. auto.
  - left. apply Prim2SF_inj. rewrite E1, E2.
    destruct s1, s2; try discriminate; reflexivity.
  - left. apply Prim2SF_inj. rewrite E1, E2.
    destruct s1, s2; try discriminate; simpl in H; injection H as H1 H2.
    + f_equal; first [lia | congruence].
    + f_equal; congruence.
Qed.

End NumberOrder.

(** A comparison with NaN is false. *)
Lemma ltb_nan_l x y : is_nan x = true -> (x <? y) = false.
Proof.
  intros H. apply is_nan_spec in H. rewrite ltb_spec, H. reflexivity.
Qed.

Lemma ltb_nan_r x y : is_nan y = true -> (x <? y) = false.
Proof.
  intros H. apply is_nan_spec in H. rewrite ltb_spec, H.
  unfold SFltb. now destruct (Prim2SF x).
Qed.

Lemma leb_nan_l x y : is_nan x = true -> (x <=? y) = false.
Proof.
  intros H. apply is_nan_spec in H. rewrite leb_spec, H. reflexivity.
Qed.

Lemma leb_nan_r x y : is_nan y = true -> (x <=? y) = false.
Proof.
  intros H. apply is_nan_spec in H. rewrite leb_spec, H.
  unfold SFleb. now destruct (Prim2SF x).
Qed.

(** A Number compared successfully is not NaN. *)
Lemma leb_not_nan x y : (x <=? y) = true -> is_nan x = false /\ is_nan y = false.
Proof.
  intros H. split.
  - destruct (is_nan x) eqn:E; [|reflexivity]. now rewrite leb_nan_l in H.
  - destruct (is_nan y) eqn:E; [|reflexivity]. now rewrite leb_nan_r in H.
Qed.

Lemma ltb_not_nan x y : (x <? y) = true -> is_nan x = false /\ is_nan y = false.
Proof.
  intros H. split.
  - destruct (is_nan x) eqn:E; [|reflexivity]. now rewrite ltb_nan_l in H.
  - destruct (is_nan y) eqn:E; [|reflexivity]. now rewrite ltb_nan_r in H.
Qed.

(** Of two Numbers that are not equal, one is below the other. *)
Lemma number_trichotomy x y :
  is_nan x = false -> is_nan y = false ->
  (x =? y) = false -> (y <? x) = false -> (x <? y) = true.
Proof.
  intros Hx Hy He Hl.
  apply (eqb_false_rk x y Hx Hy) in He.
  apply (ltb_false_rk y x Hy Hx) in Hl.
  apply (ltb_rk x y Hx Hy).
  destruct Hl as [Hl|Hl]; [exact Hl|]. congruence.
Qed.


(** ** Objects used as maps: lookup after update *)

Section ObjFacts.

Context {A : Type}.
Implicit Types (o : Obj.t A) (k : string) (v : A).

Lemma get_set_same o k v : Obj.get (Obj.set o k v) k = Some v.
Proof.
  induction o as [|[k' v'] o IH]; simpl.
  - now rewrite String.eqb_refl.
  - destruct (String.eqb k' k) eqn:E; simpl; now rewrite E.
Qed.

Lemma get_set_other o k k' v :
  k <> k' -> Obj.get (Obj.set o k v) k' = Obj.get o k'.
Proof.
  intros Hne. induction o as [|[k0 v0] o IH]; simpl.
  - destruct (String.eqb k k') eqn:E; [|reflexivity].
    apply String.eqb_eq in E. contradiction.
  - destruct (String.eqb k0 k) eqn:E; simpl.
    + apply String.eqb_eq in E. subst k0.
      destruct (String.eqb k k') eqn:E'; [|reflexivity].
      apply String.eqb_eq in E'. contradiction.
    + now rewrite IH.
Qed.

Lemma keys_set_present o k v v0 :
  Obj.get o k = Some v0 -> Obj.keys (Obj.set o k v) = Obj.keys o.
Proof.
  induction o as [|[k' v'] o IH]; simpl; [discriminate|].
  destruct (String.eqb k' k) eqn:E; simpl; intros Hg.
  - reflexivity.
  - f_equal. now apply IH.
Qed.

Lemma keys_set_absent o k v :
  Obj.get o k = None -> Obj.keys (Obj.set o k v) = Obj.keys o ++ [k].
Proof.
  induction o as [|[k' v'] o IH]; simpl; [reflexivity|].
  destruct (String.eqb k' k) eqn:E; simpl; intros Hg; [discriminate|].
  f_equal. now apply IH.
Qed.

Lemma get_some_in o k v : Obj.get o k = Some v -> In (k, v) o.
Proof.
  induction o as [|[k' v'] o IH]; simpl; [discriminate|].
  destruct (String.eqb k' k) eqn:E; intros Hg.
  - apply String.eqb_eq in E. injection Hg as ->. subst. now left.
  - right. now apply IH.
Qed.

Lemma get_none_not_key o k : Obj.get o k = None <-> ~ In k (Obj.keys o).
Proof.
  induction o as [|[k' v'] o IH]; simpl.
  - tauto.
  - destruct (String.eqb k' k) eqn:E.
    + apply String.eqb_eq in E. subst. split; [discriminate|tauto].
    + apply String.eqb_neq in E. tauto.
Qed.

Lemma in_get_wf o k v : Obj.wf o -> In (k, v) o -> Obj.get o k = Some v.
Proof.
  unfold Obj.wf. induction o as [|[k' v'] o IH]; simpl; [tauto|].
  intros Hnd [Heq|Hin]; inversion Hnd as [|? ? Hnotin Hnd']; subst.
  - injection Heq as -> ->. now rewrite String.eqb_refl.
  - destruct (String.eqb k' k) eqn:E; [|now apply IH].
    apply String.eqb_eq in E. subst k'. exfalso. apply Hnotin.
    change k with (fst (k, v)). now apply in_map.
Qed.

(** Every value stored in an updated object is the new value or was
    there before. *)
Lemma in_set o k v kv :
  In kv (Obj.set o k v) -> kv = (k, v) \/ In kv o.
Proof.
  induction o as [|[k' v'] o IH]; simpl.
  - intros [<-|[]]. now left.
  - destruct (String.eqb k' k) eqn:E; simpl.
    + apply String.eqb_eq in E. subst k'. intros [<-|Hin]; auto.
    + intros [<-|Hin]; auto. destruct (IH Hin); auto.
Qed.

Lemma in_delete o k kv : In kv (Obj.delete o k) -> In kv o.
Proof.
  induction o as [|[k' v'] o IH]; simpl; [tauto|].
  destruct (String.eqb k' k); simpl; intuition.
Qed.

End ObjFacts.

(** ** What each part of the server leaves alone *)

Section Frames.

Context {rt : Runtime} {en : Entropy}.

(** [randomPosition] makes two draws, [x] first. *)
Lemma randomPosition_eq w :
  randomPosition w =
  ((Math_random_at (draws w) * (MAP_WIDTH - 0) + 0,
    Math_random_at (S (draws w)) * (MAP_HEIGHT - 0) + 0),
   mkWorld (players w) (pellets w) (tick w) (S (S (draws w))) (outbox w)).
Proof. reflexivity. Qed.

Lemma pelletPhase_frame w :
  tick (pelletPhase w) = tick w /\
  draws (pelletPhase w) = draws w /\
  outbox (pelletPhase w) = outbox w.
Proof.
  unfold pelletPhase.
  destruct (eatPellets (Obj.entries (players w)) (pellets w)); auto.
Qed.


Lemma kill_frame eaterId preyId eater prey w :
  pellets (kill eaterId preyId eater prey w) = pellets w /\
  tick (kill eaterId preyId eater prey w) = tick w /\
  draws (kill eaterId preyId eater prey w) = S (S (draws w)) /\
  outbox (kill eaterId preyId eater prey w) =
    outbox w ++ killNotes eaterId preyId prey.
Proof.
  unfold kill. rewrite randomPosition_eq. simpl.
  repeat split. now rewrite <- app_assoc.
Qed.

(** The pair body does nothing, or it is one kill between the two
    players, both present. *)
Lemma pairBody_cases idi idj w :
  pairBody idi idj w = w \/
  exists eaterId preyId eater prey,
    ((eaterId = idi /\ preyId = idj) \/ (eaterId = idj /\ preyId = idi)) /\
    Obj.get (players w) eaterId = Some eater /\
    Obj.get (players w) preyId = Some prey /\
    pairBody idi idj w = kill eaterId preyId eater prey w.
Proof.
  unfold pairBody.
  destruct (Obj.get (players w) idi) as [a|] eqn:Ha; [|now left].
  destruct (Obj.get (players w) idj) as [b|] eqn:Hb; [|now left].
  destruct (Player.score a =? Player.score b); [now left|].
  destruct (Player.score b <? Player.score a).
  - rewrite String.eqb_refl, Ha, Hb.
    destruct (Player.radius a <=? Player.radius b * 1.05); [now left|].
    destruct (negb _ && negb _); [now left|].
    right. exists idi, idj, a, b. auto.
  - destruct (String.eqb idj idi) eqn:E.
    + apply String.eqb_eq in E. subst idj. rewrite Ha.
      destruct (Player.radius a <=? Player.radius a * 1.05); [now left|].
      destruct (negb _ && negb _); [now left|].
      right. exists idi, idi, a, a. auto.
    + rewrite Ha, Hb.
      destruct (Player.radius b <=? Player.radius a * 1.05); [now left|].
      destruct (negb _ && negb _); [now left|].
      right. exists idj, idi, b, a. auto.
Qed.

End Frames.

(** ** The kill pass as a whole *)




Lemma older_refl w : older w w.
Proof.
  repeat split. exists []. now rewrite app_nil_r.
Qed.

Lemma older_trans w1 w2 w3 : older w1 w2 -> older w2 w3 -> older w1 w3.
Proof.
  intros (Hp & Ht & Hk & n1 & Ho & Hn1) (Hp' & Ht' & Hk' & n2 & Ho' & Hn2).
  repeat split; try congruence.
  exists (n1 ++ n2). rewrite Ho', Ho, app_assoc, forallb_app, Hn1, Hn2. auto.
Qed.

Lemma fold_left_older {X : Type} (f : World -> X -> World) (l : list X) :
  (forall w x, older w (f w x)) -> forall w, older w (fold_left f l w).
Proof.
  intros Hf. induction l as [|x l IH]; intros w; simpl.
  - apply older_refl.
  - eapply older_trans; [apply Hf | apply IH].
Qed.

Section KillPhase.

Context {en : Entropy}.

Lemma kill_older eaterId preyId eater prey w :
  Obj.get (players w) eaterId = Some eater ->
  Obj.get (players w) preyId = Some prey ->
  older w (kill eaterId preyId eater prey w).
Proof.
  intros He Hp.
  destruct (kill_frame eaterId preyId eater prey w) as (H1 & H2 & _ & H4).
  repeat split; auto.
  - unfold kill. rewrite randomPosition_eq. simpl.
    destruct (String.eqb eaterId preyId) eqn:E.
    + apply String.eqb_eq in E. subst preyId.
      erewrite keys_set_present by apply get_set_same.
      eapply keys_set_present; eauto.
    + apply String.eqb_neq in E.
      erewrite keys_set_present
        by (rewrite get_set_other by exact E; exact Hp).
      eapply keys_set_present; eauto.
  - eexists. split; [exact H4|]. reflexivity.
Qed.

Lemma pairBody_older idi idj w : older w (pairBody idi idj w).
Proof.
  destruct (pairBody_cases idi idj w)
    as [->|(e & p & eater & prey & _ & He & Hp & ->)].
  - apply older_refl.
  - now apply kill_older.
Qed.

Lemma innerLoop_older ids i w : older w (innerLoop ids i w).
Proof.
  unfold innerLoop. apply fold_left_older. intros; apply pairBody_older.
Qed.

Lemma killPhase_older w : older w (killPhase w).
Proof.
  unfold killPhase. apply fold_left_older. intros; apply innerLoop_older.
Qed.


Lemma regrowPhase_eq now w :
  regrowPhase now w =
  if (List.length (pellets w) <? MAX_PELLETS)%nat then
    if Math_random_at (draws w) <? 0.2 then regrown now w
    else mkWorld (players w) (pellets w) (tick w) (S (draws w)) (outbox w)
  else w.
Proof.
  unfold regrowPhase.
  destruct (List.length (pellets w) <? MAX_PELLETS)%nat; [|reflexivity].
  unfold Math_random at 1. cbv iota.
  destruct (Math_random_at (draws w) <? 0.2); reflexivity.
Qed.

Lemma regrowPhase_frame now w :
  players (regrowPhase now w) = players w /\
  tick (regrowPhase now w) = tick w /\
  outbox (regrowPhase now w) = outbox w.
Proof.
  rewrite regrowPhase_eq.
  destruct (List.length (pellets w) <? MAX_PELLETS)%nat; auto.
  destruct (Math_random_at (draws w) <? 0.2); auto.
Qed.

(** The first three phases never look at the tick counter. *)
Lemma pelletPhase_with_tick t w :
  pelletPhase (with_tick t w) = with_tick t (pelletPhase w).
Proof.
  unfold pelletPhase. simpl.
  destruct (eatPellets (Obj.entries (players w)) (pellets w)); reflexivity.
Qed.

Lemma kill_with_tick t eaterId preyId eater prey w :
  kill eaterId preyId eater prey (with_tick t w) =
  with_tick t (kill eaterId preyId eater prey w).
Proof. reflexivity. Qed.

Lemma pairBody_with_tick t idi idj w :
  pairBody idi idj (with_tick t w) = with_tick t (pairBody idi idj w).
Proof.
  unfold pairBody. simpl.
  repeat match goal with
         | |- context [match ?c with _ => _ end] => destruct c
         end; reflexivity.
Qed.

Lemma fold_left_with_tick {X : Type} (f : World -> X -> World) t l :
  (forall w x, f (with_tick t w) x = with_tick t (f w x)) ->
  forall w, fold_left f l (with_tick t w) = with_tick t (fold_left f l w).
Proof.
  intros Hf. induction l as [|x l IH]; intros w; simpl; [reflexivity|].
  now rewrite Hf, IH.
Qed.

Lemma killPhase_with_tick t w :
  killPhase (with_tick t w) = with_tick t (killPhase w).
Proof.
  unfold killPhase. simpl. apply fold_left_with_tick.
  intros w' i. unfold innerLoop. apply fold_left_with_tick.
  intros; apply pairBody_with_tick.
Qed.

Lemma regrowPhase_with_tick now t w :
  regrowPhase now (with_tick t w) = with_tick t (regrowPhase now w).
Proof.
  rewrite !regrowPhase_eq. simpl.
  destruct (List.length (pellets w) <? MAX_PELLETS)%nat; [|reflexivity].
  destruct (Math_random_at (draws w) <? 0.2); reflexivity.
Qed.

End KillPhase.

(** ** The broadcast *)

Section Broadcast.

Context {en : Entropy}.

(** The world after the three phases both files share. *)
Lemma phases_frame now w :
  let w3 := regrowPhase now (killPhase (pelletPhase w)) in
  tick w3 = tick w /\
  exists notes,
    forallb is_kill_note notes = true /\
    outbox w3 = outbox w ++ notes.
Proof.
  cbv zeta.
  destruct (regrowPhase_frame now (killPhase (pelletPhase w))) as (_ & Ht & Ho).
  destruct (killPhase_older (pelletPhase w)) as (_ & Ht' & _ & notes & Ho' & Hn).
  destruct (pelletPhase_frame w) as (Ht'' & _ & Ho'').
  split; [congruence|].
  exists notes. split; [exact Hn|congruence].
Qed.

Lemma phases_with_tick now t w :
  regrowPhase now (killPhase (pelletPhase (with_tick t w))) =
  with_tick t (regrowPhase now (killPhase (pelletPhase w))).
Proof.
  now rewrite pelletPhase_with_tick, killPhase_with_tick, regrowPhase_with_tick.
Qed.

(** X1.  [server.js] sends the pellets with every [state] message. *)
Theorem ServerJs_state_every_tick (now : number) (w : World) :
  let w' := ServerJs.gameLoop now w in
  tick w' = tick w /\
  exists notes,
    forallb is_kill_note notes = true /\
    outbox w' =
      outbox w ++ notes ++ [all (state (players w') (Some (pellets w')))].
Proof.
  cbv zeta. unfold ServerJs.gameLoop, ServerJs.broadcast.
  destruct (phases_frame now w) as (Ht & notes & Hn & Ho).
  cbn [tick with_tick emit players pellets outbox].
  split; [exact Ht|].
  exists notes. split; [exact Hn|].
  now rewrite Ho, <- app_assoc.
Qed.


End Broadcast.

(** ** Pellet consumption *)

Lemma grow_fields player :
  Player.score (grow player) = Player.score player + 1 /\
  Player.radius (grow player) =
    INITIAL_RADIUS + Player.score (grow player) * RADIUS_PER_POINT /\
  Player.x (grow player) = Player.x player /\
  Player.y (grow player) = Player.y player /\
  Player.color (grow player) = Player.color player /\
  Player.name (grow player) = Player.name player.
Proof. repeat split. Qed.

Lemma splice_middle {A : Type} (l : list A) (p : A) (r : list A) :
  splice (List.length l) (l ++ p :: r) = l ++ r.
Proof.
  unfold splice. induction l as [|a l IH].
  - reflexivity.
  - change (a :: (firstn (List.length l) (l ++ p :: r)
                  ++ skipn (S (List.length l)) (l ++ p :: r)) = a :: (l ++ r)).
    now rewrite IH.
Qed.

Lemma nth_error_middle {A : Type} (l : list A) (p : A) (r : list A) :
  nth_error (l ++ p :: r) (List.length l) = Some p.
Proof.
  rewrite nth_error_app2 by lia. now rewrite Nat.sub_diag.
Qed.

(** The pellets already kept do not influence the meetings to come. *)
Lemma fold_meet_acc l player kept eaten :
  fold_right meet (player, kept, eaten) l =
  let '(player', kept', eaten') := consume player l in
  (player', kept' ++ kept, eaten' ++ eaten).
Proof.
  unfold consume. revert player kept eaten.
  induction l as [|p l IH] using rev_ind; intros player kept eaten.
  - reflexivity.
  - rewrite !fold_right_app. simpl.
    destruct (touches player p).
    + rewrite (IH (grow player) kept (p :: eaten)).
      rewrite (IH (grow player) [] [p]).
      destruct (fold_right meet (grow player, [], []) l) as [[pl k] e].
      now rewrite app_nil_r, <- app_assoc.
    + rewrite (IH player (p :: kept) eaten).
      rewrite (IH player [p] []).
      destruct (fold_right meet (player, [], []) l) as [[pl k] e].
      now rewrite app_nil_r, <- app_assoc.
Qed.

(** The last pellet of the array is met first. *)
Lemma consume_last player l p :
  consume player (l ++ [p]) =
  if touches player p
  then let '(player', kept, eaten) := consume (grow player) l in
       (player', kept, eaten ++ [p])
  else let '(player', kept, eaten) := consume player l in
       (player', kept ++ [p], eaten).
Proof.
  unfold consume at 1. rewrite fold_right_app. simpl.
  destruct (touches player p); rewrite fold_meet_acc.
  - destruct (consume (grow player) l) as [[pl k] e]. now rewrite app_nil_r.
  - destruct (consume player l) as [[pl k] e]. now rewrite app_nil_r.
Qed.

(** The loop over the indices, run on the first pellets of the array,
    leaves the others where they are. *)
Lemma eatLoop_prefix l player r :
  eatLoop (List.length l) player (l ++ r) =
  let '(player', kept, _) := consume player l in (player', kept ++ r).
Proof.
  revert player r.
  induction l as [|p l IH] using rev_ind; intros player r.
  - reflexivity.
  - rewrite length_app, Nat.add_comm. simpl.
    rewrite <- app_assoc. simpl.
    rewrite nth_error_middle, consume_last.
    destruct (touches player p).
    + rewrite splice_middle, IH.
      now destruct (consume (grow player) l) as [[pl k] e].
    + rewrite IH.
      destruct (consume player l) as [[pl k] e].
      now rewrite <- app_assoc.
Qed.

(** [eatLoop], started as the source starts it, is [consume]. *)
Lemma eatLoop_consume player pellets :
  eatLoop (List.length pellets) player pellets =
  let '(player', kept, _) := consume player pellets in (player', kept).
Proof.
  rewrite <- (app_nil_r pellets) at 2.
  rewrite eatLoop_prefix.
  destruct (consume player pellets) as [[pl k] e]. now rewrite app_nil_r.
Qed.

(** Every pellet met is kept or eaten, never both, never twice; the player
    has grown once per pellet eaten. *)
Lemma consume_partition player pellets :
  let '(player', kept, eaten) := consume player pellets in
  Permutation pellets (kept ++ eaten) /\
  player' = Nat.iter (List.length eaten) grow player.
Proof.
  revert player.
  induction pellets as [|p l IH] using rev_ind; intros player.
  - simpl. auto.
  - rewrite consume_last. destruct (touches player p).
    + specialize (IH (grow player)).
      destruct (consume (grow player) l) as [[pl k] e].
      destruct IH as [HP ->]. split.
      * rewrite app_assoc. now apply Permutation_app_tail.
      * rewrite length_app, Nat.add_comm. cbn [List.length Nat.add].
        now rewrite Nat.iter_succ_r.
    + specialize (IH player).
      destruct (consume player l) as [[pl k] e].
      destruct IH as [HP ->]. split; [|reflexivity].
      rewrite <- app_assoc.
      etransitivity; [apply Permutation_app_tail; exact HP|].
      rewrite <- app_assoc. apply Permutation_app_head.
      apply Permutation_app_comm.
Qed.

(** The pass over all players: each player's entry after the pass, and the
    pellets left to the next player. *)
Lemma eatPellets_meals entries pellets :
  let '(entries', pellets') := eatPellets entries pellets in
  entries' =
    map (fun em => (fst (fst em), Nat.iter (List.length (snd em)) grow (snd (fst em))))
      (combine entries (meals entries pellets)) /\
  Permutation pellets (pellets' ++ List.concat (meals entries pellets)) /\
  List.length (meals entries pellets) = List.length entries.
Proof.
  revert pellets.
  induction entries as [|[k player] rest IH]; intros pellets; simpl.
  - rewrite app_nil_r. auto.
  - rewrite eatLoop_consume.
    pose proof (consume_partition player pellets) as HC.
    destruct (consume player pellets) as [[pl kept] eaten].
    destruct HC as [HP ->].
    specialize (IH kept).
    destruct (eatPellets rest kept) as [rest' pellets''].
    destruct IH as (-> & HP' & HL). simpl. repeat split.
    + etransitivity; [exact HP|].
      etransitivity; [apply Permutation_app_tail; exact HP'|].
      rewrite <- app_assoc. apply Permutation_app_head.
      apply Permutation_app_comm.
    + now rewrite HL.
Qed.

Lemma eatPellets_keys entries pellets :
  Obj.keys (fst (eatPellets entries pellets)) = Obj.keys entries.
Proof.
  revert pellets. induction entries as [|[k player] rest IH]; intros pellets.
  - reflexivity.
  - simpl. destruct (eatLoop _ player pellets) as [pl' ps'].
    specialize (IH ps'). destruct (eatPellets rest ps'). simpl in *.
    now rewrite IH.
Qed.

Lemma eatPellets_length entries pellets :
  (List.length (snd (eatPellets entries pellets)) <= List.length pellets)%nat.
Proof.
  pose proof (eatPellets_meals entries pellets) as H.
  destruct (eatPellets entries pellets) as [es ps].
  destruct H as (_ & HP & _). apply Permutation_length in HP.
  rewrite length_app in HP. simpl. lia.
Qed.

(** C5. In the pellet pass a player eats a pellet exactly when
    [distance(player, pellet) < player.radius + 5], the radius being the
    one the player has when the pellet is examined (last pellet first).
    Eating adds 1 to the score, recomputes the radius from the score and
    removes the pellet from the array.  Over the whole pass the pellets of
    the world are split between those left at the end and the meals of
    the players, each player meeting only what the players before it have
    left: no pellet is eaten twice.  One player can eat several pellets in
    one pass. *)
Theorem C5_pellet_consumption :
  (forall player p, touches player p = (distance player p <? Player.radius player + 5)) /\
  (forall player rest p,
      eatLoop (S (List.length rest)) player (rest ++ [p]) =
      if touches player p
      then eatLoop (List.length rest) (grow player) rest
      else let (player', kept) := eatLoop (List.length rest) player rest in
           (player', kept ++ [p])) /\
  (forall player,
      Player.score (grow player) = Player.score player + 1 /\
      Player.radius (grow player) =
        INITIAL_RADIUS + Player.score (grow player) * RADIUS_PER_POINT) /\
  (forall w,
      let eaten := meals (players w) (pellets w) in
      players (pelletPhase w) =
        map (fun em => (fst (fst em),
                        Nat.iter (List.length (snd em)) grow (snd (fst em))))
          (combine (players w) eaten) /\
      List.length eaten = List.length (players w) /\
      Permutation (pellets w) (pellets (pelletPhase w) ++ List.concat eaten)) /\
  (exists player p1 p2,
      eatLoop 2 player [p1; p2] = (grow (grow player), [])).
Proof.
  split; [reflexivity|].
  split.
  { intros player rest p.
    replace (S (List.length rest)) with (List.length (rest ++ [p]))
      by (rewrite length_app; simpl; lia).
    rewrite eatLoop_consume, consume_last.
    destruct (touches player p).
    - rewrite eatLoop_consume.
      now destruct (consume (grow player) rest) as [[pl k] e].
    - rewrite eatLoop_consume.
      now destruct (consume player rest) as [[pl k] e]. }
  split; [intros player; repeat split|].
  split.
  { intros w. cbv zeta. unfold pelletPhase, Obj.entries.
    pose proof (eatPellets_meals (players w) (pellets w)) as H.
    destruct (eatPellets (players w) (pellets w)) as [es ps].
    destruct H as (-> & HP & HL). simpl. auto. }
  exists (Player.mk 10 10 0 20 None "A"), (Pellet.mk 0 10 10), (Pellet.mk 1 11 11).
  reflexivity.
Qed.

(** ** The pellet cap *)

Section PelletCap.

Context {en : Entropy}.

Lemma pelletPhase_length w :
  (List.length (pellets (pelletPhase w)) <= List.length (pellets w))%nat.
Proof.
  unfold pelletPhase, Obj.entries.
  pose proof (eatPellets_length (players w) (pellets w)) as H.
  destruct (eatPellets (players w) (pellets w)). exact H.
Qed.

Lemma regrowPhase_pellets now w :
  pellets (regrowPhase now w) =
  if ((List.length (pellets w) <? MAX_PELLETS)%nat
      && (Math_random_at (draws w) <? 0.2))%bool
  then pellets w ++
       [Pellet.mk (now + Math_random_at (3 + draws w))
          (Math_random_at (1 + draws w) * (MAP_WIDTH - 0) + 0)
          (Math_random_at (2 + draws w) * (MAP_HEIGHT - 0) + 0)]
  else pellets w.
Proof.
  rewrite regrowPhase_eq.
  destruct (List.length (pellets w) <? MAX_PELLETS)%nat; [|reflexivity].
  destruct (Math_random_at (draws w) <? 0.2); reflexivity.
Qed.

End PelletCap.

(** ** Player against player *)

Section Pairs.

Context {en : Entropy}.

Lemma nth_seq_suffix (pre l : list string) :
  map (fun j => nth j (pre ++ l) ""%string)
    (seq (List.length pre) (List.length l)) = l.
Proof.
  revert pre. induction l as [|a l IH]; intros pre; [reflexivity|].
  cbn [List.length seq map]. f_equal.
  - rewrite app_nth2, Nat.sub_diag by lia. reflexivity.
  - specialize (IH (pre ++ [a])).
    rewrite <- app_assoc, length_app, Nat.add_comm in IH. exact IH.
Qed.

Lemma fold_left_map {X Y S : Type} (f : S -> Y -> S) (g : X -> Y) l s :
  fold_left f (map g l) s = fold_left (fun s x => f s (g x)) l s.
Proof.
  revert s. induction l as [|x l IH]; intros s; simpl; auto.
Qed.

Lemma innerLoop_at (pre : list string) (a : string) (rest : list string) w :
  innerLoop (pre ++ a :: rest) (List.length pre) w =
  fold_left (fun w b => pairBody a b w) rest w.
Proof.
  unfold innerLoop.
  rewrite app_nth2, Nat.sub_diag by lia. cbn [nth].
  rewrite length_app. cbn [List.length].
  replace (List.length pre + S (List.length rest) - S (List.length pre))%nat
    with (List.length rest) by lia.
  rewrite <- (nth_seq_suffix (pre ++ [a]) rest) at 2.
  rewrite fold_left_map, <- app_assoc, length_app, Nat.add_comm.
  reflexivity.
Qed.

(** The double loop meets every unordered pair of ids, in the order of
    [pairs]. *)
Lemma killLoop_pairs (pre suf : list string) w :
  fold_left (fun w i => innerLoop (pre ++ suf) i w)
    (seq (List.length pre) (List.length suf)) w =
  fold_left (fun w p => pairBody (fst p) (snd p) w) (pairs suf) w.
Proof.
  revert pre w. induction suf as [|a rest IH]; intros pre w; [reflexivity|].
  cbn [List.length seq fold_left pairs].
  rewrite innerLoop_at, fold_left_app, fold_left_map. cbn [fst snd].
  specialize (IH (pre ++ [a])).
  rewrite <- app_assoc, length_app, Nat.add_comm in IH. apply IH.
Qed.

Lemma killPhase_pairs w :
  killPhase w =
  fold_left (fun w p => pairBody (fst p) (snd p) w)
    (pairs (Obj.keys (players w))) w.
Proof.
  unfold killPhase. apply (killLoop_pairs [] (Obj.keys (players w))).
Qed.

Lemma in_pairs a b ids : In (a, b) (pairs ids) -> In a ids /\ In b ids.
Proof.
  induction ids as [|c rest IH]; simpl; [tauto|].
  rewrite in_app_iff, in_map_iff.
  intros [(b' & Heq & Hin)|Hin].
  - injection Heq as -> ->. auto.
  - destruct (IH Hin). auto.
Qed.

(** Two distinct ids are met as a pair, in one order only, and once. *)
Lemma pairs_once ids a b :
  NoDup ids -> In a ids -> In b ids -> a <> b ->
  NoDup (pairs ids) /\
  (In (a, b) (pairs ids) \/ In (b, a) (pairs ids)) /\
  ~ (In (a, b) (pairs ids) /\ In (b, a) (pairs ids)).
Proof.
  intros Hnd Ha Hb Hne.
  assert (Hnd' : forall l, NoDup l -> NoDup (pairs l)).
  { induction l as [|c rest IH]; intros H; simpl; [constructor|].
    inversion H as [|? ? Hc Hrest]; subst.
    apply NoDup_app.
    - clear -Hrest. induction Hrest as [|v l' Hv Hl' IHl]; simpl; constructor.
      + rewrite in_map_iff. intros (v' & Heq & Hin). congruence.
      + exact IHl.
    - auto.
    - intros [u v] Hin1 Hin2. apply in_map_iff in Hin1.
      destruct Hin1 as (v' & Heq & _). injection Heq as <- _.
      apply in_pairs in Hin2. tauto. }
  split; [auto|].
  induction Hnd as [|c rest Hc Hrest IH]; [contradiction|].
  simpl. rewrite !in_app_iff, !in_map_iff.
  destruct Ha as [->|Ha], Hb as [->|Hb].
  - contradiction.
  - split.
    + left. left. now exists b.
    + intros [_ [(v & Heq & Hin)|Hin]].
      * injection Heq as -> ->. contradiction.
      * apply in_pairs in Hin. tauto.
  - split.
    + right. left. now exists a.
    + intros [[(v & Heq & Hin)|Hin] _].
      * injection Heq as -> ->. contradiction.
      * apply in_pairs in Hin. tauto.
  - destruct (IH Ha Hb) as [Hor Hnot]. split.
    + destruct Hor; auto.
    + intros [[(v & Heq & Hin)|H1] [(v' & Heq' & Hin')|H2]].
      * injection Heq as -> ->. contradiction.
      * injection Heq as -> ->. contradiction.
      * injection Heq' as -> ->. contradiction.
      * tauto.
Qed.

Lemma kill_players eaterId preyId eater prey w :
  players (kill eaterId preyId eater prey w) =
  Obj.set
    (Obj.set (players w) eaterId
       (Player.mk (Player.x eater) (Player.y eater)
          (Player.score eater + Math_floor (Player.score prey * 0.5))
          (INITIAL_RADIUS
           + (Player.score eater + Math_floor (Player.score prey * 0.5))
             * RADIUS_PER_POINT)
          (Player.color eater) (Player.name eater)))
    preyId
    (Player.mk (Math_random_at (draws w) * (MAP_WIDTH - 0) + 0)
       (Math_random_at (S (draws w)) * (MAP_HEIGHT - 0) + 0)
       0 INITIAL_RADIUS (Player.color prey) (Player.name prey)).
Proof. reflexivity. Qed.

(** A kill is never a no-op: it emits. *)
Lemma kill_changes eaterId preyId eater prey w :
  kill eaterId preyId eater prey w <> w.
Proof.
  intros H. apply (f_equal outbox) in H.
  destruct (kill_frame eaterId preyId eater prey w) as (_ & _ & _ & Ho).
  rewrite Ho in H. apply (f_equal (@List.length _)) in H.
  rewrite length_app in H. simpl in H. lia.
Qed.

(** C3. One evaluation of a pair of players, both present.  Equal scores:
    nothing changes.  Otherwise the eater is the member with the higher
    score and the prey the other one; if [eater.radius <= prey.radius *
    1.05] nothing changes; if not, the evaluation is a kill exactly when
    [d + prey.radius <= eater.radius] or [d < prey.radius * 0.9], [d]
    being the distance of the centres, and it changes nothing when neither
    holds.  The kill pass is the evaluation, one after the other and each
    on the world the evaluations before it have left, of every unordered
    pair of ids, each pair once and in one order. *)
Theorem C3_pair_evaluation (idi idj : string) (a b : Player.t) (w : World) :
  idi <> idj ->
  Obj.get (players w) idi = Some a ->
  Obj.get (players w) idj = Some b ->
  (forall w0,
      killPhase w0 =
      fold_left (fun w p => pairBody (fst p) (snd p) w)
        (pairs (Obj.keys (players w0))) w0) /\
  (forall ids,
      NoDup ids -> In idi ids -> In idj ids ->
      NoDup (pairs ids) /\
      (In (idi, idj) (pairs ids) \/ In (idj, idi) (pairs ids)) /\
      ~ (In (idi, idj) (pairs ids) /\ In (idj, idi) (pairs ids))) /\
  let w' := pairBody idi idj w in
  if Player.score a =? Player.score b then w' = w
  else
    let '((eaterId, eater), (preyId, prey)) := roles idi idj a b in
    (is_nan (Player.score a) = false -> is_nan (Player.score b) = false ->
     (Player.score prey <? Player.score eater) = true) /\
    (if Player.radius eater <=? Player.radius prey * 1.05 then w' = w
     else
       (w' <> w <-> killCondition eater prey = true) /\
       (killCondition eater prey = true ->
        w' = kill eaterId preyId eater prey w) /\
       (killCondition eater prey = false -> w' = w)).
Proof.
  intros Hne Ha Hb.
  split; [exact killPhase_pairs|].
  split; [intros ids Hnd Hi Hj; now apply pairs_once|].
  cbv zeta. unfold pairBody, roles, killCondition.
  rewrite Ha, Hb.
  destruct (Player.score a =? Player.score b) eqn:Heq; [reflexivity|].
  destruct (Player.score b <? Player.score a) eqn:Hlt.
  - rewrite String.eqb_refl, Ha, Hb. split; [auto|].
    destruct (Player.radius a <=? Player.radius b * 1.05); [reflexivity|].
    rewrite <- negb_orb.
    destruct (_ || _); cbn [negb].
    + repeat split; auto using kill_changes; discriminate.
    + repeat split; auto; try discriminate; intros H; now contradiction H.
  - assert (E : String.eqb idj idi = false)
      by (apply String.eqb_neq; congruence).
    rewrite E, Ha, Hb. split.
    { intros Hna Hnb. now apply number_trichotomy. }
    destruct (Player.radius b <=? Player.radius a * 1.05); [reflexivity|].
    rewrite <- negb_orb.
    destruct (_ || _); cbn [negb].
    + repeat split; auto using kill_changes; discriminate.
    + repeat split; auto; try discriminate; intros H; now contradiction H.
Qed.


End Pairs.

(** ** Clamping *)

Lemma rk_zero : rk 0 = (0, 0, 0)%Z.
Proof. reflexivity. Qed.

Lemma positive_not_zero x :
  (0 <? x) = true -> is_pos_zero x = false /\ is_neg_zero x = false.
Proof.
  intros H. destruct (ltb_not_nan _ _ H) as [H0 Hx].
  apply (ltb_rk 0 x H0 Hx) in H. rewrite rk_zero in H.
  unfold is_pos_zero, is_neg_zero, rk in *. rewrite classify_spec.
  destruct (Prim2SF x) as [s|s| |s m e]; simpl in *.
  - lia.
  - destruct s; auto.
  - auto.
  - destruct s; [lia|].
    match goal with
    | |- context [if ?c then PNormal else PSubn] => destruct c
    end; auto.
Qed.

Lemma positive_rk_inj x y :
  (0 <? x) = true -> is_nan y = false -> rk x = rk y -> x = y.
Proof.
  intros H Hy Hr. destruct (ltb_not_nan _ _ H) as [H0 Hx].
  destruct (rk_inj x y Hx Hy Hr) as [E|[Hz _]]; [exact E|].
  unfold is_zero in Hz. apply (eqb_rk x 0 Hx H0) in Hz.
  apply (ltb_rk 0 x H0 Hx) in H. rewrite Hz in H. rewrite rk_zero in H.
  simpl in H. lia.
Qed.

(** [Math.max(lo, Math.min(hi, v))] clamps [v] into [[lo, hi]] when [v] is
    a Number other than NaN and the interval is a positive one. *)
Lemma max_min_clamp lo hi v :
  is_nan v = false -> (0 <? lo) = true -> (lo <=? hi) = true ->
  Math_max lo (Math_min hi v) = clamp lo hi v /\
  within lo hi (clamp lo hi v) = true.
Proof.
  intros Hv Hpos Hle.
  destruct (leb_not_nan _ _ Hle) as [Hlo Hhi].
  destruct (ltb_not_nan _ _ Hpos) as [H0 _].
  assert (Hhipos : (0 <? hi) = true).
  { apply (ltb_rk 0 hi H0 Hhi). apply (ltb_rk 0 lo H0 Hlo) in Hpos.
    apply (leb_rk lo hi Hlo Hhi) in Hle. rewrite rk_zero in *.
    destruct (rk lo) as [[a1 a2] a3], (rk hi) as [[b1 b2] b3].
    destruct Hle as [Hle|Hle]; [|congruence].
    unfold lt3 in *. lia. }
  destruct (positive_not_zero lo Hpos) as [_ Hlonz].
  destruct (positive_not_zero hi Hhipos) as [Hhipz _].
  unfold Math_min, Math_max, clamp, within.
  rewrite Hhi, Hv, Hhipz, andb_false_r. cbn [orb].
  pose proof (leb_rk lo hi Hlo Hhi) as Ele. apply proj1 in Ele.
  specialize (Ele Hle).
  destruct (v <? hi) eqn:E1.
  - (* below the upper bound: Math.min gives [v] *)
    rewrite Hlo, Hv, Hlonz, andb_false_r. cbn [orb].
    pose proof (ltb_rk v hi Hv Hhi) as R1. apply proj1 in R1.
    specialize (R1 E1).
    assert (Hhv : (hi <? v) = false).
    { apply (ltb_false_rk hi v Hhi Hv).
      destruct (rk v) as [[a1 a2] a3], (rk hi) as [[b1 b2] b3].
      unfold lt3 in *. left. lia. }
    destruct (lo <? v) eqn:E2.
    + assert (Hvl : (v <? lo) = false).
      { apply (ltb_false_rk v lo Hv Hlo).
        apply (ltb_rk lo v Hlo Hv) in E2. now left. }
      rewrite Hvl, Hhv. split; [reflexivity|].
      apply andb_true_intro. split.
      * apply (leb_rk lo v Hlo Hv). left. now apply (ltb_rk lo v Hlo Hv).
      * apply (leb_rk v hi Hv Hhi). now left.
    + apply (ltb_false_rk lo v Hlo Hv) in E2.
      destruct (v <? lo) eqn:E3.
      * split; [reflexivity|]. apply andb_true_intro. split; [|exact Hle].
        apply (leb_rk lo lo Hlo Hlo). now right.
      * apply (ltb_false_rk v lo Hv Hlo) in E3.
        assert (Hr : rk lo = rk v).
        { destruct E2 as [E2|E2]; [|exact E2].
          destruct E3 as [E3|E3]; [|congruence].
          destruct (rk v) as [[a1 a2] a3], (rk lo) as [[b1 b2] b3].
          unfold lt3 in *. lia. }
        rewrite Hhv. split; [now apply positive_rk_inj|].
        apply andb_true_intro. split.
        -- apply (leb_rk lo v Hlo Hv). now right.
        -- apply (leb_rk v hi Hv Hhi). now left.
  - (* at or above the upper bound: Math.min gives [hi] *)
    rewrite Hlo, Hhi, Hlonz, andb_false_r. cbn [orb].
    pose proof (ltb_false_rk v hi Hv Hhi) as R1. apply proj1 in R1.
    specialize (R1 E1).
    assert (Hvl : (v <? lo) = false).
    { apply (ltb_false_rk v lo Hv Hlo).
      destruct (rk v) as [[a1 a2] a3], (rk hi) as [[b1 b2] b3],
               (rk lo) as [[c1 c2] c3].
      destruct R1 as [R1|R1], Ele as [Ele|Ele];
        try (injection R1 as -> -> ->); try (injection Ele as -> -> ->);
        unfold lt3 in *; try (left; lia); try (right; reflexivity). }
    rewrite Hvl.
    assert (Hmax : (lo <? hi) = true \/ ((lo <? hi) = false /\ lo = hi)).
    { destruct (lo <? hi) eqn:E2; [now left|right; split; [reflexivity|]].
      apply (ltb_false_rk lo hi Hlo Hhi) in E2.
      apply positive_rk_inj; auto.
      destruct E2 as [E2|E2]; [|exact E2].
      destruct Ele as [Ele|Ele]; [|exact Ele].
      destruct (rk hi) as [[b1 b2] b3], (rk lo) as [[c1 c2] c3].
      unfold lt3 in *. lia. }
    cut (hi = (if hi <? v then hi else v) /\
         (lo <=? (if hi <? v then hi else v))
         && ((if hi <? v then hi else v) <=? hi) = true).
    { intros [G1 G2]. split; [|exact G2].
      destruct Hmax as [E2|[E2 Elh]]; rewrite E2; cbv iota;
        [exact G1 | rewrite Elh; exact G1]. }
    destruct (hi <? v) eqn:E3.
    + split; [reflexivity|]. apply andb_true_intro. split; [exact Hle|].
      apply (leb_rk hi hi Hhi Hhi). now right.
    + apply (ltb_false_rk hi v Hhi Hv) in E3.
      assert (Hr : rk hi = rk v).
      { destruct E3 as [E3|E3]; [|exact E3].
        destruct R1 as [R1|R1]; [|congruence].
        destruct (rk v) as [[a1 a2] a3], (rk hi) as [[b1 b2] b3].
        unfold lt3 in *. lia. }
      assert (hi = v) by now apply positive_rk_inj.
      subst v. split; [reflexivity|].
      apply andb_true_intro. split; [exact Hle|].
      apply (leb_rk hi hi Hhi Hhi). now right.
Qed.

Lemma le3_iff a b : le3 a b <-> lt3 a b \/ a = b.
Proof.
  destruct a as [[a1 a2] a3], b as [[b1 b2] b3]. unfold le3, lt3. split.
  - intros H.
    destruct (Z.eq_dec a1 b1) as [->|]; [|left; lia].
    destruct (Z.eq_dec a2 b2) as [->|]; [|left; lia].
    destruct (Z.eq_dec a3 b3) as [->|]; [now right|left; lia].
  - intros [H|H]; [lia|]. injection H as -> -> ->. lia.
Qed.

Lemma leb_le3 x y :
  is_nan x = false -> is_nan y = false ->
  (x <=? y) = true <-> le3 (rk x) (rk y).
Proof.
  intros Hx Hy. rewrite leb_rk, le3_iff by assumption. reflexivity.
Qed.

Lemma neg_zero_rk x :
  is_neg_zero x = true -> is_nan x = false /\ rk x = (0, 0, 0)%Z.
Proof.
  unfold is_neg_zero, rk. rewrite classify_spec. intros H.
  rewrite not_nan_spec.
  destruct (Prim2SF x) as [s|s| |s m e]; simpl in *;
    try (destruct s; discriminate); try discriminate.
  - split; [discriminate|reflexivity].
  - destruct s;
      match goal with
      | H : context [if ?c then _ else _] |- _ => destruct c
      end; discriminate.
Qed.

Lemma pos_zero_rk x :
  is_pos_zero x = true -> is_nan x = false /\ rk x = (0, 0, 0)%Z.
Proof.
  unfold is_pos_zero, rk. rewrite classify_spec. intros H.
  rewrite not_nan_spec.
  destruct (Prim2SF x) as [s|s| |s m e]; simpl in *;
    try (destruct s; discriminate); try discriminate.
  - split; [discriminate|reflexivity].
  - destruct s;
      match goal with
      | H : context [if ?c then _ else _] |- _ => destruct c
      end; discriminate.
Qed.

(** [Math.min] of two Numbers is one of them, and is below both. *)
Lemma Math_min_spec a b :
  is_nan a = false -> is_nan b = false ->
  is_nan (Math_min a b) = false /\
  (Math_min a b = a \/ Math_min a b = b) /\
  le3 (rk (Math_min a b)) (rk a) /\
  le3 (rk (Math_min a b)) (rk b).
Proof.
  intros Ha Hb. unfold Math_min. rewrite Ha, Hb. cbn [orb].
  destruct (is_neg_zero b && is_pos_zero a) eqn:Hz.
  - apply andb_prop in Hz. destruct Hz as [Hbz Haz].
    apply neg_zero_rk in Hbz. apply pos_zero_rk in Haz.
    destruct Hbz as [_ Hbz], Haz as [_ Haz].
    split; [exact Hb|]. split; [now right|].
    rewrite Hbz, Haz. unfold le3. lia.
  - destruct (b <? a) eqn:Hlt.
    + apply (ltb_rk b a Hb Ha) in Hlt. split; [exact Hb|].
      split; [now right|]. split; rk_lia.
    + apply (ltb_false_rk b a Hb Ha) in Hlt. split; [exact Ha|].
      split; [now left|]. split; destruct Hlt; rk_lia.
Qed.

(** [Math.max] of two Numbers is one of them, and is above both. *)
Lemma Math_max_spec a b :
  is_nan a = false -> is_nan b = false ->
  is_nan (Math_max a b) = false /\
  (Math_max a b = a \/ Math_max a b = b) /\
  le3 (rk a) (rk (Math_max a b)) /\
  le3 (rk b) (rk (Math_max a b)).
Proof.
  intros Ha Hb. unfold Math_max. rewrite Ha, Hb. cbn [orb].
  destruct (is_pos_zero b && is_neg_zero a) eqn:Hz.
  - apply andb_prop in Hz. destruct Hz as [Hbz Haz].
    apply pos_zero_rk in Hbz. apply neg_zero_rk in Haz.
    destruct Hbz as [_ Hbz], Haz as [_ Haz].
    split; [exact Hb|]. split; [now right|].
    rewrite Hbz, Haz. unfold le3. lia.
  - destruct (a <? b) eqn:Hlt.
    + apply (ltb_rk a b Ha Hb) in Hlt. split; [exact Hb|].
      split; [now right|]. split; rk_lia.
    + apply (ltb_false_rk a b Ha Hb) in Hlt. split; [exact Ha|].
      split; [now left|]. split; destruct Hlt; rk_lia.
Qed.

(** [Math.max(lo, Math.min(hi, v))] lies in [[lo, hi]] when [v] is not NaN
    and the interval is not empty. *)
Lemma max_min_within lo hi v :
  is_nan v = false -> (lo <=? hi) = true ->
  within lo hi (Math_max lo (Math_min hi v)) = true.
Proof.
  intros Hv Hle. destruct (leb_not_nan _ _ Hle) as [Hlo Hhi].
  destruct (Math_min_spec hi v Hhi Hv) as (Hm & _ & Hm1 & Hm2).
  destruct (Math_max_spec lo (Math_min hi v) Hlo Hm) as (HM & Hor & HM1 & HM2).
  apply (leb_le3 lo hi Hlo Hhi) in Hle.
  unfold within. apply andb_true_intro. split.
  - now apply leb_le3.
  - apply leb_le3; auto.
    destruct Hor as [->| ->]; assumption.
Qed.

(** [Math.max(lo, Math.min(hi, v))] is equal, as [===] has it, to the clamp
    of [v] into [[lo, hi]], when [v] is not NaN and the interval is not
    empty. *)
Lemma max_min_clamp_eqb lo hi v :
  is_nan v = false -> (lo <=? hi) = true ->
  (Math_max lo (Math_min hi v) =? clamp lo hi v) = true.
Proof.
  intros Hv Hle. destruct (leb_not_nan _ _ Hle) as [Hlo Hhi].
  destruct (Math_min_spec hi v Hhi Hv) as (Hm & Hmor & Hm1 & Hm2).
  destruct (Math_max_spec lo (Math_min hi v) Hlo Hm) as (HM & HMor & HM1 & HM2).
  apply (leb_le3 lo hi Hlo Hhi) in Hle.
  assert (Hmr : rk (Math_min hi v) = rk hi \/ rk (Math_min hi v) = rk v)
    by (destruct Hmor as [-> | ->]; auto).
  assert (HMr : rk (Math_max lo (Math_min hi v)) = rk lo
                \/ rk (Math_max lo (Math_min hi v)) = rk (Math_min hi v))
    by (destruct HMor as [-> | ->]; auto).
  assert (Hc : is_nan (clamp lo hi v) = false)
    by (unfold clamp; destruct (v <? lo); [|destruct (hi <? v)]; assumption).
  apply eqb_rk; [exact HM|exact Hc|].
  unfold clamp.
  destruct (v <? lo) eqn:E1;
    [apply (ltb_rk v lo Hv Hlo) in E1
    |apply (ltb_false_rk v lo Hv Hlo) in E1;
     destruct (hi <? v) eqn:E2;
     [apply (ltb_rk hi v Hhi Hv) in E2
     |apply (ltb_false_rk hi v Hhi Hv) in E2]];
    revert Hle Hm1 Hm2 HM1 HM2 Hmr HMr E1; try revert E2;
    generalize (rk (Math_max lo (Math_min hi v))) as M;
    generalize (rk (Math_min hi v)) as m;
    generalize (rk lo) as L; generalize (rk hi) as H; generalize (rk v) as V;
    intros [[v1 v2] v3] [[h1 h2] h3] [[l1 l2] l3] [[m1 m2] m3] [[M1 M2] M3];
    unfold le3, lt3; intros;
    repeat match goal with
           | H : _ \/ (_, _, _) = (_, _, _) |- _ => destruct H
           | H : (_, _, _) = (_, _, _) |- _ => injection H as ? ? ?
           end;
    subst; repeat f_equal; lia.
Qed.

(** ** The move handler *)

Section Move.

Context {rt : Runtime}.

Lemma onMove_numbers socketId p x y w :
  Obj.get (players w) socketId = Some p ->
  onMove socketId (Some {| data_x := x; data_y := y |}) w =
  Normal
    (with_players
       (Obj.set (players w) socketId
          (Player.mk
             (Math_max (Player.radius p)
                (Math_min (MAP_WIDTH - Player.radius p) (ToNumber x)))
             (Math_max (Player.radius p)
                (Math_min (MAP_HEIGHT - Player.radius p) (ToNumber y)))
             (Player.score p) (Player.radius p)
             (Player.color p) (Player.name p))) w).
Proof. intros H. unfold onMove. now rewrite H. Qed.

(** C8, as the code has it.  A move whose target [(x, y)] is made of Numbers
    other than NaN, applied to a player whose radius [r] leaves room on the
    map ([r <= MAP_WIDTH - r] and [r <= MAP_HEIGHT - r]), stores exactly
    the clamp of [x] into [[r, MAP_WIDTH - r]] and of [y] into
    [[r, MAP_HEIGHT - r]], [r] being the radius of the player when the
    move is applied: the stored coordinates are equal to the clamps as
    [===] has it, and are the very same Numbers when [r] is positive (for
    [r = 0] they may differ in the sign of a zero).  The stored position
    lies in the rectangle, and nothing else in the world changes. *)
Theorem C8_move_clamps (socketId : string) (p : Player.t) (x y : number)
    (w : World) :
  Obj.get (players w) socketId = Some p ->
  is_nan x = false ->
  is_nan y = false ->
  (Player.radius p <=? MAP_WIDTH - Player.radius p) = true ->
  (Player.radius p <=? MAP_HEIGHT - Player.radius p) = true ->
  let r := Player.radius p in
  let cx := clamp r (MAP_WIDTH - r) x in
  let cy := clamp r (MAP_HEIGHT - r) y in
  exists w' x' y',
    onMove socketId (Some {| data_x := Number x; data_y := Number y |}) w
      = Normal w' /\
    Obj.get (players w') socketId =
      Some (Player.mk x' y' (Player.score p) r
              (Player.color p) (Player.name p)) /\
    (x' =? cx) = true /\
    (y' =? cy) = true /\
    ((0 <? r) = true -> x' = cx /\ y' = cy) /\
    within r (MAP_WIDTH - r) x' = true /\
    within r (MAP_HEIGHT - r) y' = true /\
    (forall id, id <> socketId ->
                Obj.get (players w') id = Obj.get (players w) id) /\
    Obj.keys (players w') = Obj.keys (players w) /\
    pellets w' = pellets w /\
    outbox w' = outbox w.
Proof.
  intros Hget Hx Hy Hw Hh. cbv zeta.
  eexists. eexists. eexists.
  split; [apply onMove_numbers; exact Hget|].
  cbn [ToNumber players with_players pellets outbox].
  split; [apply get_set_same|].
  split; [now apply max_min_clamp_eqb|].
  split; [now apply max_min_clamp_eqb|].
  split.
  { intros Hpos.
    destruct (max_min_clamp _ _ x Hx Hpos Hw) as [Ex _].
    destruct (max_min_clamp _ _ y Hy Hpos Hh) as [Ey _].
    now rewrite Ex, Ey. }
  split; [now apply max_min_within|].
  split; [now apply max_min_within|].
  split; [intros id Hne; apply get_set_other; congruence|].
  split; [eapply keys_set_present; exact Hget|].
  split; reflexivity.
Qed.

End Move.

(** ** The radius formula along every run *)

Lemma fold_left_inv {S X : Type} (P : S -> Prop) (f : S -> X -> S) l :
  (forall s x, P s -> P (f s x)) -> forall s, P s -> P (fold_left f l s).
Proof.
  intros Hf. induction l as [|x l IH]; intros s Hs; simpl; auto.
Qed.

Lemma radius_ok_grown n p : radius_ok p -> radius_ok (Nat.iter n grow p).
Proof.
  intros H. destruct n as [|n]; [exact H|]. reflexivity.
Qed.

Lemma radius_inv_set w id p :
  radius_inv w -> radius_ok p ->
  radius_inv (with_players (Obj.set (players w) id p) w).
Proof.
  intros Hw Hp id' p' Hin. simpl in Hin.
  destruct (in_set _ _ _ _ Hin) as [E|Hin']; [|eauto].
  injection E as -> ->. exact Hp.
Qed.

Section RadiusInvariant.

Context {rt : Runtime} {en : Entropy}.

Lemma generateInitialPellets_frame count w :
  let w' := generateInitialPellets count w in
  players w' = players w /\
  tick w' = tick w /\
  outbox w' = outbox w /\
  List.length (pellets w') = count.
Proof.
  cbv zeta. unfold generateInitialPellets.
  cut (forall l w0,
          players (fold_left pushInitialPellet l w0) = players w0 /\
          tick (fold_left pushInitialPellet l w0) = tick w0 /\
          outbox (fold_left pushInitialPellet l w0) = outbox w0 /\
          List.length (pellets (fold_left pushInitialPellet l w0)) =
            (List.length (pellets w0) + List.length l)%nat).
  { intros H. destruct (H (seq 0 count) (with_pellets [] w)) as (H1 & H2 & H3 & H4).
    rewrite length_seq in H4. auto. }
  induction l as [|i l IH]; intros w0; simpl.
  - repeat split. lia.
  - destruct (IH (pushInitialPellet w0 i)) as (H1 & H2 & H3 & H4).
    rewrite H1, H2, H3, H4. unfold pushInitialPellet.
    rewrite randomPosition_eq. cbn [players tick outbox pellets with_pellets].
    rewrite length_app. simpl. repeat split. lia.
Qed.

Lemma boot_frame :
  players boot = [] /\
  tick boot = 0%Z /\
  outbox boot = [] /\
  List.length (pellets boot) = MAX_PELLETS.
Proof.
  unfold boot.
  generalize (generateInitialPellets_frame MAX_PELLETS (mkWorld [] [] 0 0 [])).
  generalize MAX_PELLETS. intros n H. exact H.
Qed.

Lemma pelletPhase_players w :
  players (pelletPhase w) =
  map (fun em => (fst (fst em),
                  Nat.iter (List.length (snd em)) grow (snd (fst em))))
    (combine (players w) (meals (players w) (pellets w))).
Proof.
  unfold pelletPhase, Obj.entries.
  pose proof (eatPellets_meals (players w) (pellets w)) as H.
  destruct (eatPellets (players w) (pellets w)) as [es ps].
  destruct H as (-> & _). reflexivity.
Qed.

Lemma pelletPhase_radius_inv w : radius_inv w -> radius_inv (pelletPhase w).
Proof.
  intros Hw id p' Hin. rewrite pelletPhase_players in Hin.
  apply in_map_iff in Hin. destruct Hin as ([[id0 p0] meal] & E & Hin).
  simpl in E. injection E as <- <-.
  apply in_combine_l in Hin. apply radius_ok_grown. eauto.
Qed.

Lemma kill_radius_inv eaterId preyId eater prey w :
  radius_inv w -> radius_inv (kill eaterId preyId eater prey w).
Proof.
  intros Hw id p' Hin. rewrite kill_players in Hin.
  destruct (in_set _ _ _ _ Hin) as [E|Hin1].
  - injection E as -> ->. reflexivity.
  - destruct (in_set _ _ _ _ Hin1) as [E|Hin2].
    + injection E as -> ->. reflexivity.
    + eauto.
Qed.

Lemma pairBody_radius_inv idi idj w :
  radius_inv w -> radius_inv (pairBody idi idj w).
Proof.
  intros Hw.
  destruct (pairBody_cases idi idj w) as [->|(e & p & eater & prey & _ & _ & _ & ->)].
  - exact Hw.
  - now apply kill_radius_inv.
Qed.

Lemma killPhase_radius_inv w : radius_inv w -> radius_inv (killPhase w).
Proof.
  unfold killPhase. apply fold_left_inv. intros w' i.
  unfold innerLoop. apply fold_left_inv. intros w'' j.
  apply pairBody_radius_inv.
Qed.

Lemma phases_radius_inv now w :
  radius_inv w -> radius_inv (regrowPhase now (killPhase (pelletPhase w))).
Proof.
  intros Hw id p Hin.
  destruct (regrowPhase_frame now (killPhase (pelletPhase w))) as (Hp & _).
  rewrite Hp in Hin.
  exact (killPhase_radius_inv _ (pelletPhase_radius_inv _ Hw) id p Hin).
Qed.

Lemma ServerJs_radius_inv now w :
  radius_inv w -> radius_inv (ServerJs.gameLoop now w).
Proof. intros Hw. exact (phases_radius_inv now w Hw). Qed.

Lemma AntiLag_radius_inv now w :
  radius_inv w -> radius_inv (AntiLag.gameLoop now w).
Proof.
  intros Hw. unfold AntiLag.gameLoop, AntiLag.broadcast.
  rewrite phases_with_tick. exact (phases_radius_inv now w Hw).
Qed.

Lemma onConnection_radius_inv id w :
  radius_inv w -> radius_inv (onConnection id w).
Proof.
  intros Hw id' p' Hin. unfold onConnection in Hin.
  rewrite randomPosition_eq in Hin. simpl in Hin.
  destruct (in_set _ _ _ _ Hin) as [E|Hin']; [|eauto].
  injection E as -> ->. reflexivity.
Qed.

Lemma onMove_radius_inv id data w w' :
  radius_inv w -> onMove id data w = Normal w' -> radius_inv w'.
Proof.
  intros Hw. unfold onMove.
  destruct (Obj.get (players w) id) as [p|] eqn:Hg.
  - destruct data as [d|]; [|discriminate].
    intros E. injection E as <-.
    apply radius_inv_set; [exact Hw|].
    exact (Hw id p (get_some_in _ _ _ Hg)).
  - intros E. injection E as <-. exact Hw.
Qed.

Lemma onSetName_radius_inv id rawName w :
  radius_inv w -> radius_inv (onSetName id rawName w).
Proof.
  intros Hw. unfold onSetName.
  destruct (Obj.get (players w) id) as [p|] eqn:Hg; [|exact Hw].
  apply radius_inv_set; [exact Hw|].
  exact (Hw id p (get_some_in _ _ _ Hg)).
Qed.

Lemma onDisconnect_radius_inv id w :
  radius_inv w -> radius_inv (onDisconnect id w).
Proof.
  intros Hw id' p' Hin. simpl in Hin. apply in_delete in Hin. eauto.
Qed.

Section AnyLoop.

Variable gameLoop : number -> World -> World.
Hypothesis gameLoop_radius_inv :
  forall now w, radius_inv w -> radius_inv (gameLoop now w).

Lemma step_radius_inv e w w' :
  radius_inv w -> step gameLoop e w = Normal w' -> radius_inv w'.
Proof.
  intros Hw. destruct e; simpl; intros E;
    try (injection E as <-);
    eauto using onConnection_radius_inv, onMove_radius_inv,
      onSetName_radius_inv, onDisconnect_radius_inv.
Qed.

Lemma run_radius_inv es w w' :
  radius_inv w -> run gameLoop es w = Normal w' -> radius_inv w'.
Proof.
  revert w. induction es as [|e es IH]; intros w Hw; simpl.
  - intros E. injection E as <-. exact Hw.
  - destruct (step gameLoop e w) as [w1|] eqn:Hs; [|discriminate].
    apply IH. eapply step_radius_inv; eauto.
Qed.

Lemma reachable_radius_inv w : reachable gameLoop w -> radius_inv w.
Proof.
  intros [es Hrun]. eapply run_radius_inv; [|exact Hrun].
  intros id p Hin. destruct boot_frame as (Hp & _).
  rewrite Hp in Hin. contradiction.
Qed.

End AnyLoop.

(** C2, as the code has it.  In every state either server can reach,
    every player obeys [radius == INITIAL_RADIUS + score *
    RADIUS_PER_POINT]: joining, eating pellets, gaining from a kill and
    respawning all keep it, and so do moving, renaming and leaving.  A move
    whose coordinates are Numbers other than NaN, applied to a player
    whose radius [r] leaves room on the map ([r <= MAP_WIDTH - r] and
    [r <= MAP_HEIGHT - r]), leaves the player, still obeying the formula,
    at a position in [[r, MAP_WIDTH - r] x [r, MAP_HEIGHT - r]]. *)
Theorem C2_radius_formula_and_position_after_move
    (gameLoop : number -> World -> World) (w : World) (socketId : string)
    (p : Player.t) :
  gameLoop = ServerJs.gameLoop \/ gameLoop = AntiLag.gameLoop ->
  reachable gameLoop w ->
  Obj.get (players w) socketId = Some p ->
  radius_ok p /\
  forall x y,
    is_nan x = false ->
    is_nan y = false ->
    (Player.radius p <=? MAP_WIDTH - Player.radius p) = true ->
    (Player.radius p <=? MAP_HEIGHT - Player.radius p) = true ->
    exists w' p',
      onMove socketId (Some {| data_x := Number x; data_y := Number y |}) w
        = Normal w' /\
      Obj.get (players w') socketId = Some p' /\
      radius_ok p' /\
      contained p' = true.
Proof.
  intros Hloop Hreach Hget.
  assert (Hinv : radius_inv w).
  { apply (reachable_radius_inv gameLoop); [|exact Hreach].
    destruct Hloop as [-> | ->];
      [exact ServerJs_radius_inv | exact AntiLag_radius_inv]. }
  assert (Hp : radius_ok p) by exact (Hinv _ _ (get_some_in _ _ _ Hget)).
  split; [exact Hp|].
  intros x y Hx Hy Hw Hh.
  eexists. eexists. split; [apply onMove_numbers; exact Hget|].
  split; [apply get_set_same|].
  split; [exact Hp|].
  unfold contained. cbn [Player.radius Player.x Player.y ToNumber].
  now rewrite !max_min_within.
Qed.

End RadiusInvariant.

(** ** Rounding: a draw scaled to the map stays on the map *)

Lemma digits2_pos_bounds p :
  (2 ^ (Zpos (digits2_pos p) - 1) <= Zpos p < 2 ^ Zpos (digits2_pos p))%Z.
Proof.
  induction p as [p IH|p IH|]; cbn [digits2_pos].
  - rewrite Pos2Z.inj_succ.
    replace (Z.succ (Zpos (digits2_pos p)) - 1)%Z
      with (Z.succ (Zpos (digits2_pos p) - 1)) by lia.
    rewrite !Z.pow_succ_r by lia. lia.
  - rewrite Pos2Z.inj_succ.
    replace (Z.succ (Zpos (digits2_pos p)) - 1)%Z
      with (Z.succ (Zpos (digits2_pos p) - 1)) by lia.
    rewrite !Z.pow_succ_r by lia. lia.
  - simpl. lia.
Qed.

(** A positive number below [2 ^ n] has at most [n] digits. *)
Lemma digits2_pos_le p n :
  (0 <= n)%Z -> (Zpos p < 2 ^ n)%Z -> (Zpos (digits2_pos p) <= n)%Z.
Proof.
  intros Hn Hp. destruct (Z_le_gt_dec (Zpos (digits2_pos p)) n) as [H|H]; [exact H|].
  pose proof (digits2_pos_bounds p) as [Hlo _].
  assert (2 ^ n <= 2 ^ (Zpos (digits2_pos p) - 1))%Z
    by (apply Z.pow_le_mono_r; lia).
  lia.
Qed.

(** A positive number at least [2 ^ n] has more than [n] digits. *)
Lemma digits2_pos_gt p n :
  (0 <= n)%Z -> (2 ^ n <= Zpos p)%Z -> (n < Zpos (digits2_pos p))%Z.
Proof.
  intros Hn Hp. destruct (Z_lt_le_dec n (Zpos (digits2_pos p))) as [H|H]; [exact H|].
  pose proof (digits2_pos_bounds p) as [_ Hhi].
  assert (2 ^ Zpos (digits2_pos p) <= 2 ^ n)%Z
    by (apply Z.pow_le_mono_r; lia).
  lia.
Qed.

Lemma shr_1_spec mrs :
  (0 <= shr_m mrs)%Z ->
  shr_m (shr_1 mrs) = (shr_m mrs / 2)%Z /\
  shr_r (shr_1 mrs) = Z.odd (shr_m mrs).
Proof.
  destruct mrs as [m r s]. cbn [shr_m]. intros Hm.
  destruct m as [|p|p]; [now split| |lia].
  destruct p as [p|p|]; cbn [shr_1 shr_m shr_r].
  - split; [|reflexivity]. rewrite Pos2Z.inj_xI.
    apply (Z.div_unique _ _ _ 1); lia.
  - split; [|reflexivity]. rewrite Pos2Z.inj_xO.
    apply (Z.div_unique _ _ _ 0); lia.
  - split; reflexivity.
Qed.

Lemma iter_pos_inv {A : Type} (f : A -> A) (I : Z -> A -> Prop) :
  (forall k x, (0 <= k)%Z -> I k x -> I (k + 1)%Z (f x)) ->
  forall p k x, (0 <= k)%Z -> I k x -> I (k + Zpos p)%Z (iter_pos f p x).
Proof.
  intros Hf. induction p as [p IH|p IH|]; intros k x Hk Hx; cbn [iter_pos].
  - replace (k + Zpos p~1)%Z with (k + 1 + Zpos p + Zpos p)%Z by lia.
    apply IH; [lia|]. apply IH; [lia|]. now apply Hf.
  - replace (k + Zpos p~0)%Z with (k + Zpos p + Zpos p)%Z by lia.
    apply IH; [lia|]. now apply IH.
  - now apply Hf.
Qed.

(** Shifting [M] right by [n] bits: the quotient, and a round bit that is
    set only if the remainder is at least half of [2 ^ n]. *)
Lemma shr_spec M n :
  (0 <= M)%Z ->
  let mrs := iter_pos shr_1 n (Build_shr_record M false false) in
  shr_m mrs = (M / 2 ^ Zpos n)%Z /\
  (shr_r mrs = true -> (2 ^ (Zpos n - 1) <= M mod 2 ^ Zpos n)%Z).
Proof.
  intros HM. cbv zeta.
  pose (I := fun (k : Z) (mrs : shr_record) =>
               shr_m mrs = (M / 2 ^ k)%Z /\
               (shr_r mrs = true ->
                (1 <= k)%Z /\ (2 ^ (k - 1) <= M mod 2 ^ k)%Z)).
  assert (H : I (0 + Zpos n)%Z
                (iter_pos shr_1 n (Build_shr_record M false false))).
  { apply iter_pos_inv; [|lia|].
    - intros k mrs Hk [Hm Hr].
      assert (Hpos : (0 < 2 ^ k)%Z) by (apply Z.pow_pos_nonneg; lia).
      assert (Hq : (0 <= M / 2 ^ k)%Z) by (apply Z.div_pos; lia).
      destruct (shr_1_spec mrs) as [Hm' Hr']; [rewrite Hm; exact Hq|].
      split.
      + rewrite Hm', Hm, Z.pow_add_r, Z.pow_1_r by lia.
        apply Z.div_div; lia.
      + rewrite Hr', Hm. intros Hodd. split; [lia|].
        replace (k + 1 - 1)%Z with k by lia.
        rewrite Z.pow_add_r, Z.pow_1_r by lia.
        pose proof (Z.div_mod M (2 ^ k) ltac:(lia)) as E1.
        pose proof (Z.mod_pos_bound M (2 ^ k) Hpos) as B1.
        pose proof (Zodd_bool_iff (M / 2 ^ k)) as Ho. apply proj1 in Ho.
        specialize (Ho Hodd). apply Zodd_ex in Ho. destruct Ho as [q' Hq'].
        assert (E2 : (M mod (2 ^ k * 2) = 2 ^ k + M mod 2 ^ k)%Z).
        { symmetry. apply (Z.mod_unique_pos _ _ q'); [lia|].
          rewrite E1 at 1. rewrite Hq'. ring. }
        lia.
    - split; [cbn [shr_m]; now rewrite Z.pow_0_r, Z.div_1_r|discriminate]. }
  destruct H as [Hm Hr]. rewrite Z.add_0_l in *. split; [exact Hm|].
  intros Ht. now apply Hr.
Qed.

Lemma round_nearest_even_cases mrs :
  let m1 := round_nearest_even (shr_m mrs) (loc_of_shr_record mrs) in
  m1 = shr_m mrs \/ (m1 = (shr_m mrs + 1)%Z /\ shr_r mrs = true).
Proof.
  destruct mrs as [m r s]. destruct r, s; cbn; auto.
  destruct (Z.even m); auto.
Qed.

Lemma fexp_eq x : fexp prec emax x = Z.max (x - 53) (-1074).
Proof. reflexivity. Qed.

Lemma shr_nonpos mrs e n : (n <= 0)%Z -> shr mrs e n = (mrs, e).
Proof. destruct n; [reflexivity|lia|reflexivity]. Qed.

Lemma shr_pos M e n :
  (0 <= M)%Z -> (0 < n)%Z ->
  exists mrs,
    shr (Build_shr_record M false false) e n = (mrs, (e + n)%Z) /\
    shr_m mrs = (M / 2 ^ n)%Z /\
    (shr_r mrs = true -> (2 ^ (n - 1) <= M mod 2 ^ n)%Z).
Proof.
  intros HM Hn. destruct n as [|p|p]; try lia.
  eexists. split; [reflexivity|]. now apply shr_spec.
Qed.

(** The first shift of [binary_round_aux] and the rounding that follows. *)
Lemma first_stage (M : positive) (E : Z) :
  let e1 := Z.max (Zpos (digits2_pos M) + E - 53) (-1074) in
  let n := (e1 - E)%Z in
  exists mrs' e',
    shr_fexp prec emax (Zpos M) E loc_Exact = (mrs', e') /\
    let m1 := round_nearest_even (shr_m mrs') (loc_of_shr_record mrs') in
    ((e1 <= E)%Z -> m1 = Zpos M /\ e' = E) /\
    ((E < e1)%Z ->
     e' = e1 /\
     (m1 = (Zpos M / 2 ^ n)%Z \/
      (m1 = (Zpos M / 2 ^ n + 1)%Z /\ (2 ^ (n - 1) <= Zpos M mod 2 ^ n)%Z))).
Proof.
  cbv zeta. unfold shr_fexp. rewrite fexp_eq. cbn [Zdigits2 shr_record_of_loc].
  set (e1 := Z.max (Zpos (digits2_pos M) + E - 53) (-1074)).
  destruct (Z_le_gt_dec e1 E) as [Hle|Hgt].
  - rewrite shr_nonpos by lia. eexists. eexists. split; [reflexivity|].
    cbn [shr_m loc_of_shr_record round_nearest_even].
    split; [auto|lia].
  - destruct (shr_pos (Zpos M) E (e1 - E)) as (mrs & Hs & Hm & Hr); try lia.
    rewrite Hs. eexists. eexists. split; [reflexivity|].
    split; [lia|]. intros _. split; [lia|].
    destruct (round_nearest_even_cases mrs) as [H|[H Hrt]]; rewrite H, Hm; auto.
Qed.

(** The second shift of [binary_round_aux]: it undoes a carry into a 54th
    digit, and does nothing otherwise. *)
Lemma second_stage (m1 e' : Z) :
  (0 <= m1 <= 2 ^ 53)%Z -> (-1074 <= e')%Z ->
  exists mrs'' e'',
    shr_fexp prec emax m1 e' loc_Exact = (mrs'', e'') /\
    ((m1 < 2 ^ 53)%Z -> shr_m mrs'' = m1 /\ e'' = e') /\
    (m1 = (2 ^ 53)%Z -> shr_m mrs'' = (2 ^ 52)%Z /\ e'' = (e' + 1)%Z).
Proof.
  intros Hm He. unfold shr_fexp. rewrite fexp_eq. cbn [shr_record_of_loc].
  destruct (Z.eq_dec m1 (2 ^ 53)) as [->|Hne].
  - replace (Z.max (Zdigits2 (2 ^ 53) + e' - 53) (-1074) - e')%Z with 1%Z
      by (change (Zdigits2 (2 ^ 53)) with 54%Z; lia).
    eexists. eexists. split; [reflexivity|]. split; [lia|].
    intros _. split; reflexivity.
  - assert (Hd : (Zdigits2 m1 <= 53)%Z).
    { destruct m1 as [|p|p]; cbn [Zdigits2]; try lia.
      apply digits2_pos_le; lia. }
    rewrite shr_nonpos by lia.
    eexists. eexists. split; [reflexivity|]. split; [auto|lia].
Qed.

(** The product of a normal Number [c = mc * 2 ^ ec] that is not a power of
    two by a Number below 1, [m * 2 ^ e], rounds to zero or to a finite
    Number below [c]. *)
Lemma scaled_draw_below (m mc : positive) (e ec : Z) :
  (Zpos m < 2 ^ (- e))%Z ->
  (Zpos m < 2 ^ 53)%Z ->
  (e < 0)%Z ->
  (2 ^ 52 < Zpos mc < 2 ^ 53)%Z ->
  (-1074 < ec <= 971)%Z ->
  let R := binary_round_aux prec emax false (Zpos (m * mc)) (e + ec) loc_Exact in
  R = S754_zero false \/
  exists mf ef,
    R = S754_finite false mf ef /\
    (ef < ec \/ (ef = ec /\ Zpos mf < Zpos mc))%Z.
Proof.
  intros Hm Hm53 He Hmc Hec. cbv zeta.
  set (M := (m * mc)%positive). set (E := (e + ec)%Z).
  assert (HM : Zpos M = (Zpos m * Zpos mc)%Z) by reflexivity.
  assert (Hpe : (0 < 2 ^ (- e))%Z) by (apply Z.pow_pos_nonneg; lia).
  (* the product is below [2 ^ (53 - e)] and below [2 ^ 106] *)
  assert (HMlt : (Zpos M < 2 ^ (53 - e))%Z).
  { replace (53 - e)%Z with (- e + 53)%Z by lia.
    rewrite Z.pow_add_r by lia. nia. }
  assert (HM106 : (Zpos M < 2 ^ 106)%Z).
  { change (2 ^ 106)%Z with (2 ^ 53 * 2 ^ 53)%Z. nia. }
  assert (HMmc : (Zpos M <= (2 ^ (- e) - 1) * Zpos mc)%Z) by nia.
  pose proof (digits2_pos_bounds M) as [Hdlo Hdhi].
  assert (Hd1 : (Zpos (digits2_pos M) <= 53 - e)%Z)
    by (apply digits2_pos_le; lia).
  assert (Hd2 : (Zpos (digits2_pos M) <= 106)%Z)
    by (apply digits2_pos_le; lia).
  unfold binary_round_aux.
  destruct (first_stage M E) as (mrs' & e' & -> & Hno & Hsh).
  cbv zeta in Hno, Hsh.
  set (e1 := Z.max (Zpos (digits2_pos M) + E - 53) (-1074)) in *.
  set (m1 := round_nearest_even (shr_m mrs') (loc_of_shr_record mrs')) in *.
  assert (He1 : (e1 <= ec)%Z) by (unfold e1, E; lia).
  assert (Hstage :
            (0 <= m1 <= 2 ^ 53)%Z /\ (-1074 <= e')%Z /\ (e' <= ec)%Z /\
            (e' = ec -> m1 < Zpos mc)%Z).
  { destruct (Z_le_gt_dec e1 E) as [Hle|Hgt].
    - destruct (Hno Hle) as [-> ->].
      assert (Zpos (digits2_pos M) <= 53)%Z by (unfold e1 in Hle; lia).
      assert (2 ^ Zpos (digits2_pos M) <= 2 ^ 53)%Z
        by (apply Z.pow_le_mono_r; lia).
      unfold e1, E in *. repeat split; lia.
    - destruct (Hsh ltac:(lia)) as [-> Hm1].
      set (n := (e1 - E)%Z) in *.
      assert (Hn : (0 < n)%Z) by (unfold n; lia).
      assert (Hpn : (0 < 2 ^ n)%Z) by (apply Z.pow_pos_nonneg; lia).
      assert (Hhalf : (2 ^ n = 2 * 2 ^ (n - 1))%Z).
      { replace n with (Z.succ (n - 1)) at 1 by lia.
        rewrite Z.pow_succ_r by lia. reflexivity. }
      pose proof (Z.div_mod (Zpos M) (2 ^ n) ltac:(lia)) as Ediv.
      pose proof (Z.mod_pos_bound (Zpos M) (2 ^ n) Hpn) as Bmod.
      assert (Hq0 : (0 <= Zpos M / 2 ^ n)%Z) by (apply Z.div_pos; lia).
      assert (Hq53 : (Zpos M / 2 ^ n < 2 ^ 53)%Z).
      { apply Z.div_lt_upper_bound; [lia|].
        rewrite <- Z.pow_add_r by lia.
        assert (2 ^ Zpos (digits2_pos M) <= 2 ^ (n + 53))%Z
          by (apply Z.pow_le_mono_r; unfold n, e1; lia).
        lia. }
      split; [destruct Hm1 as [->|[-> _]]; lia|].
      split; [unfold e1; lia|]. split; [exact He1|].
      intros Heq.
      (* the exponent of [c] is reached: the shift is by [- e] bits *)
      assert (Hne : n = (- e)%Z) by (unfold n, E; lia).
      assert (Hdn : (Zpos (digits2_pos M) = 53 + n)%Z)
        by (unfold e1, E in *; lia).
      assert (Hn53 : (n <= 53)%Z) by lia.
      assert (Hqmc : (Zpos M / 2 ^ n < Zpos mc)%Z).
      { apply Z.div_lt_upper_bound; [lia|]. rewrite Hne. nia. }
      destruct Hm1 as [->|[-> Hr]]; [exact Hqmc|].
      destruct (Z_lt_le_dec (Zpos M / 2 ^ n + 1) (Zpos mc)) as [Hlt|Hge];
        [exact Hlt|exfalso].
      assert (Hq : (Zpos M / 2 ^ n = Zpos mc - 1)%Z) by lia.
      assert (Hp52 : (2 ^ (n - 1) <= 2 ^ 52)%Z)
        by (apply Z.pow_le_mono_r; lia).
      rewrite Hq in Ediv. rewrite <- Hne in HMmc. nia. }
  destruct Hstage as (Hm1 & He' & He'ec & Hmclt).
  destruct (second_stage m1 e' Hm1 He') as (mrs'' & e'' & -> & Hsame & Hcarry).
  destruct (Z.eq_dec m1 (2 ^ 53)) as [Hc|Hnc].
  - destruct (Hcarry Hc) as [-> ->].
    assert (e' <> ec) by (intros Heq; specialize (Hmclt Heq); lia).
    right. exists (2 ^ 52)%positive, (e' + 1)%Z. split.
    + change (2 ^ 52)%Z with (Zpos (2 ^ 52)).
      replace (e' + 1 <=? emax - prec)%Z with true
        by (symmetry; apply Z.leb_le; change (emax - prec)%Z with 971%Z; lia).
      reflexivity.
    + change (Zpos (2 ^ 52)) with (2 ^ 52)%Z. lia.
  - destruct (Hsame ltac:(lia)) as [-> ->].
    destruct m1 as [|mf|mf]; [now left| |lia].
    right. exists mf, e'. split.
    + replace (e' <=? emax - prec)%Z with true
        by (symmetry; apply Z.leb_le; change (emax - prec)%Z with 971%Z; lia).
      reflexivity.
    + destruct (Z.eq_dec e' ec) as [Heq|Hneq]; [right|left; lia].
      split; [exact Heq|]. now apply Hmclt.
Qed.

(** A valid Number in [[0, 1)] is zero, or [m * 2 ^ e] with [m] of at most
    53 digits and [m < 2 ^ (- e)]. *)
Lemma unit_interval_spec r :
  (0 <=? r) = true -> (r <? 1) = true ->
  (exists s, Prim2SF r = S754_zero s) \/
  exists m e,
    Prim2SF r = S754_finite false m e /\
    (Zpos m < 2 ^ (- e))%Z /\ (Zpos m < 2 ^ 53)%Z /\ (e < 0)%Z.
Proof.
  intros H0 H1.
  destruct (leb_not_nan _ _ H0) as [Hz Hr].
  destruct (ltb_not_nan _ _ H1) as [_ Ho].
  apply (leb_le3 0 r Hz Hr) in H0. apply (ltb_rk r 1 Hr Ho) in H1.
  pose proof (Prim2SF_valid r) as Hv.
  change (rk 0) with (0, 0, 0)%Z in H0.
  change (rk 1) with (1, -52, 2 ^ 52)%Z in H1.
  unfold rk in H0, H1.
  pose proof (proj1 (not_nan_spec r) Hr) as Hnn.
  destruct (Prim2SF r) as [s|s| |s m e];
    cbn [rank valid_binary] in *; unfold le3, lt3 in *.
  - left. now exists s.
  - destruct s; lia.
  - now contradiction Hnn.
  - right. destruct s; [lia|]. exists m, e. split; [reflexivity|].
    unfold bounded, canonical_mantissa in Hv.
    apply andb_prop in Hv. destruct Hv as [Hc _].
    apply Z.eqb_eq in Hc. rewrite fexp_eq in Hc.
    pose proof (digits2_pos_bounds m) as [Hlo Hhi].
    assert (Hd : (Zpos (digits2_pos m) <= 53)%Z) by lia.
    assert (H53 : (Zpos m < 2 ^ 53)%Z).
    { assert (2 ^ Zpos (digits2_pos m) <= 2 ^ 53)%Z
        by (apply Z.pow_le_mono_r; lia).
      lia. }
    assert (He : (e <= -53)%Z).
    { destruct (Z_le_gt_dec e (-53)) as [H|H]; [exact H|exfalso].
      assert (e = (-52)%Z) by lia. subst e.
      assert (Zpos (digits2_pos m) = 53)%Z by lia.
      assert (2 ^ 52 <= Zpos m)%Z
        by (replace 52%Z with (Zpos (digits2_pos m) - 1)%Z by lia; exact Hlo).
      lia. }
    assert (2 ^ 53 <= 2 ^ (- e))%Z by (apply Z.pow_le_mono_r; lia).
    repeat split; lia.
Qed.

(** A draw in [[0, 1)] scaled by a normal Number [c] that is not a power of
    two, as [randomInRange(0, c)] computes it, lies in [[0, c)]. *)
Lemma scaled_draw_range r c mc ec :
  Prim2SF c = S754_finite false mc ec ->
  (2 ^ 52 < Zpos mc < 2 ^ 53)%Z ->
  (-1074 < ec <= 971)%Z ->
  (0 <=? r) = true -> (r <? 1) = true ->
  (0 <=? r * c + 0) = true /\ (r * c + 0 <? c) = true.
Proof.
  intros Hc Hmc Hec H0 H1.
  rewrite leb_spec, ltb_spec, add_spec, mul_spec, Hc.
  change (Prim2SF 0) with (S754_zero false).
  destruct (unit_interval_spec r H0 H1)
    as [[s ->]|(m & e & -> & Hm & Hm53 & He)].
  - destruct s; split; reflexivity.
  - unfold SF64mul, SFmul. cbn [xorb].
    destruct (scaled_draw_below m mc e ec Hm Hm53 He Hmc Hec)
      as [->|(mf & ef & -> & Hb)].
    + split; reflexivity.
    + split; [reflexivity|].
      unfold SF64add, SFadd, SFltb, SFcompare.
      destruct Hb as [Hb|[-> Hb]].
      * apply Z.compare_lt_iff in Hb. now rewrite Hb.
      * rewrite Z.compare_refl.
        change (Pos.compare_cont Eq mf mc) with (Zpos mf ?= Zpos mc)%Z.
        apply Z.compare_lt_iff in Hb. now rewrite Hb.
Qed.

(** [randomInRange(0, MAP_WIDTH)] and [randomInRange(0, MAP_HEIGHT)] on a
    draw in [[0, 1)]. *)
Lemma map_coordinate_range r :
  (0 <=? r) = true -> (r <? 1) = true ->
  ((0 <=? r * (MAP_WIDTH - 0) + 0) = true
   /\ (r * (MAP_WIDTH - 0) + 0 <? MAP_WIDTH) = true) /\
  ((0 <=? r * (MAP_HEIGHT - 0) + 0) = true
   /\ (r * (MAP_HEIGHT - 0) + 0 <? MAP_HEIGHT) = true).
Proof.
  intros H0 H1.
  change (MAP_WIDTH - 0) with 4000. change (MAP_HEIGHT - 0) with 4000.
  change MAP_WIDTH with 4000. change MAP_HEIGHT with 4000.
  assert (H : (0 <=? r * 4000 + 0) = true /\ (r * 4000 + 0 <? 4000) = true).
  { apply (scaled_draw_range r 4000 8796093022208000 (-41));
      [reflexivity|lia|lia|exact H0|exact H1]. }
  split; exact H.
Qed.

(** ** Spawning *)

Lemma ltb_leb_false a b : (a <? b) = true -> (b <=? a) = false.
Proof.
  intros H. destruct (ltb_not_nan _ _ H) as [Ha Hb].
  apply (leb_false_rk b a Hb Ha). now apply (ltb_rk a b Ha Hb).
Qed.

Section Spawn.

Context {en : Entropy}.

(** C9. A join and a victim respawn both place the player at
    [(r1 * MAP_WIDTH, r2 * MAP_HEIGHT)], [r1] and [r2] being the next two
    draws, with radius [INITIAL_RADIUS]; for draws in [[0, 1)] that is a
    position in [[0, MAP_WIDTH) x [0, MAP_HEIGHT)], taken without regard to
    the radius.  A player so placed closer than its radius to an edge is
    outside [[radius, MAP_WIDTH - radius] x [radius, MAP_HEIGHT - radius]].
    Such placements exist: with draws that are all 0 a player joins at
    (0, 0), is still outside the rectangle after a tick, and is inside it
    after its next move. *)
Theorem C9_spawn_not_inset (socketId eaterId preyId : string)
    (eater prey : Player.t) (w : World) :
  let r1 := Math_random_at (draws w) in
  let r2 := Math_random_at (S (draws w)) in
  (0 <=? r1) = true -> (r1 <? 1) = true ->
  (0 <=? r2) = true -> (r2 <? 1) = true ->
  let x := r1 * (MAP_WIDTH - 0) + 0 in
  let y := r2 * (MAP_HEIGHT - 0) + 0 in
  (exists c,
      Obj.get (players (onConnection socketId w)) socketId =
      Some (Player.mk x y 0 INITIAL_RADIUS c "Anonyme")) /\
  Obj.get (players (kill eaterId preyId eater prey w)) preyId =
    Some (Player.mk x y 0 INITIAL_RADIUS (Player.color prey) (Player.name prey)) /\
  (0 <=? x) = true /\ (x <? MAP_WIDTH) = true /\
  (0 <=? y) = true /\ (y <? MAP_HEIGHT) = true /\
  (forall p,
      Player.x p = x -> Player.y p = y -> Player.radius p = INITIAL_RADIUS ->
      (x <? INITIAL_RADIUS) = true \/ (MAP_WIDTH - INITIAL_RADIUS <? x) = true \/
      (y <? INITIAL_RADIUS) = true \/ (MAP_HEIGHT - INITIAL_RADIUS <? y) = true ->
      contained p = false) /\
  (exists (en' : Entropy) (p0 p1 p2 : Player.t),
      playerAfter en' [Connect "a"] = Some p0 /\
      Player.x p0 = 0 /\ Player.y p0 = 0 /\ contained p0 = false /\
      playerAfter en' [Connect "a"; Tick 1700000000000] = Some p1 /\
      contained p1 = false /\
      playerAfter en'
        [Connect "a"; Tick 1700000000000;
         Move "a" (Some {| data_x := Number 100; data_y := Number 100 |})]
        = Some p2 /\
      contained p2 = true).
Proof.
  intros r1 r2 H1 H1' H2 H2' x y.
  destruct (map_coordinate_range r1 H1 H1') as [[Hx0 Hx1] _].
  destruct (map_coordinate_range r2 H2 H2') as [_ [Hy0 Hy1]].
  split.
  { unfold onConnection. rewrite randomPosition_eq.
    cbn [randomColor Math_random players with_players emit fst snd].
    eexists. apply get_set_same. }
  split; [rewrite kill_players; apply get_set_same|].
  repeat (split; [assumption|]).
  split.
  { intros p Hpx Hpy Hpr Hedge. unfold contained, within.
    rewrite Hpx, Hpy, Hpr.
    destruct Hedge as [H|[H|[H|H]]]; apply ltb_leb_false in H; rewrite H;
      rewrite ?andb_false_r; reflexivity. }
  exists edgeEntropy. unfold playerAfter.
  eexists. eexists. eexists.
  vm_compute. repeat split; reflexivity.
Qed.

End Spawn.

(** ** Along every run: the tick counter and the pellet cap *)

Section Runs.

Context {rt : Runtime} {en : Entropy}.

Lemma handlers_frame e w w' (gameLoop : number -> World -> World) :
  step gameLoop e w = Normal w' ->
  (forall now, e <> Tick now) ->
  tick w' = tick w /\ pellets w' = pellets w.
Proof.
  intros Hs Hne. revert Hs. destruct e as [id|id data|id raw|id|now]; simpl.
  - intros E. injection E as <-. unfold onConnection.
    rewrite randomPosition_eq. simpl. auto.
  - unfold onMove. destruct (Obj.get (players w) id); [|intros E; injection E as <-; auto].
    destruct data; [|discriminate]. intros E. injection E as <-. auto.
  - intros E. injection E as <-. unfold onSetName.
    destruct (Obj.get (players w) id); auto.
  - intros E. injection E as <-. auto.
  - now contradiction (Hne now).
Qed.

Lemma incr_iter n :
  Nat.iter n AntiLag.incr 0%Z = Z.min (Z.of_nat n) (2 ^ 53).
Proof.
  induction n as [|n IH]; [reflexivity|].
  rewrite Nat.iter_succ, IH. unfold AntiLag.incr.
  destruct (Z.ltb_spec (Z.min (Z.of_nat n) (2 ^ 53)) (2 ^ 53)); lia.
Qed.

Lemma AntiLag_tick now w :
  tick (AntiLag.gameLoop now w) = AntiLag.incr (tick w).
Proof.
  unfold AntiLag.gameLoop, AntiLag.broadcast.
  rewrite phases_with_tick.
  destruct (phases_frame now w) as (Ht & _). reflexivity.
Qed.

(** Each tick of the anti-lag server adds one to the counter. *)
Lemma AntiLag_tick_counts es w0 w :
  run AntiLag.gameLoop es w0 = Normal w ->
  tick w = Nat.iter (count_ticks es) AntiLag.incr (tick w0).
Proof.
  revert w0. induction es as [|e es IH]; intros w0; simpl.
  - intros E. now injection E as <-.
  - destruct (step AntiLag.gameLoop e w0) as [w1|] eqn:Hs; [|discriminate].
    intros Hrun. rewrite (IH _ Hrun). unfold count_ticks.
    destruct e as [id|id data|id raw|id|now];
      try (destruct (handlers_frame _ _ _ _ Hs ltac:(intros; discriminate)) as [-> _];
           reflexivity).
    simpl in Hs. injection Hs as <-. cbn [filter List.length].
    now rewrite Nat.iter_succ_r, AntiLag_tick.
Qed.

(** X5.  In the anti-lag server the counter is the number of ticks since
    startup (it stops at 2^53, where [tick++] no longer changes the
    Number): the [n]-th tick broadcasts the pellets exactly when [n] is a
    multiple of 4. *)
Theorem AntiLag_reachable_tick w es :
  run AntiLag.gameLoop es boot = Normal w ->
  tick w = Z.min (Z.of_nat (count_ticks es)) (2 ^ 53).
Proof.
  intros H. rewrite (AntiLag_tick_counts _ _ _ H).
  destruct boot_frame as (_ & -> & _). apply incr_iter.
Qed.

(** The three phases keep the pellet cap. *)
Lemma phases_pellet_cap now w :
  (List.length (pellets w) <= MAX_PELLETS)%nat ->
  (List.length (pellets (regrowPhase now (killPhase (pelletPhase w))))
   <= MAX_PELLETS)%nat.
Proof.
  intros Hcap. rewrite regrowPhase_pellets.
  destruct (killPhase_older (pelletPhase w)) as (Hp & _).
  pose proof (pelletPhase_length w) as Hl. rewrite <- Hp in Hl.
  destruct (List.length (pellets (killPhase (pelletPhase w))) <? MAX_PELLETS)%nat
    eqn:Hlt; [apply Nat.ltb_lt in Hlt|cbn [andb]; lia].
  destruct (Math_random_at _ <? 0.2); cbn [andb]; [|lia].
  rewrite length_app. simpl. lia.
Qed.

(** X4.  In every state either server can reach there are at most
    [MAX_PELLETS] pellets. *)
Theorem reachable_pellet_cap gameLoop w :
  gameLoop = ServerJs.gameLoop \/ gameLoop = AntiLag.gameLoop ->
  reachable gameLoop w ->
  (List.length (pellets w) <= MAX_PELLETS)%nat.
Proof.
  intros Hloop [es Hrun].
  assert (Hboot : (List.length (pellets boot) <= MAX_PELLETS)%nat)
    by (destruct boot_frame as (_ & _ & _ & ->); lia).
  revert Hboot Hrun. generalize boot as w0.
  induction es as [|e es IH]; intros w0 Hw0; simpl.
  - intros E. now injection E as <-.
  - destruct (step gameLoop e w0) as [w1|] eqn:Hs; [|discriminate].
    apply IH.
    destruct e as [id|id data|id raw|id|now];
      try (destruct (handlers_frame _ _ _ _ Hs ltac:(intros; discriminate)) as [_ ->];
           exact Hw0).
    simpl in Hs. injection Hs as <-.
    destruct Hloop as [-> | ->].
    + exact (phases_pellet_cap now w0 Hw0).
    + unfold AntiLag.gameLoop, AntiLag.broadcast. rewrite phases_with_tick.
      exact (phases_pellet_cap now w0 Hw0).
Qed.

End Runs.

(** ** The other handlers *)

Section ObjDelete.

Context {A : Type}.
Implicit Types (o : Obj.t A) (k : string).

Lemma delete_absent o k : Obj.get o k = None -> Obj.delete o k = o.
Proof.
  induction o as [|[k' v'] o IH]; simpl; [reflexivity|].
  destruct (String.eqb k' k); [discriminate|].
  intros H. now rewrite IH.
Qed.

Lemma get_delete_same o k : Obj.wf o -> Obj.get (Obj.delete o k) k = None.
Proof.
  unfold Obj.wf. induction o as [|[k' v'] o IH]; simpl; [reflexivity|].
  intros Hnd. inversion Hnd as [|? ? Hnotin Hnd']; subst.
  destruct (String.eqb k' k) eqn:E.
  - apply String.eqb_eq in E. subst k'. now apply get_none_not_key.
  - simpl. rewrite E. now apply IH.
Qed.

Lemma get_delete_other o k k' :
  k <> k' -> Obj.get (Obj.delete o k) k' = Obj.get o k'.
Proof.
  intros Hne. induction o as [|[k0 v0] o IH]; simpl; [reflexivity|].
  destruct (String.eqb k0 k) eqn:E.
  - apply String.eqb_eq in E. subst k0.
    destruct (String.eqb k k') eqn:E'; [|reflexivity].
    apply String.eqb_eq in E'. contradiction.
  - simpl. now rewrite IH.
Qed.

End ObjDelete.

Lemma substring_0_length n s :
  String.length (substring 0 n s) = Nat.min n (String.length s).
Proof.
  revert s. induction n as [|n IH]; intros s.
  - now destruct s.
  - destruct s as [|c s]; [reflexivity|]. simpl. now rewrite IH.
Qed.

Lemma substring_0_all n s :
  (String.length s <= n)%nat -> substring 0 n s = s.
Proof.
  revert s. induction n as [|n IH]; intros s Hs.
  - destruct s; [reflexivity|simpl in Hs; lia].
  - destruct s as [|c s]; [reflexivity|]. simpl in *.
    rewrite IH by lia. reflexivity.
Qed.

(** X3.  [setName]: a value that is not a string, or a string that trims to the
    empty string, gives "Anonyme"; any other string gives the first 20
    characters of its trimmed value.  The name stored is never empty and
    never longer than 20. *)
Theorem sanitizeName_spec (rawName : value) :
  match rawName with
  | String s =>
      sanitizeName rawName =
      if (String.length (trim s) =? 0)%nat then "Anonyme"%string
      else substring 0 20 (trim s)
  | _ => sanitizeName rawName = "Anonyme"%string
  end /\
  (1 <= String.length (sanitizeName rawName) <= 20)%nat.
Proof.
  destruct rawName as [| |b|n|s]; try (split; [reflexivity|simpl; lia]).
  unfold sanitizeName.
  destruct (String.length (trim s) =? 0)%nat eqn:E0;
    [split; [reflexivity|simpl; lia]|].
  apply Nat.eqb_neq in E0.
  destruct (20 <? String.length (trim s))%nat eqn:E20.
  - apply Nat.ltb_lt in E20. split; [reflexivity|].
    rewrite substring_0_length. lia.
  - apply Nat.ltb_ge in E20. rewrite substring_0_all by exact E20.
    split; [reflexivity|lia].
Qed.

Section Handlers.

Context {rt : Runtime}.

(** X6.  A command of a socket that has no player record (it raced with the
    disconnect) changes nothing and raises nothing. *)
Theorem stale_commands_are_ignored (socketId : string)
    (data : option MoveData) (rawName : value) (w : World) :
  Obj.get (players w) socketId = None ->
  onMove socketId data w = Normal w /\
  onSetName socketId rawName w = w /\
  players (onDisconnect socketId w) = players w.
Proof.
  intros H. unfold onMove, onSetName, onDisconnect. rewrite H.
  repeat split. simpl. now apply delete_absent.
Qed.

(** X9.  [setName] stores the sanitized name and touches nothing else. *)
Theorem onSetName_spec (socketId : string) (rawName : value) (p : Player.t)
    (w : World) :
  Obj.get (players w) socketId = Some p ->
  let w' := onSetName socketId rawName w in
  Obj.get (players w') socketId =
    Some (Player.mk (Player.x p) (Player.y p) (Player.score p)
            (Player.radius p) (Player.color p) (sanitizeName rawName)) /\
  (forall id, id <> socketId ->
              Obj.get (players w') id = Obj.get (players w) id) /\
  Obj.keys (players w') = Obj.keys (players w) /\
  pellets w' = pellets w /\ outbox w' = outbox w /\ tick w' = tick w.
Proof.
  intros H. cbv zeta. unfold onSetName. rewrite H. simpl.
  split; [apply get_set_same|].
  split; [intros id Hne; apply get_set_other; congruence|].
  split; [eapply keys_set_present; exact H|].
  repeat split.
Qed.

(** X7.  Leaving removes the player's record at once and nothing else. *)
Theorem onDisconnect_spec (socketId : string) (w : World) :
  Obj.wf (players w) ->
  let w' := onDisconnect socketId w in
  Obj.get (players w') socketId = None /\
  (forall id, id <> socketId ->
              Obj.get (players w') id = Obj.get (players w) id) /\
  pellets w' = pellets w /\ outbox w' = outbox w /\ tick w' = tick w.
Proof.
  intros Hwf. cbv zeta. unfold onDisconnect. simpl.
  split; [now apply get_delete_same|].
  split; [intros id Hne; apply get_delete_other; congruence|].
  repeat split.
Qed.

End Handlers.

(** ** The colour of a new player *)

Lemma scaled_draw_product r c mc ec :
  Prim2SF c = S754_finite false mc ec ->
  (2 ^ 52 < Zpos mc < 2 ^ 53)%Z ->
  (-1074 < ec <= 971)%Z ->
  (0 <=? r) = true -> (r <? 1) = true ->
  (exists s, Prim2SF (r * c) = S754_zero s) \/
  exists mf ef,
    Prim2SF (r * c) = S754_finite false mf ef /\
    (ef < ec \/ (ef = ec /\ Zpos mf < Zpos mc))%Z.
Proof.
  intros Hc Hmc Hec H0 H1. rewrite mul_spec, Hc.
  destruct (unit_interval_spec r H0 H1)
    as [[s ->]|(m & e & -> & Hm & Hm53 & He)].
  - left. exists s. destruct s; reflexivity.
  - unfold SF64mul, SFmul. cbn [xorb].
    destruct (scaled_draw_below m mc e ec Hm Hm53 He Hmc Hec)
      as [->|(mf & ef & -> & Hb)].
    + left. exists false. reflexivity.
    + right. exists mf, ef. split; [reflexivity|exact Hb].
Qed.

(** The floor of a Number in [[0, 5)], used as an index, reads one of the
    first five elements of an array. *)
Lemma floor_index {A : Type} (l : list A) v :
  ((exists s, Prim2SF v = S754_zero s) \/
   exists mf ef,
     Prim2SF v = S754_finite false mf ef /\
     (ef < -50 \/ (ef = -50 /\ Zpos mf < 5 * 2 ^ 50))%Z) ->
  exists k, (k < 5)%nat /\ array_get l (Math_floor v) = nth_error l k.
Proof.
  intros [[s Hv]|(mf & ef & Hv & Hb)].
  - exists 0%nat. split; [lia|].
    unfold array_get, to_integer, Math_floor. now rewrite Hv, Hv.
  - pose proof (Prim2SF_valid v) as Hval. rewrite Hv in Hval.
    cbn [valid_binary] in Hval. unfold bounded, canonical_mantissa in Hval.
    apply andb_prop in Hval. destruct Hval as [Hc _].
    apply Z.eqb_eq in Hc. rewrite fexp_eq in Hc.
    pose proof (digits2_pos_bounds mf) as [_ Hhi].
    assert (Hm53 : (Zpos mf < 2 ^ 53)%Z).
    { assert (2 ^ Zpos (digits2_pos mf) <= 2 ^ 53)%Z
        by (apply Z.pow_le_mono_r; lia).
      lia. }
    assert (Hef : (ef < 0)%Z) by lia.
    assert (Hq : (0 <= Zpos mf / 2 ^ (- ef) < 5)%Z).
    { assert (Hp : (0 < 2 ^ (- ef))%Z) by (apply Z.pow_pos_nonneg; lia).
      split; [apply Z.div_pos; lia|].
      apply Z.div_lt_upper_bound; [lia|].
      destruct Hb as [Hb|[-> Hb]].
      - assert (2 ^ 51 <= 2 ^ (- ef))%Z by (apply Z.pow_le_mono_r; lia).
        change (2 ^ 53)%Z with (4 * 2 ^ 51)%Z in Hm53. lia.
      - change (- -50)%Z with 50%Z. lia. }
    unfold Math_floor. rewrite Hv.
    replace (0 <=? ef)%Z with false by (symmetry; apply Z.leb_gt; lia).
    cbn [cond_Zopp].
    set (q := (Zpos mf / 2 ^ (- ef))%Z) in *.
    exists (Z.to_nat q). split; [lia|].
    assert (Hcases : q = 0%Z \/ q = 1%Z \/ q = 2%Z \/ q = 3%Z \/ q = 4%Z) by lia.
    destruct Hcases as [->|[->|[->|[->| ->]]]]; reflexivity.
Qed.

Section Colour.

Context {en : Entropy}.

(** X8.  For a draw in [[0, 1)], [randomColor] returns a colour of the palette:
    [colors[Math.floor(r * 5)]] is never [undefined]. *)
Theorem randomColor_in_palette (w : World) :
  (0 <=? Math_random_at (draws w)) = true ->
  (Math_random_at (draws w) <? 1) = true ->
  exists c, In c colors /\ fst (randomColor w) = Some c.
Proof.
  intros H0 H1. unfold randomColor. cbn [Math_random fst].
  change (of_nat (List.length colors)) with 5.
  destruct (floor_index colors (Math_random_at (draws w) * 5)) as (k & Hk & ->).
  { destruct (scaled_draw_product _ 5 5629499534213120 (-50)
                eq_refl ltac:(lia) ltac:(lia) H0 H1)
      as [Hz|(mf & ef & Hv & Hb)]; [now left|right].
    exists mf, ef. split; [exact Hv|].
    change (5 * 2 ^ 50)%Z with (Zpos 5629499534213120). exact Hb. }
  destruct (nth_error colors k) as [c|] eqn:E.
  - exists c. split; [eapply nth_error_In; exact E|reflexivity].
  - apply nth_error_None in E. simpl in E. lia.
Qed.

End Colour.
(** ** The initial pellet field *)

Lemma NoDup_map_on {X Y : Type} (f : X -> Y) (g : Y -> option X) l :
  (forall x, In x l -> g (f x) = Some x) -> NoDup l -> NoDup (map f l).
Proof.
  intros Hg Hnd. induction Hnd as [|x l Hx Hl IH]; simpl; constructor.
  - rewrite in_map_iff. intros (x' & Heq & Hin).
    assert (Some x' = Some x).
    { rewrite <- (Hg x') by now right. rewrite Heq. apply Hg. now left. }
    congruence.
  - apply IH. intros x' Hin. apply Hg. now right.
Qed.

Section Boot.

Context {en : Entropy}.

Lemma pushInitialPellet_ids l w0 :
  map Pellet.id (pellets (fold_left pushInitialPellet l w0)) =
  map Pellet.id (pellets w0) ++ map of_nat l.
Proof.
  revert w0. induction l as [|i l IH]; intros w0; simpl.
  - now rewrite app_nil_r.
  - rewrite IH. unfold pushInitialPellet. rewrite randomPosition_eq.
    cbn [pellets with_pellets]. rewrite map_app, <- app_assoc. reflexivity.
Qed.

(** X2.  At startup there are exactly [MAX_PELLETS] pellets, with the ids
    0, 1, .., 1199, all distinct. *)
Theorem boot_pellets :
  List.length (pellets boot) = MAX_PELLETS /\
  map Pellet.id (pellets boot) = map of_nat (seq 0 MAX_PELLETS) /\
  NoDup (map Pellet.id (pellets boot)).
Proof.
  assert (Hids : map Pellet.id (pellets boot) = map of_nat (seq 0 MAX_PELLETS)).
  { unfold boot. generalize MAX_PELLETS. intros n.
    unfold generateInitialPellets. rewrite pushInitialPellet_ids.
    reflexivity. }
  split; [apply boot_frame|]. split; [exact Hids|].
  rewrite Hids. clear Hids.
  apply (NoDup_map_on of_nat
           (fun f => match to_integer f with
                     | Some z => Some (Z.to_nat z)
                     | None => None
                     end));
    [|apply seq_NoDup].
  assert (Hall : forallb
                   (fun i => match to_integer (of_nat i) with
                             | Some z => (Z.to_nat z =? i)%nat
                             | None => false
                             end) (seq 0 MAX_PELLETS) = true)
    by (vm_compute; reflexivity).
  intros i Hin. rewrite forallb_forall in Hall. specialize (Hall i Hin).
  destruct (to_integer (of_nat i)) as [z|]; [|discriminate].
  apply Nat.eqb_eq in Hall. now rewrite Hall.
Qed.

End Boot.

(** ** Objects used as maps: updates that follow one another *)

Section ObjUpdates.

Context {A : Type}.
Implicit Types (o : Obj.t A) (k : string) (v : A).

Lemma set_set o k v1 v2 : Obj.set (Obj.set o k v1) k v2 = Obj.set o k v2.
Proof.
  induction o as [|[k' v'] o IH]; simpl.
  - now rewrite String.eqb_refl.
  - destruct (String.eqb k' k) eqn:E; simpl; rewrite E; [reflexivity|].
    now rewrite IH.
Qed.

(** Assigning to two keys that are both present: the order is
    immaterial. *)
Lemma set_set_comm o k1 k2 v1 v2 u1 u2 :
  k1 <> k2 ->
  Obj.get o k1 = Some u1 -> Obj.get o k2 = Some u2 ->
  Obj.set (Obj.set o k1 v1) k2 v2 = Obj.set (Obj.set o k2 v2) k1 v1.
Proof.
  intros Hne. induction o as [|[k v] o IH]; simpl; [discriminate|].
  destruct (String.eqb k k1) eqn:E1, (String.eqb k k2) eqn:E2; simpl;
    rewrite ?E1, ?E2; intros H1 H2.
  - apply String.eqb_eq in E1, E2. congruence.
  - reflexivity.
  - reflexivity.
  - f_equal. now apply IH.
Qed.

Lemma keys_set o k v :
  Obj.keys (Obj.set o k v) =
  if existsb (String.eqb k) (Obj.keys o) then Obj.keys o
  else Obj.keys o ++ [k].
Proof.
  induction o as [|[k' v'] o IH]; simpl; [reflexivity|].
  rewrite (String.eqb_sym k k').
  destruct (String.eqb k' k) eqn:E; simpl; [reflexivity|].
  rewrite IH. now destruct (existsb _ _).
Qed.

Lemma existsb_keys o k :
  existsb (String.eqb k) (Obj.keys o) =
  match Obj.get o k with Some _ => true | None => false end.
Proof.
  induction o as [|[k' v'] o IH]; simpl; [reflexivity|].
  rewrite (String.eqb_sym k k').
  destruct (String.eqb k' k); simpl; [reflexivity|exact IH].
Qed.

Lemma wf_set o k v : Obj.wf o -> Obj.wf (Obj.set o k v).
Proof.
  unfold Obj.wf. intros Hwf. rewrite keys_set.
  destruct (existsb (String.eqb k) (Obj.keys o)) eqn:E; [exact Hwf|].
  apply NoDup_app; [exact Hwf|repeat constructor; auto|].
  intros k' Hin [<-|[]].
  assert (existsb (String.eqb k) (Obj.keys o) = true); [|congruence].
  apply existsb_exists. exists k. split; [exact Hin|apply String.eqb_refl].
Qed.

Lemma keys_delete o k :
  Obj.wf o -> Obj.keys (Obj.delete o k) = remove string_dec k (Obj.keys o).
Proof.
  unfold Obj.wf. induction o as [|[k' v'] o IH]; simpl; [reflexivity|].
  intros Hnd. inversion Hnd as [|? ? Hnotin Hnd']; subst.
  destruct (String.eqb k' k) eqn:E.
  - apply String.eqb_eq in E. subst k'.
    destruct (string_dec k k) as [_|Hn]; [|contradiction].
    symmetry. now apply notin_remove.
  - apply String.eqb_neq in E.
    destruct (string_dec k k') as [Heq|_]; [congruence|].
    simpl. f_equal. now apply IH.
Qed.

Lemma wf_delete o k : Obj.wf o -> Obj.wf (Obj.delete o k).
Proof.
  intros Hwf. unfold Obj.wf. rewrite keys_delete by exact Hwf.
  clear - Hwf. unfold Obj.wf in Hwf.
  induction Hwf as [|k' l Hnotin Hnd IH]; simpl; [constructor|].
  destruct (string_dec k k'); [exact IH|].
  constructor; [|exact IH].
  intros Hin. apply in_remove in Hin. tauto.
Qed.

End ObjUpdates.

(** ** Joining *)

Section Joining.

Context {en : Entropy}.

(** X10.  A join stores a fresh record under the socket's id (score 0,
    radius [INITIAL_RADIUS], name "Anonyme", a position and a colour made
    of the next three draws), in the place of the record already under
    that id if there is one and after all the others if not; it sends
    [init], with the id and the size of the map, to the joining socket
    alone; it leaves the other players, the pellets and the counter as
    they are. *)
Theorem onConnection_spec (socketId : string) (w : World) :
  let w' := onConnection socketId w in
  Obj.get (players w') socketId =
    Some (Player.mk
            (Math_random_at (draws w) * (MAP_WIDTH - 0) + 0)
            (Math_random_at (1 + draws w) * (MAP_HEIGHT - 0) + 0)
            0 INITIAL_RADIUS
            (array_get colors
               (Math_floor
                  (Math_random_at (2 + draws w) * of_nat (List.length colors))))
            "Anonyme") /\
  (forall id, id <> socketId ->
              Obj.get (players w') id = Obj.get (players w) id) /\
  Obj.keys (players w') =
    (match Obj.get (players w) socketId with
     | Some _ => Obj.keys (players w)
     | None => Obj.keys (players w) ++ [socketId]
     end) /\
  outbox w' = outbox w ++ [to socketId (init socketId MAP_WIDTH MAP_HEIGHT)] /\
  pellets w' = pellets w /\
  tick w' = tick w /\
  draws w' = (3 + draws w)%nat.
Proof.
  cbv zeta. unfold onConnection. rewrite randomPosition_eq.
  cbn [randomColor Math_random players with_players emit fst snd
       pellets tick draws outbox].
  split; [apply get_set_same|].
  split; [intros id Hne; apply get_set_other; congruence|].
  split; [|repeat split].
  rewrite keys_set, existsb_keys.
  now destruct (Obj.get (players w) socketId).
Qed.

End Joining.

(** ** What a tick leaves of the players *)

Lemma settled_refl w : settled w w.
Proof.
  exists []. split; [now rewrite app_nil_r|]. split; [reflexivity|].
  intros id p Hg. exists p. repeat (split; [auto|]). right. auto.
Qed.

Lemma settled_trans w1 w2 w3 : settled w1 w2 -> settled w2 w3 -> settled w1 w3.
Proof.
  intros (n1 & Ho1 & Hk1 & Hp1) (n2 & Ho2 & Hk2 & Hp2).
  exists (n1 ++ n2). split; [now rewrite Ho2, Ho1, app_assoc|].
  split; [congruence|].
  intros id p Hg.
  destruct (Hp1 id p Hg) as (p1 & Hg1 & Hn1 & Hc1 & Hx1).
  destruct (Hp2 id p1 Hg1) as (p2 & Hg2 & Hn2 & Hc2 & Hx2).
  exists p2. split; [exact Hg2|]. split; [congruence|]. split; [congruence|].
  rewrite in_app_iff.
  destruct Hx1 as [Hd|[Hx1 Hy1]]; [tauto|].
  destruct Hx2 as [Hd|[Hx2 Hy2]]; [tauto|].
  right. split; congruence.
Qed.

Lemma fold_left_settled {X : Type} (f : World -> X -> World) (l : list X) :
  (forall w x, settled w (f w x)) -> forall w, settled w (fold_left f l w).
Proof.
  intros Hf. induction l as [|x l IH]; intros w; simpl.
  - apply settled_refl.
  - eapply settled_trans; [apply Hf | apply IH].
Qed.

(** A world that differs in the pellets, the counter and the draws
    only. *)
Lemma settled_same w w' :
  players w' = players w -> outbox w' = outbox w -> settled w w'.
Proof.
  intros Hp Ho. exists []. split; [now rewrite app_nil_r|].
  split; [now rewrite Hp|].
  intros id p Hg. exists p. rewrite Hp. repeat (split; [auto|]). right. auto.
Qed.

Lemma grown_fields n p :
  Player.x (Nat.iter n grow p) = Player.x p /\
  Player.y (Nat.iter n grow p) = Player.y p /\
  Player.color (Nat.iter n grow p) = Player.color p /\
  Player.name (Nat.iter n grow p) = Player.name p.
Proof.
  induction n as [|n IH]; [auto|]. rewrite Nat.iter_succ. exact IH.
Qed.

Lemma eatPellets_get entries pellets id p :
  Obj.get entries id = Some p ->
  exists n,
    Obj.get (fst (eatPellets entries pellets)) id = Some (Nat.iter n grow p).
Proof.
  revert pellets. induction entries as [|[k player] rest IH]; intros pellets;
    simpl; [discriminate|].
  rewrite eatLoop_consume.
  pose proof (consume_partition player pellets) as HC.
  destruct (consume player pellets) as [[pl kept] eaten].
  destruct HC as [_ ->].
  specialize (IH kept). destruct (eatPellets rest kept) as [rest' pellets''].
  simpl in *. destruct (String.eqb k id).
  - intros E. injection E as <-. eexists. reflexivity.
  - exact IH.
Qed.

Section TickPlayers.

Context {en : Entropy}.

Lemma pelletPhase_settled w : settled w (pelletPhase w).
Proof.
  exists []. destruct (pelletPhase_frame w) as (_ & _ & Ho).
  split; [now rewrite app_nil_r|].
  unfold pelletPhase, Obj.entries.
  pose proof (eatPellets_keys (players w) (pellets w)) as Hk.
  pose proof (eatPellets_get (players w) (pellets w)) as Hg.
  destruct (eatPellets (players w) (pellets w)) as [ps pl]. simpl in *.
  split; [exact Hk|].
  intros id p Hp. destruct (Hg id p Hp) as (n & Hn).
  exists (Nat.iter n grow p). split; [exact Hn|].
  destruct (grown_fields n p) as (Hx & Hy & Hc & Hna).
  repeat (split; [assumption|]). right. auto.
Qed.

Lemma kill_settled eaterId preyId eater prey w :
  Obj.get (players w) eaterId = Some eater ->
  Obj.get (players w) preyId = Some prey ->
  settled w (kill eaterId preyId eater prey w).
Proof.
  intros He Hp. exists (killNotes eaterId preyId prey).
  destruct (kill_frame eaterId preyId eater prey w) as (_ & _ & _ & Ho).
  split; [exact Ho|].
  destruct (kill_older eaterId preyId eater prey w He Hp) as (_ & _ & Hk & _).
  split; [exact Hk|].
  intros id p Hg. rewrite kill_players.
  destruct (String.eqb preyId id) eqn:E1.
  - apply String.eqb_eq in E1. subst id. rewrite get_set_same.
    assert (p = prey) by congruence. subst p.
    eexists. split; [reflexivity|]. cbn [Player.name Player.color].
    repeat split. left. unfold killNotes. simpl. auto.
  - apply String.eqb_neq in E1. rewrite get_set_other by exact E1.
    destruct (String.eqb eaterId id) eqn:E2.
    + apply String.eqb_eq in E2. subst id. rewrite get_set_same.
      assert (p = eater) by congruence. subst p.
      eexists. split; [reflexivity|]. cbn.
      repeat (split; [reflexivity|]). right. auto.
    + apply String.eqb_neq in E2. rewrite get_set_other by exact E2.
      exists p. repeat (split; [auto|]). right. auto.
Qed.

Lemma pairBody_settled idi idj w : settled w (pairBody idi idj w).
Proof.
  destruct (pairBody_cases idi idj w)
    as [->|(e & p & eater & prey & _ & He & Hp & ->)].
  - apply settled_refl.
  - now apply kill_settled.
Qed.

Lemma killPhase_settled w : settled w (killPhase w).
Proof.
  unfold killPhase. apply fold_left_settled. intros w' i.
  unfold innerLoop. apply fold_left_settled. intros; apply pairBody_settled.
Qed.

Lemma phases_settled now w :
  settled w (regrowPhase now (killPhase (pelletPhase w))).
Proof.
  eapply settled_trans; [apply pelletPhase_settled|].
  eapply settled_trans; [apply killPhase_settled|].
  destruct (regrowPhase_frame now (killPhase (pelletPhase w))) as (Hp & _ & Ho).
  now apply settled_same.
Qed.

Lemma emit_settled e w : is_youDied e = false -> settled w (emit e w).
Proof.
  intros He. exists [e]. split; [reflexivity|]. split; [reflexivity|].
  intros id p Hg. exists p. repeat (split; [auto|]). right. auto.
Qed.

Lemma gameLoop_settled gameLoop now w :
  gameLoop = ServerJs.gameLoop \/ gameLoop = AntiLag.gameLoop ->
  settled w (gameLoop now w).
Proof.
  intros [-> | ->].
  - unfold ServerJs.gameLoop, ServerJs.broadcast.
    eapply settled_trans; [apply phases_settled|].
    now apply emit_settled.
  - unfold AntiLag.gameLoop, AntiLag.broadcast.
    rewrite phases_with_tick.
    set (w3 := regrowPhase now (killPhase (pelletPhase w))).
    apply (settled_trans w w3); [apply phases_settled|].
    apply (settled_trans w3 (with_tick (AntiLag.incr (tick w)) w3));
      [apply settled_same; reflexivity|].
    now apply emit_settled.
Qed.

(** X11.  A tick of either server lets no player join or leave and keeps
    the order of the ids; it changes no name and no colour; and it moves
    no player, except to respawn one to which it sends [youDied] in that
    same tick. *)
Theorem tick_keeps_players (gameLoop : number -> World -> World)
    (now : number) (w : World) :
  gameLoop = ServerJs.gameLoop \/ gameLoop = AntiLag.gameLoop ->
  let w' := gameLoop now w in
  exists sent,
    outbox w' = outbox w ++ sent /\
    Obj.keys (players w') = Obj.keys (players w) /\
    forall id p,
      Obj.get (players w) id = Some p ->
      exists p',
        Obj.get (players w') id = Some p' /\
        Player.name p' = Player.name p /\
        Player.color p' = Player.color p /\
        (In (to id youDied) sent \/
         (Player.x p' = Player.x p /\ Player.y p' = Player.y p)).
Proof.
  intros Hloop. exact (gameLoop_settled gameLoop now w Hloop).
Qed.

End TickPlayers.

(** ** Who is in the game *)

Section Roster.

Context {rt : Runtime} {en : Entropy}.

Lemma step_roster gameLoop e w w' :
  gameLoop = ServerJs.gameLoop \/ gameLoop = AntiLag.gameLoop ->
  Obj.wf (players w) ->
  step gameLoop e w = Normal w' ->
  Obj.keys (players w') = roster [e] (Obj.keys (players w)).
Proof.
  intros Hloop Hwf. destruct e as [id|id data|id raw|id|now]; simpl.
  - intros E. injection E as <-. unfold onConnection.
    rewrite randomPosition_eq.
    cbn [randomColor Math_random players with_players emit fst snd].
    apply keys_set.
  - unfold onMove. destruct (Obj.get (players w) id) as [p|] eqn:Hg;
      [|intros E; now injection E as <-].
    destruct data; [|discriminate]. intros E. injection E as <-.
    simpl. eapply keys_set_present; exact Hg.
  - intros E. injection E as <-. unfold onSetName.
    destruct (Obj.get (players w) id) as [p|] eqn:Hg; [|reflexivity].
    simpl. eapply keys_set_present; exact Hg.
  - intros E. injection E as <-. simpl. now apply keys_delete.
  - intros E. injection E as <-.
    destruct (gameLoop_settled gameLoop now w Hloop) as (_ & _ & Hk & _).
    exact Hk.
Qed.

Lemma roster_wf e ids : NoDup ids -> NoDup (roster [e] ids).
Proof.
  intros Hnd. destruct e as [id|id data|id raw|id|now]; simpl; auto.
  - destruct (existsb (String.eqb id) ids) eqn:E; [exact Hnd|].
    apply NoDup_app; [exact Hnd|repeat constructor; auto|].
    intros k Hin [<-|[]].
    assert (existsb (String.eqb id) ids = true); [|congruence].
    apply existsb_exists. exists id. split; [exact Hin|apply String.eqb_refl].
  - induction Hnd as [|k l Hnotin Hnd IH]; simpl; [constructor|].
    destruct (string_dec id k); [exact IH|].
    constructor; [|exact IH].
    intros Hin. apply in_remove in Hin. tauto.
Qed.

Lemma roster_cons e es ids : roster (e :: es) ids = roster es (roster [e] ids).
Proof. destruct e; reflexivity. Qed.

Lemma run_roster gameLoop es w w' :
  gameLoop = ServerJs.gameLoop \/ gameLoop = AntiLag.gameLoop ->
  Obj.wf (players w) ->
  run gameLoop es w = Normal w' ->
  Obj.keys (players w') = roster es (Obj.keys (players w)) /\
  Obj.wf (players w').
Proof.
  intros Hloop. revert w. induction es as [|e es IH]; intros w Hwf; simpl run.
  - intros E. injection E as <-. auto.
  - destruct (step gameLoop e w) as [w1|] eqn:Hs; [|discriminate].
    intros Hrun. pose proof (step_roster _ _ _ _ Hloop Hwf Hs) as Hk.
    assert (Hwf1 : Obj.wf (players w1)).
    { unfold Obj.wf. rewrite Hk. now apply roster_wf. }
    destruct (IH w1 Hwf1 Hrun) as [Hk' Hwf'].
    split; [|exact Hwf']. now rewrite roster_cons, <- Hk.
Qed.

(** X12.  After any run of either server from startup, the players are
    exactly the sockets that have joined and not left since, each once,
    in the order in which they joined: moves, renames and ticks change
    neither the set of ids nor their order. *)
Theorem players_are_the_connected_sockets
    (gameLoop : number -> World -> World) (es : list Event) (w : World) :
  gameLoop = ServerJs.gameLoop \/ gameLoop = AntiLag.gameLoop ->
  run gameLoop es boot = Normal w ->
  Obj.keys (players w) = roster es [] /\ NoDup (Obj.keys (players w)).
Proof.
  intros Hloop Hrun.
  destruct boot_frame as (Hp & _).
  assert (Hwf : Obj.wf (players boot)) by (unfold Obj.wf; rewrite Hp; constructor).
  destruct (run_roster gameLoop es boot w Hloop Hwf Hrun) as [Hk Hwf'].
  split; [|exact Hwf']. rewrite Hk, Hp. reflexivity.
Qed.

End Roster.

(** ** What the server sends *)

(** A property of lists of messages that holds of the empty list and is
    kept by concatenation holds of what a whole loop emits, when it holds
    of what each turn of the loop emits. *)
Lemma fold_left_outbox {X : Type} (P : list Emit -> Prop)
    (f : World -> X -> World) (l : list X) :
  P [] ->
  (forall a b, P a -> P b -> P (a ++ b)) ->
  (forall w x, exists n, outbox (f w x) = outbox w ++ n /\ P n) ->
  forall w, exists n, outbox (fold_left f l w) = outbox w ++ n /\ P n.
Proof.
  intros H0 Happ Hf. induction l as [|x l IH]; intros w; simpl.
  - exists []. split; [now rewrite app_nil_r|exact H0].
  - destruct (Hf w x) as (n1 & Ho1 & Hn1).
    destruct (IH (f w x)) as (n2 & Ho2 & Hn2).
    exists (n1 ++ n2). split; [now rewrite Ho2, Ho1, app_assoc|auto].
Qed.

Lemma filter_length_app {X : Type} (f : X -> bool) (a b : list X) :
  List.length (filter f (a ++ b)) =
  (List.length (filter f a) + List.length (filter f b))%nat.
Proof. now rewrite filter_app, length_app. Qed.

Section Messages.

Context {rt : Runtime} {en : Entropy}.

(** The kill pass emits kill notifications only, as many [youAtePlayer]
    as [youDied]. *)
Lemma killPhase_outbox w :
  exists notes,
    outbox (killPhase w) = outbox w ++ notes /\
    (forallb is_kill_note notes = true /\
     List.length (filter is_youAtePlayer notes) =
       List.length (filter is_youDied notes)).
Proof.
  assert (H0 : forallb is_kill_note [] = true /\
               List.length (filter is_youAtePlayer (@nil Emit)) =
                 List.length (filter is_youDied (@nil Emit))) by (split; reflexivity).
  assert (Happ : forall a b : list Emit,
             forallb is_kill_note a = true /\
             List.length (filter is_youAtePlayer a) =
               List.length (filter is_youDied a) ->
             forallb is_kill_note b = true /\
             List.length (filter is_youAtePlayer b) =
               List.length (filter is_youDied b) ->
             forallb is_kill_note (a ++ b) = true /\
             List.length (filter is_youAtePlayer (a ++ b)) =
               List.length (filter is_youDied (a ++ b))).
  { intros a b [Ha1 Ha2] [Hb1 Hb2].
    rewrite forallb_app, Ha1, Hb1, !filter_length_app. split; [reflexivity|lia]. }
  unfold killPhase. apply fold_left_outbox; [exact H0|exact Happ|].
  intros w' i. unfold innerLoop.
  apply fold_left_outbox; [exact H0|exact Happ|].
  intros w'' j.
  destruct (pairBody_cases (nth i (Obj.keys (players w)) ""%string)
              (nth j (Obj.keys (players w)) ""%string) w'')
    as [->|(e & p & eater & prey & _ & _ & _ & ->)].
  - exists []. split; [now rewrite app_nil_r|exact H0].
  - destruct (kill_frame e p eater prey w'') as (_ & _ & _ & Ho).
    exists (killNotes e p prey). split; [exact Ho|]. split; reflexivity.
Qed.

Lemma kill_notes_tally notes :
  forallb is_kill_note notes = true ->
  forallb addressed notes = true /\
  filter is_state notes = [] /\
  filter is_init notes = [].
Proof.
  induction notes as [|e notes IH]; simpl; [auto|].
  intros H. apply andb_prop in H. destruct H as [He Hn].
  destruct (IH Hn) as (Ha & Hs & Hi).
  destruct e as [id [| | |]|[| | |]]; simpl in *; try discriminate; auto.
Qed.

(** What one tick of either server sends: kill notifications, as many of
    each kind, then one [state]. *)
Lemma gameLoop_outbox gameLoop now w :
  gameLoop = ServerJs.gameLoop \/ gameLoop = AntiLag.gameLoop ->
  exists notes ps pl,
    outbox (gameLoop now w) = outbox w ++ notes ++ [all (state ps pl)] /\
    forallb is_kill_note notes = true /\
    List.length (filter is_youAtePlayer notes) =
      List.length (filter is_youDied notes).
Proof.
  intros Hloop.
  destruct (killPhase_outbox (pelletPhase w)) as (notes & Ho & Hn & Hb).
  destruct (pelletPhase_frame w) as (_ & _ & Ho').
  destruct (regrowPhase_frame now (killPhase (pelletPhase w))) as (_ & _ & Ho'').
  exists notes.
  destruct Hloop as [-> | ->].
  - eexists. eexists. split; [|split; [exact Hn|exact Hb]].
    unfold ServerJs.gameLoop, ServerJs.broadcast. cbn [outbox emit].
    rewrite Ho'', Ho, Ho', <- app_assoc. reflexivity.
  - eexists. eexists. split; [|split; [exact Hn|exact Hb]].
    unfold AntiLag.gameLoop, AntiLag.broadcast.
    rewrite phases_with_tick. cbn [outbox emit with_tick].
    rewrite Ho'', Ho, Ho', <- app_assoc. reflexivity.
Qed.

(** X13.  Along any run of either server nothing already sent is taken
    back, and what is sent is: one [state] per tick, to all sockets; one
    [init] per join, to the joining socket and with the size of the map;
    and kill notifications, each to one socket, as many [youAtePlayer] as
    [youDied].  Moves, renames and leaves send nothing. *)
Theorem messages_of_a_run (gameLoop : number -> World -> World)
    (es : list Event) (w w' : World) :
  gameLoop = ServerJs.gameLoop \/ gameLoop = AntiLag.gameLoop ->
  run gameLoop es w = Normal w' ->
  exists sent,
    outbox w' = outbox w ++ sent /\
    forallb addressed sent = true /\
    List.length (filter is_state sent) = count_ticks es /\
    List.length (filter is_init sent) = count_connects es /\
    List.length (filter is_youAtePlayer sent) =
      List.length (filter is_youDied sent) /\
    (count_ticks es = 0%nat -> count_connects es = 0%nat -> sent = []).
Proof.
  intros Hloop. revert w. induction es as [|e es IH]; intros w; simpl run.
  - intros E. injection E as <-. exists []. rewrite app_nil_r. repeat split.
  - destruct (step gameLoop e w) as [w1|] eqn:Hs; [|discriminate].
    intros Hrun. destruct (IH w1 Hrun) as (sent & Ho & Ha & Hst & Hin & Hb & He).
    assert (Hstep :
              exists s1,
                outbox w1 = outbox w ++ s1 /\
                forallb addressed s1 = true /\
                List.length (filter is_state s1) = count_ticks [e] /\
                List.length (filter is_init s1) = count_connects [e] /\
                List.length (filter is_youAtePlayer s1) =
                  List.length (filter is_youDied s1) /\
                (count_ticks [e] = 0%nat -> count_connects [e] = 0%nat ->
                 s1 = [])).
    { clear - Hs Hloop. destruct e as [id|id data|id raw|id|now]; simpl in Hs.
      - injection Hs as <-. eexists. split.
        + unfold onConnection. rewrite randomPosition_eq.
          cbn [randomColor Math_random outbox with_players emit]. reflexivity.
        + cbn. rewrite String.eqb_refl. repeat split. discriminate.
      - exists []. rewrite app_nil_r. split; [|repeat split].
        unfold onMove in Hs. destruct (Obj.get (players w) id);
          [|now injection Hs as <-].
        destruct data; [|discriminate]. now injection Hs as <-.
      - exists []. rewrite app_nil_r. split; [|repeat split].
        injection Hs as <-. unfold onSetName.
        now destruct (Obj.get (players w) id).
      - exists []. rewrite app_nil_r. split; [|repeat split].
        now injection Hs as <-.
      - injection Hs as <-.
        destruct (gameLoop_outbox gameLoop now w Hloop)
          as (notes & ps & pl & Ho & Hn & Hb).
        destruct (kill_notes_tally notes Hn) as (Ha & Hst & Hin).
        exists (notes ++ [all (state ps pl)]). split; [exact Ho|].
        rewrite forallb_app, !filter_length_app, Ha, Hst, Hin, Hb.
        cbn. repeat split; lia. }
    destruct Hstep as (s1 & Ho1 & Ha1 & Hst1 & Hin1 & Hb1 & He1).
    exists (s1 ++ sent). split; [now rewrite Ho, Ho1, app_assoc|].
    rewrite forallb_app, !filter_length_app, Ha, Ha1, Hst, Hst1, Hin, Hin1, Hb, Hb1.
    unfold count_ticks, count_connects in *.
    destruct e; cbn [filter List.length Nat.add] in *;
      repeat split; try lia; intros H1 H2; try discriminate;
      rewrite He1, He by (auto; lia); reflexivity.
Qed.

End Messages.

(** ** Commands that follow one another *)

Section Commands.

Context {rt : Runtime} {en : Entropy}.

(** A command changes the record of its socket, when there is one, and
    nothing else. *)
Lemma command_step gameLoop e id kind w :
  command_of e = Some (id, kind) ->
  match Obj.get (players w) id with
  | None => step gameLoop e w = Normal w
  | Some p =>
      step gameLoop e w = Throw \/
      exists p',
        step gameLoop e w =
          Normal (with_players (Obj.set (players w) id p') w) /\
        Player.score p' = Player.score p /\
        Player.radius p' = Player.radius p /\
        Player.color p' = Player.color p /\
        match kind with
        | Moves => Player.name p' = Player.name p
        | Renames => Player.x p' = Player.x p /\ Player.y p' = Player.y p
        end
  end.
Proof.
  destruct e as [id'|id' data|id' raw|id'|now]; simpl; try discriminate;
    intros E; injection E as <- <-.
  - unfold onMove. destruct (Obj.get (players w) id') as [p|]; [|reflexivity].
    destruct data as [d|]; [right|now left].
    eexists. split; [reflexivity|]. repeat split.
  - unfold onSetName. destruct (Obj.get (players w) id') as [p|]; [|reflexivity].
    right. eexists. split; [reflexivity|]. repeat split.
Qed.

(** X14.  Of two moves of one socket that follow one another only the
    second counts: the second move, applied after the first, gives what
    it gives when applied alone. *)
Theorem last_move_wins (socketId : string) (d1 d2 : option MoveData)
    (w w1 : World) :
  onMove socketId d1 w = Normal w1 ->
  onMove socketId d2 w1 = onMove socketId d2 w.
Proof.
  unfold onMove at 1.
  destruct (Obj.get (players w) socketId) as [p|] eqn:Hg;
    [|intros E; now injection E as <-].
  destruct d1 as [d1|]; [|discriminate].
  intros E. injection E as <-. unfold onMove.
  cbn [players with_players]. rewrite get_set_same, Hg.
  destruct d2 as [d2|]; [|reflexivity].
  cbn [Player.radius Player.score Player.color Player.name].
  unfold with_players. cbn [players pellets tick draws outbox].
  now rewrite set_set.
Qed.

(** X15.  A move and a rename, or two commands of two different sockets,
    that follow one another with nothing in between, leave the same world
    in either order (and throw in either order if one of them throws). *)
Theorem commands_commute (gameLoop : number -> World -> World)
    (e1 e2 : Event) (k1 k2 : string * CommandKind) (w : World) :
  command_of e1 = Some k1 ->
  command_of e2 = Some k2 ->
  k1 <> k2 ->
  run gameLoop [e1; e2] w = run gameLoop [e2; e1] w.
Proof.
  destruct k1 as [id1 kind1], k2 as [id2 kind2]. intros H1 H2 Hne.
  pose proof (command_step gameLoop e1 id1 kind1) as S1.
  pose proof (command_step gameLoop e2 id2 kind2) as S2.
  pose proof (S1 w H1) as S1w. pose proof (S2 w H2) as S2w.
  cbn [run].
  destruct (Obj.get (players w) id1) as [p1|] eqn:G1.
  - destruct (Obj.get (players w) id2) as [p2|] eqn:G2.
    + destruct (String.eqb id1 id2) eqn:E.
      * (* the same socket: one moves, the other renames *)
        apply String.eqb_eq in E. subst id2.
        assert (p2 = p1) by congruence. subst p2.
        destruct e1 as [|i1 d1|i1 r1| |]; try discriminate;
          destruct e2 as [|i2 d2|i2 r2| |]; try discriminate;
          simpl in H1, H2; injection H1 as -> <-; injection H2 as -> <-;
          try congruence; clear Hne S1 S2 S1w S2w.
        -- cbn [step]. unfold onMove, onSetName. rewrite G1.
           cbn [players with_players]. rewrite ?get_set_same.
           destruct d1 as [d1|]; [|reflexivity].
           cbn [players with_players]. rewrite ?get_set_same.
           cbn [Player.radius Player.score Player.color Player.name
                Player.x Player.y].
           unfold with_players. cbn [players pellets tick draws outbox].
           now rewrite !set_set.
        -- cbn [step]. unfold onMove, onSetName. rewrite G1.
           cbn [players with_players]. rewrite ?get_set_same.
           destruct d2 as [d2|]; [|reflexivity].
           cbn [players with_players]. rewrite ?get_set_same.
           cbn [Player.radius Player.score Player.color Player.name
                Player.x Player.y].
           unfold with_players. cbn [players pellets tick draws outbox].
           now rewrite !set_set.
      * apply String.eqb_neq in E. clear S1 S2 S1w S2w.
        destruct e1 as [|i1 d1|i1 r1| |]; try discriminate;
          destruct e2 as [|i2 d2|i2 r2| |]; try discriminate;
          simpl in H1, H2; injection H1 as -> <-; injection H2 as -> <-;
          cbn [step]; unfold onMove, onSetName; rewrite ?G1, ?G2;
          try (destruct d1 as [d1|]); try (destruct d2 as [d2|]);
          cbn [players with_players];
          rewrite ?get_set_other, ?G1, ?G2 by congruence;
          try reflexivity;
          unfold with_players; cbn [players pellets tick draws outbox];
          (erewrite set_set_comm;
           [reflexivity|congruence|eassumption|eassumption]).
    + rewrite S2w.
      destruct S1w as [T1|(q1 & N1 & _)]; [now rewrite T1|].
      rewrite N1.
      specialize (S2 (with_players (Obj.set (players w) id1 q1) w) H2).
      cbn [players with_players] in S2.
      assert (id1 <> id2) by (intros ->; congruence).
      rewrite get_set_other, G2 in S2 by assumption.
      now rewrite S2.
  - rewrite S1w.
    destruct (Obj.get (players w) id2) as [p2|] eqn:G2.
    + destruct S2w as [T2|(q2 & N2 & _)]; [now rewrite T2|].
      rewrite N2.
      specialize (S1 (with_players (Obj.set (players w) id2 q2) w) H1).
      cbn [players with_players] in S1.
      assert (id2 <> id1) by (intros ->; congruence).
      rewrite get_set_other, G1 in S1 by assumption.
      now rewrite S1.
    + now rewrite S2w, S1w.
Qed.

End Commands.

(** ** Invariants of the runs *)

Lemma run_invariant `{Runtime} `{Entropy} (P : World -> Prop)
    (gameLoop : number -> World -> World) :
  (forall e w w', P w -> step gameLoop e w = Normal w' -> P w') ->
  forall es w w', P w -> run gameLoop es w = Normal w' -> P w'.
Proof.
  intros Hstep. induction es as [|e es IH]; intros w w' Hw; simpl.
  - intros E. now injection E as <-.
  - destruct (step gameLoop e w) as [w1|] eqn:Hs; [|discriminate].
    apply IH. eapply Hstep; eauto.
Qed.

(** ** The pellet field *)

Section PelletField.

Context {rt : Runtime} {en : Entropy}.

Lemma pushInitialPellet_seq d n a w0 :
  draws w0 = (d + 2 * a)%nat ->
  let w' := fold_left pushInitialPellet (seq a n) w0 in
  pellets w' = pellets w0 ++ map (initialPellet d) (seq a n) /\
  draws w' = (d + 2 * (a + n))%nat /\
  players w' = players w0 /\ outbox w' = outbox w0 /\ tick w' = tick w0.
Proof.
  cbv zeta. revert a w0. induction n as [|n IH]; intros a w0 Hd.
  - simpl. rewrite app_nil_r. repeat split. lia.
  - cbn [seq fold_left map].
    destruct (IH (S a) (pushInitialPellet w0 a)) as (Hp & Hdr & Hpl & Ho & Ht).
    { unfold pushInitialPellet. rewrite randomPosition_eq.
      cbn [draws with_pellets]. lia. }
    rewrite Hp, Hdr, Hpl, Ho, Ht. unfold pushInitialPellet.
    rewrite randomPosition_eq.
    cbn [pellets players outbox tick with_pellets fst snd].
    rewrite <- app_assoc. unfold initialPellet at 2.
    rewrite Hd. replace (d + 2 * a + 1)%nat with (S (d + 2 * a)) by lia.
    repeat split. lia.
Qed.

Lemma generateInitialPellets_eq count w :
  let w' := generateInitialPellets count w in
  pellets w' = map (initialPellet (draws w)) (seq 0 count) /\
  draws w' = (draws w + 2 * count)%nat /\
  players w' = players w /\ outbox w' = outbox w /\ tick w' = tick w.
Proof.
  cbv zeta. unfold generateInitialPellets.
  destruct (pushInitialPellet_seq (draws w) count 0 (with_pellets [] w))
    as (Hp & Hd & Hpl & Ho & Ht); [simpl; lia|].
  rewrite Hp, Hd. repeat split; assumption.
Qed.

(** X16.  [generateInitialPellets(count)], for any [count] and whatever
    the pellets were: the pellets there were are dropped, and the array
    holds [count] pellets, the one at index [i] with id [i] and with the
    coordinates that the draws number [2 i] and [2 i + 1] of the call
    give; nothing else of the world changes.  For [count = 0] the array
    is empty. *)
Theorem generateInitialPellets_spec (count : nat) (w : World) :
  let w' := generateInitialPellets count w in
  pellets w' = map (initialPellet (draws w)) (seq 0 count) /\
  List.length (pellets w') = count /\
  draws w' = (draws w + 2 * count)%nat /\
  players w' = players w /\ outbox w' = outbox w /\ tick w' = tick w.
Proof.
  cbv zeta.
  destruct (generateInitialPellets_eq count w) as (Hp & Hd & Hpl & Ho & Ht).
  rewrite Hp, length_map, length_seq. repeat split; assumption.
Qed.

Hypothesis draws_in_unit : unit_draws en.

Lemma draws_on_map k1 k2 id :
  on_map
    (Pellet.mk id (Math_random_at k1 * (MAP_WIDTH - 0) + 0)
       (Math_random_at k2 * (MAP_HEIGHT - 0) + 0)) = true.
Proof.
  destruct (draws_in_unit k1) as [H1 H1'], (draws_in_unit k2) as [H2 H2'].
  destruct (map_coordinate_range _ H1 H1') as [[Hx0 Hx1] _].
  destruct (map_coordinate_range _ H2 H2') as [_ [Hy0 Hy1]].
  unfold on_map. cbn [Pellet.x Pellet.y]. now rewrite Hx0, Hx1, Hy0, Hy1.
Qed.

Lemma pelletPhase_pellets_in w p :
  In p (pellets (pelletPhase w)) -> In p (pellets w).
Proof.
  unfold pelletPhase, Obj.entries.
  pose proof (eatPellets_meals (players w) (pellets w)) as H.
  destruct (eatPellets (players w) (pellets w)) as [es ps].
  destruct H as (_ & HP & _). simpl. intros Hin.
  eapply Permutation_in; [symmetry; exact HP|].
  apply in_or_app. now left.
Qed.

Lemma phases_on_map now w :
  (forall p, In p (pellets w) -> on_map p = true) ->
  forall p, In p (pellets (regrowPhase now (killPhase (pelletPhase w)))) ->
            on_map p = true.
Proof.
  intros Hw p. rewrite regrowPhase_pellets.
  destruct (killPhase_older (pelletPhase w)) as (Hp & _). rewrite Hp.
  destruct (_ && _)%bool.
  - rewrite in_app_iff. intros [Hin|[<-|[]]].
    + apply Hw. now apply pelletPhase_pellets_in.
    + apply draws_on_map.
  - intros Hin. apply Hw. now apply pelletPhase_pellets_in.
Qed.

Lemma step_on_map gameLoop e w w' :
  gameLoop = ServerJs.gameLoop \/ gameLoop = AntiLag.gameLoop ->
  (forall p, In p (pellets w) -> on_map p = true) ->
  step gameLoop e w = Normal w' ->
  forall p, In p (pellets w') -> on_map p = true.
Proof.
  intros Hloop Hw Hs.
  destruct e as [id|id data|id raw|id|now];
    try (destruct (handlers_frame _ _ _ _ Hs ltac:(intros; discriminate))
           as [_ ->];
         exact Hw).
  simpl in Hs. injection Hs as <-. destruct Hloop as [-> | ->].
  - exact (phases_on_map now w Hw).
  - unfold AntiLag.gameLoop, AntiLag.broadcast. rewrite phases_with_tick.
    exact (phases_on_map now w Hw).
Qed.

Lemma boot_on_map p : In p (pellets boot) -> on_map p = true.
Proof.
  unfold boot.
  destruct (generateInitialPellets_eq MAX_PELLETS (mkWorld [] [] 0 0 []))
    as (Hp & _).
  rewrite Hp. generalize MAX_PELLETS. intros n Hin.
  apply in_map_iff in Hin. destruct Hin as (i & <- & _).
  apply draws_on_map.
Qed.

End PelletField.

(** X17.  When every draw is in [[0, 1)], every pellet of every state
    either server can reach lies on the map: its coordinates are in
    [[0, MAP_WIDTH) x [0, MAP_HEIGHT)], for the initial pellets and for
    those that regrow. *)
Theorem reachable_pellets_on_map {rt : Runtime} {en : Entropy}
    (gameLoop : number -> World -> World) (w : World) (p : Pellet.t) :
  unit_draws en ->
  gameLoop = ServerJs.gameLoop \/ gameLoop = AntiLag.gameLoop ->
  reachable gameLoop w ->
  In p (pellets w) ->
  on_map p = true.
Proof.
  intros Hu Hloop [es Hrun]. revert p.
  apply (run_invariant (fun w => forall p, In p (pellets w) -> on_map p = true)
           gameLoop) with (es := es) (w := boot); [| |exact Hrun].
  - intros e w0 w1 Hw0 Hs. now apply (step_on_map Hu gameLoop e w0 w1).
  - intros p. now apply boot_on_map.
Qed.

(** ** Names and colours *)

Lemma sanitizeName_length rawName :
  (1 <= String.length (sanitizeName rawName) <= 20)%nat.
Proof.
  destruct rawName as [| |b|n|s]; try (simpl; lia).
  unfold sanitizeName.
  destruct (String.length (trim s) =? 0)%nat eqn:E0; [simpl; lia|].
  apply Nat.eqb_neq in E0.
  destruct (20 <? String.length (trim s))%nat eqn:E20.
  - apply Nat.ltb_lt in E20. rewrite substring_0_length. lia.
  - apply Nat.ltb_ge in E20. lia.
Qed.

(** The colour read at the floor of five times a draw. *)
Lemma palette_index r :
  (0 <=? r) = true -> (r <? 1) = true ->
  exists c,
    In c colors /\
    array_get colors (Math_floor (r * of_nat (List.length colors))) = Some c.
Proof.
  intros H0 H1. change (of_nat (List.length colors)) with 5.
  destruct (floor_index colors (r * 5)) as (k & Hk & ->).
  { destruct (scaled_draw_product _ 5 5629499534213120 (-50)
                eq_refl ltac:(lia) ltac:(lia) H0 H1)
      as [Hz|(mf & ef & Hv & Hb)]; [now left|right].
    exists mf, ef. split; [exact Hv|].
    change (5 * 2 ^ 50)%Z with (Zpos 5629499534213120). exact Hb. }
  destruct (nth_error colors k) as [c|] eqn:E.
  - exists c. split; [eapply nth_error_In; exact E|reflexivity].
  - apply nth_error_None in E. simpl in E. lia.
Qed.

Section Presentable.

Context {rt : Runtime} {en : Entropy}.

Hypothesis draws_in_unit : unit_draws en.

Lemma presentable_same p p' :
  Player.name p' = Player.name p -> Player.color p' = Player.color p ->
  presentable p -> presentable p'.
Proof. unfold presentable. intros -> ->. auto. Qed.

Lemma presentable_set w id p :
  (forall id' p', In (id', p') (players w) -> presentable p') ->
  presentable p ->
  forall id' p', In (id', p') (Obj.set (players w) id p) -> presentable p'.
Proof.
  intros Hw Hp id' p' Hin.
  destruct (in_set _ _ _ _ Hin) as [E|Hin']; [|eauto].
  injection E as -> ->. exact Hp.
Qed.

Lemma pelletPhase_presentable w :
  (forall id p, In (id, p) (players w) -> presentable p) ->
  forall id p, In (id, p) (players (pelletPhase w)) -> presentable p.
Proof.
  intros Hw id p' Hin. rewrite pelletPhase_players in Hin.
  apply in_map_iff in Hin. destruct Hin as ([[id0 p0] meal] & E & Hin).
  simpl in E. injection E as <- <-.
  apply in_combine_l in Hin.
  destruct (grown_fields (List.length meal) p0) as (_ & _ & Hc & Hn).
  eapply presentable_same; eauto.
Qed.

Lemma pairBody_presentable idi idj w :
  (forall id p, In (id, p) (players w) -> presentable p) ->
  forall id p, In (id, p) (players (pairBody idi idj w)) -> presentable p.
Proof.
  intros Hw.
  destruct (pairBody_cases idi idj w)
    as [->|(e & p & eater & prey & _ & He & Hp & ->)]; [exact Hw|].
  apply get_some_in in He, Hp. apply Hw in He, Hp.
  intros id p' Hin. rewrite kill_players in Hin.
  destruct (in_set _ _ _ _ Hin) as [E|Hin1].
  - injection E as -> ->. now apply (presentable_same prey).
  - destruct (in_set _ _ _ _ Hin1) as [E|Hin2]; [|eauto].
    injection E as -> ->. now apply (presentable_same eater).
Qed.

Lemma phases_presentable now w :
  (forall id p, In (id, p) (players w) -> presentable p) ->
  forall id p,
    In (id, p) (players (regrowPhase now (killPhase (pelletPhase w)))) ->
    presentable p.
Proof.
  intros Hw.
  destruct (regrowPhase_frame now (killPhase (pelletPhase w))) as (-> & _).
  unfold killPhase.
  apply (fold_left_inv
           (fun w => forall id p, In (id, p) (players w) -> presentable p)).
  - intros w' i. unfold innerLoop.
    apply (fold_left_inv
             (fun w => forall id p, In (id, p) (players w) -> presentable p)).
    intros w'' j. apply pairBody_presentable.
  - now apply pelletPhase_presentable.
Qed.

Lemma step_presentable gameLoop e w w' :
  gameLoop = ServerJs.gameLoop \/ gameLoop = AntiLag.gameLoop ->
  (forall id p, In (id, p) (players w) -> presentable p) ->
  step gameLoop e w = Normal w' ->
  forall id p, In (id, p) (players w') -> presentable p.
Proof.
  intros Hloop Hw. destruct e as [id|id data|id raw|id|now]; simpl.
  - intros E. injection E as <-. unfold onConnection.
    rewrite randomPosition_eq.
    cbn [randomColor Math_random players with_players emit fst snd draws].
    apply presentable_set; [exact Hw|]. split; [simpl; lia|].
    destruct (draws_in_unit (S (S (draws w)))) as [H0 H1].
    exact (palette_index _ H0 H1).
  - unfold onMove. destruct (Obj.get (players w) id) as [p|] eqn:Hg;
      [|intros E; now injection E as <-].
    destruct data; [|discriminate]. intros E. injection E as <-.
    apply presentable_set; [exact Hw|].
    apply get_some_in in Hg. apply Hw in Hg.
    now apply (presentable_same p).
  - intros E. injection E as <-. unfold onSetName.
    destruct (Obj.get (players w) id) as [p|] eqn:Hg; [|exact Hw].
    apply presentable_set; [exact Hw|].
    apply get_some_in in Hg. apply Hw in Hg.
    split; [apply sanitizeName_length|apply Hg].
  - intros E. injection E as <-. simpl. intros id' p' Hin.
    apply in_delete in Hin. eauto.
  - intros E. injection E as <-. destruct Hloop as [-> | ->].
    + exact (phases_presentable now w Hw).
    + unfold AntiLag.gameLoop, AntiLag.broadcast. rewrite phases_with_tick.
      exact (phases_presentable now w Hw).
Qed.

End Presentable.

(** X18.  When every draw is in [[0, 1)], every player of every state
    either server can reach has a name of 1 to 20 characters and a colour
    of the palette: joining gives them, renaming keeps the bounds, and
    eating, being eaten and moving keep both. *)
Theorem reachable_players_presentable {rt : Runtime} {en : Entropy}
    (gameLoop : number -> World -> World) (w : World) (socketId : string)
    (p : Player.t) :
  unit_draws en ->
  gameLoop = ServerJs.gameLoop \/ gameLoop = AntiLag.gameLoop ->
  reachable gameLoop w ->
  Obj.get (players w) socketId = Some p ->
  presentable p.
Proof.
  intros Hu Hloop [es Hrun] Hg. apply get_some_in in Hg. revert socketId p Hg.
  apply (run_invariant
           (fun w => forall id p, In (id, p) (players w) -> presentable p)
           gameLoop) with (es := es) (w := boot); [| |exact Hrun].
  - intros e w0 w1 Hw0 Hs. now apply (step_presentable Hu gameLoop e w0 w1).
  - intros id p. destruct boot_frame as (-> & _). intros [].
Qed.

(** ** The distance of two positions *)

(** Rounding does not look at the sign. *)
Lemma binary_round_aux_opp s m e l :
  binary_round_aux prec emax (negb s) m e l =
  SFopp (binary_round_aux prec emax s m e l).
Proof.
  unfold binary_round_aux.
  destruct (shr_fexp prec emax m e l) as [mrs' e'].
  destruct (shr_fexp prec emax _ e' loc_Exact) as [mrs'' e''].
  destruct (shr_m mrs'') as [|p|p]; [reflexivity| |reflexivity].
  destruct (e'' <=? emax - prec)%Z; reflexivity.
Qed.

Lemma binary_round_opp s m e :
  binary_round prec emax (negb s) m e = SFopp (binary_round prec emax s m e).
Proof.
  unfold binary_round. destruct (shl_align m e _) as [mz ez].
  apply binary_round_aux_opp.
Qed.

(** A rounded value has the sign it was given, when it has one. *)
Lemma binary_round_aux_sign s m e l :
  let R := binary_round_aux prec emax s m e l in
  R = S754_nan \/ R = S754_zero s \/ R = S754_infinity s \/
  exists m' e', R = S754_finite s m' e'.
Proof.
  cbv zeta. unfold binary_round_aux.
  destruct (shr_fexp prec emax m e l) as [mrs' e'].
  destruct (shr_fexp prec emax _ e' loc_Exact) as [mrs'' e''].
  destruct (shr_m mrs'') as [|p|p]; [auto| |auto].
  destruct (e'' <=? emax - prec)%Z; [|auto].
  right. right. right. eauto.
Qed.

(** [y - x] is the opposite of [x - y], but for the zero that the
    difference of two equal Numbers is. *)
Lemma SFsub_swap x y :
  SFsub prec emax y x = SFopp (SFsub prec emax x y) \/
  (SFsub prec emax x y = S754_zero false /\
   SFsub prec emax y x = S754_zero false).
Proof.
  destruct x as [sx|sx| |sx mx ex], y as [sy|sy| |sy my ey];
    try (destruct sx, sy; simpl; auto; fail);
    try (destruct sx; simpl; auto; fail);
    try (destruct sy; simpl; auto; fail);
    try (simpl; auto; fail).
  unfold SFsub. rewrite (Z.min_comm ey ex).
  set (ez := Z.min ex ey).
  set (a := cond_Zopp sx (Zpos (fst (shl_align mx ex ez)))).
  set (b := cond_Zopp sy (Zpos (fst (shl_align my ey ez)))).
  replace (b - a)%Z with (- (a - b))%Z by lia.
  destruct (a - b)%Z as [|p|p]; simpl.
  - now right.
  - left. exact (binary_round_opp false p ez).
  - left.
    change (binary_round prec emax true p ez)
      with (binary_round prec emax (negb false) p ez).
    rewrite binary_round_opp.
    now destruct (binary_round prec emax false p ez) as [[]|[]| |[] ? ?].
Qed.

Lemma SFmul_opp_opp d :
  SFmul prec emax (SFopp d) (SFopp d) = SFmul prec emax d d.
Proof. destruct d as [s|s| |s m e]; try destruct s; reflexivity. Qed.

(** The square of a difference does not depend on the order of its
    terms. *)
Lemma square_of_difference (x y : number) :
  (y - x) * (y - x) = (x - y) * (x - y).
Proof.
  apply Prim2SF_inj. rewrite !mul_spec, !sub_spec. unfold SF64mul, SF64sub.
  destruct (SFsub_swap (Prim2SF x) (Prim2SF y)) as [->|[-> ->]];
    [apply SFmul_opp_opp|reflexivity].
Qed.

(** [Math.sqrt] returns nothing below zero. *)
Lemma sqrt_not_negative (v : number) : (Math_sqrt v <? 0) = false.
Proof.
  unfold Math_sqrt. rewrite ltb_spec, sqrt_spec.
  change (Prim2SF 0) with (S754_zero false).
  unfold SF64sqrt, SFsqrt.
  destruct (Prim2SF v) as [s|s| |s m e]; try reflexivity.
  - destruct s; reflexivity.
  - destruct s; [reflexivity|].
    destruct (SFsqrt_core_binary prec emax (Zpos m) e) as [[mz ez] lz].
    destruct (binary_round_aux_sign false mz ez lz)
      as [->|[->|[->|(m' & e' & ->)]]]; reflexivity.
Qed.

(** A Number that is neither NaN nor an infinity, less itself, is +0. *)
Lemma finite_minus_itself (x : number) :
  is_finite x = true -> x - x = 0.
Proof.
  unfold is_finite, is_infinity. intros H.
  apply Bool.negb_true_iff, Bool.orb_false_iff in H. destruct H as [Hn Hi].
  apply not_nan_spec in Hn.
  rewrite eqb_spec, abs_spec in Hi.
  apply Prim2SF_inj. rewrite sub_spec. unfold SF64sub.
  change (Prim2SF 0) with (S754_zero false).
  destruct (Prim2SF x) as [s|s| |s m e].
  - destruct s; reflexivity.
  - discriminate.
  - contradiction.
  - unfold SFsub. rewrite Z.min_id. unfold shl_align.
    rewrite !Z.sub_diag. reflexivity.
Qed.

(** X19.  [distance] does not depend on the order of its arguments, is
    never below zero, and is +0 from a position with finite coordinates
    to itself. *)
Theorem distance_spec {A B : Type} `{Positioned A} `{Positioned B}
    (a : A) (b : B) :
  distance a b = distance b a /\
  (distance a b <? 0) = false /\
  (is_finite (pos_x a) = true -> is_finite (pos_y a) = true ->
   distance a a = 0).
Proof.
  unfold distance. split; [|split].
  - now rewrite (square_of_difference (pos_x a) (pos_x b)),
      (square_of_difference (pos_y a) (pos_y b)).
  - apply sqrt_not_negative.
  - intros Hx Hy. rewrite (finite_minus_itself _ Hx), (finite_minus_itself _ Hy).
    reflexivity.
Qed.

(** ** White space around a name *)

Lemma trimStart_first s c :
  first_char (trimStart s) = Some c -> is_space c = false.
Proof.
  induction s as [|c' s IH]; simpl; [discriminate|].
  destruct (is_space c') eqn:E; [exact IH|].
  simpl. intros H. now injection H as <-.
Qed.

Lemma trimEnd_first s c :
  first_char (trimEnd s) = Some c -> first_char s = Some c.
Proof.
  destruct s as [|c' s]; simpl; [discriminate|].
  destruct (trimEnd s); [|auto].
  destruct (is_space c'); [discriminate|auto].
Qed.

Lemma trimEnd_last s c :
  last_char (trimEnd s) = Some c -> is_space c = false.
Proof.
  induction s as [|c' s IH]; simpl; [discriminate|].
  destruct (trimEnd s) as [|c'' t].
  - destruct (is_space c') eqn:E; [discriminate|].
    simpl. intros H. now injection H as <-.
  - exact IH.
Qed.

Lemma substring_first n s :
  first_char (substring 0 (S n) s) = first_char s.
Proof. now destruct s. Qed.

(** X20.  The name [sanitizeName] returns never starts with white space.
    It ends with white space only when it is a cut: the raw value is a
    string that is longer than 20 characters once trimmed, and its 20th
    character after the leading white space is white space.  There are
    such strings: the cut is made after the trimming, not before. *)
Theorem sanitizeName_white_space (rawName : value) :
  let name := sanitizeName rawName in
  (forall c, first_char name = Some c -> is_space c = false) /\
  (forall c, last_char name = Some c -> is_space c = true ->
             exists s, rawName = String s /\
                       (20 < String.length (trim s))%nat /\
                       name = substring 0 20 (trim s)) /\
  (exists s c, last_char (sanitizeName (String s)) = Some c /\
               is_space c = true).
Proof.
  cbv zeta. split; [|split].
  - intros c. destruct rawName as [| |b|n|s];
      try (simpl; intros H; injection H as <-; reflexivity).
    unfold sanitizeName.
    destruct (String.length (trim s) =? 0)%nat;
      [simpl; intros H; injection H as <-; reflexivity|].
    destruct (20 <? String.length (trim s))%nat.
    + rewrite substring_first. unfold trim. intros H.
      apply trimEnd_first in H. now apply trimStart_first in H.
    + unfold trim. intros H.
      apply trimEnd_first in H. now apply trimStart_first in H.
  - intros c. destruct rawName as [| |b|n|s];
      try (simpl; intros H; injection H as <-; discriminate).
    unfold sanitizeName.
    destruct (String.length (trim s) =? 0)%nat;
      [simpl; intros H; injection H as <-; discriminate|].
    destruct (20 <? String.length (trim s))%nat eqn:E.
    + apply Nat.ltb_lt in E. intros _ _. exists s. auto.
    + unfold trim. intros H Hs. apply trimEnd_last in H. congruence.
  - exists "aaaaaaaaaaaaaaaaaaa b"%string, " "%char. split; reflexivity.
Qed.

(** ** Scores count *)

Lemma pow2_divide a b : (0 <= a <= b)%Z -> (2 ^ a | 2 ^ b)%Z.
Proof.
  intros H. exists (2 ^ (b - a))%Z. rewrite <- Z.pow_add_r by lia.
  f_equal. lia.
Qed.

Lemma integral_shift m e d :
  (0 <= d)%Z -> integral m e -> integral (m * 2 ^ d) (e - d).
Proof.
  intros Hd [He|[k Hk]].
  - destruct (Z_le_gt_dec 0 (e - d)) as [H|H]; [now left|right].
    apply Z.divide_mul_r. apply pow2_divide. lia.
  - destruct (Z_le_gt_dec 0 e) as [H|H].
    + destruct (Z_le_gt_dec 0 (e - d)) as [H'|H']; [now left|right].
      apply Z.divide_mul_r. apply pow2_divide. lia.
    + right. exists k. rewrite Hk, <- Z.mul_assoc, <- Z.pow_add_r by lia.
      do 2 f_equal. lia.
Qed.

Lemma integral_add a b e : integral a e -> integral b e -> integral (a + b) e.
Proof.
  intros [Ha|Ha] [Hb|Hb]; try (now left). right. now apply Z.divide_add_r.
Qed.

(** Aligning a mantissa on a smaller exponent keeps the value. *)
Lemma shl_align_integral M E e' :
  integral (Zpos M) E ->
  let '(mz, ez) := shl_align M E e' in
  integral (Zpos mz) ez /\ ((e' <= E)%Z -> ez = e').
Proof.
  intros HI. unfold shl_align.
  destruct (e' - E)%Z as [|d|d] eqn:Hd.
  - split; [exact HI|lia].
  - split; [exact HI|lia].
  - split; [|reflexivity].
    change (Pos.iter xO M d) with (shift_pos d M).
    rewrite shift_pos_correct, Z.mul_comm, Z.pow_pos_fold.
    replace e' with (E - Zpos d)%Z by lia.
    apply integral_shift; [lia|exact HI].
Qed.

(** What a positive [M * 2 ^ E] rounds to: zero (by underflow),
    [Infinity], or a positive Number, an integer if [M * 2 ^ E] is one. *)
Lemma round_aux_result (M : positive) (E : Z) :
  let R := binary_round_aux prec emax false (Zpos M) E loc_Exact in
  R = S754_zero false \/ R = S754_infinity false \/
  exists m e,
    R = S754_finite false m e /\
    (integral (Zpos M) E -> integral (Zpos m) e).
Proof.
  cbv zeta. unfold binary_round_aux.
  destruct (first_stage M E) as (mrs' & e' & -> & Hno & Hsh).
  cbv zeta in Hno, Hsh.
  set (e1 := Z.max (Zpos (digits2_pos M) + E - 53) (-1074)) in *.
  set (m1 := round_nearest_even (shr_m mrs') (loc_of_shr_record mrs')) in *.
  pose proof (digits2_pos_bounds M) as [Hdlo Hdhi].
  assert (Hstage :
            (0 <= m1 <= 2 ^ 53)%Z /\ (-1074 <= e')%Z /\
            (integral (Zpos M) E -> integral m1 e')).
  { destruct (Z_le_gt_dec e1 E) as [Hle|Hgt].
    - destruct (Hno Hle) as [-> ->].
      assert (Zpos (digits2_pos M) <= 53)%Z by (unfold e1 in Hle; lia).
      assert (2 ^ Zpos (digits2_pos M) <= 2 ^ 53)%Z
        by (apply Z.pow_le_mono_r; lia).
      split; [lia|]. split; [unfold e1 in Hle; lia|auto].
    - destruct (Hsh ltac:(lia)) as [-> Hm1].
      set (n := (e1 - E)%Z) in *.
      assert (Hn : (0 < n)%Z) by (unfold n; lia).
      assert (Hpn : (0 < 2 ^ n)%Z) by (apply Z.pow_pos_nonneg; lia).
      assert (Hq0 : (0 <= Zpos M / 2 ^ n)%Z) by (apply Z.div_pos; lia).
      assert (Hq53 : (Zpos M / 2 ^ n < 2 ^ 53)%Z).
      { apply Z.div_lt_upper_bound; [lia|].
        rewrite <- Z.pow_add_r by lia.
        assert (2 ^ Zpos (digits2_pos M) <= 2 ^ (n + 53))%Z
          by (apply Z.pow_le_mono_r; unfold n, e1; lia).
        lia. }
      split; [destruct Hm1 as [->|[-> _]]; lia|].
      split; [unfold e1; lia|].
      intros [H0|[k Hk]]; [left; lia|].
      destruct (Z_le_gt_dec 0 e1) as [H1|H1]; [now left|right].
      assert (Hsplit : (2 ^ (- E) = 2 ^ (- e1) * 2 ^ n)%Z).
      { rewrite <- Z.pow_add_r by lia. f_equal. unfold n. lia. }
      assert (HM : Zpos M = (k * 2 ^ (- e1) * 2 ^ n)%Z)
        by (rewrite Hk, Hsplit; ring).
      destruct Hm1 as [->|[-> Hr]].
      + exists k. rewrite HM. apply Z.div_mul. lia.
      + exfalso. rewrite HM, Z.mod_mul in Hr by lia.
        assert (0 < 2 ^ (n - 1))%Z by (apply Z.pow_pos_nonneg; lia). lia. }
  destruct Hstage as (Hm1 & He' & Hint).
  destruct (second_stage m1 e' Hm1 He') as (mrs'' & e'' & -> & Hsame & Hcarry).
  destruct (Z.eq_dec m1 (2 ^ 53)) as [Hc|Hnc].
  - destruct (Hcarry Hc) as [-> ->].
    change (2 ^ 52)%Z with (Zpos (2 ^ 52)). cbv iota.
    destruct (e' + 1 <=? emax - prec)%Z; [|now (right; left)].
    right. right. exists (2 ^ 52)%positive, (e' + 1)%Z. split; [reflexivity|].
    intros HI. specialize (Hint HI). rewrite Hc in Hint.
    destruct Hint as [H|H]; [left; lia|].
    destruct (Z_le_gt_dec 0 (e' + 1)) as [H1|H1]; [now left|right].
    assert (- e' <= 53)%Z.
    { destruct (Z_le_gt_dec (- e') 53) as [H2|H2]; [exact H2|exfalso].
      apply Z.divide_pos_le in H; [|lia].
      assert (2 ^ 53 < 2 ^ (- e'))%Z by (apply Z.pow_lt_mono_r; lia). lia. }
    change (Zpos (2 ^ 52)) with (2 ^ 52)%Z. apply pow2_divide. lia.
  - destruct (Hsame ltac:(lia)) as [-> ->].
    destruct m1 as [|mf|mf]; [now left| |lia].
    destruct (e' <=? emax - prec)%Z; [|now (right; left)].
    right. right. exists mf, e'. split; [reflexivity|exact Hint].
Qed.

Lemma binary_round_counting M E :
  integral (Zpos M) E -> SFcounting (binary_round prec emax false M E).
Proof.
  intros HI. unfold binary_round.
  pose proof (shl_align_integral M E
                (fexp prec emax (Zpos (digits2_pos M) + E)) HI) as Ha.
  destruct (shl_align M E _) as [mz ez]. destruct Ha as [Ha _].
  destruct (round_aux_result mz ez) as [->|[->|(m & e & -> & H)]];
    simpl; auto.
Qed.

(** The sum of two Numbers that count counts. *)
Lemma SFadd_counting x y :
  SFcounting x -> SFcounting y -> SFcounting (SFadd prec emax x y).
Proof.
  destruct x as [sx|sx| |sx mx ex], y as [sy|sy| |sy my ey]; simpl;
    try tauto; try (destruct sx, sy; simpl; intuition congruence).
  intros [-> Hx] [-> Hy]. cbn [cond_Zopp].
  pose proof (shl_align_integral mx ex (Z.min ex ey) Hx) as Ha.
  pose proof (shl_align_integral my ey (Z.min ex ey) Hy) as Hb.
  destruct (shl_align mx ex (Z.min ex ey)) as [a ea].
  destruct (shl_align my ey (Z.min ex ey)) as [b eb].
  destruct Ha as [Ha Hea], Hb as [Hb Heb]. cbn [fst].
  rewrite Hea in Ha by lia. rewrite Heb in Hb by lia.
  change (Zpos a + Zpos b)%Z with (Zpos (a + b)). cbn [binary_normalize].
  apply binary_round_counting. rewrite Pos2Z.inj_add.
  now apply integral_add.
Qed.

Lemma counting_spec f : counting f <-> SFcounting (Prim2SF f).
Proof.
  unfold counting, to_integer. split.
  - intros [->|(z & Hz & Hz0)]; [reflexivity|].
    destruct (Prim2SF f) as [s|s| |s m e]; cbn [SFcounting];
      try discriminate; auto.
    destruct (0 <=? e)%Z eqn:He.
    + apply Z.leb_le in He.
      assert (Ez : z = cond_Zopp s (Zpos m * 2 ^ e)) by congruence.
      subst z. split; [|now left].
      destruct s; [|reflexivity]. cbn [cond_Zopp] in Hz0.
      assert (0 < 2 ^ e)%Z by (apply Z.pow_pos_nonneg; lia).
      assert (0 < Zpos m * 2 ^ e)%Z by (apply Z.mul_pos_pos; lia). lia.
    + apply Z.leb_gt in He.
      destruct (Zpos m mod 2 ^ (- e) =? 0)%Z eqn:Hm; [|discriminate].
      apply Z.eqb_eq in Hm.
      assert (Ez : z = cond_Zopp s (Zpos m / 2 ^ (- e))) by congruence.
      subst z.
      assert (Hp : (0 < 2 ^ (- e))%Z) by (apply Z.pow_pos_nonneg; lia).
      assert (Hd : (2 ^ (- e) | Zpos m)%Z) by (apply Z.mod_divide; lia).
      split; [|now right].
      destruct s; [|reflexivity]. cbn [cond_Zopp] in Hz0.
      destruct Hd as [k Hk].
      rewrite Hk, Z.div_mul in Hz0 by lia. nia.
  - destruct (Prim2SF f) as [s|s| |s m e] eqn:Hf; cbn [SFcounting];
      try contradiction.
    + intros _. right. exists 0%Z. split; [reflexivity|lia].
    + intros ->. left. apply Prim2SF_inj. rewrite Hf. reflexivity.
    + intros [-> HI]. right. cbn [cond_Zopp].
      destruct (0 <=? e)%Z eqn:He.
      * apply Z.leb_le in He. eexists. split; [reflexivity|].
        assert (0 < 2 ^ e)%Z by (apply Z.pow_pos_nonneg; lia).
        apply Z.mul_nonneg_nonneg; lia.
      * apply Z.leb_gt in He. destruct HI as [HI|Hd]; [lia|].
        assert (Hp : (0 < 2 ^ (- e))%Z) by (apply Z.pow_pos_nonneg; lia).
        apply Z.mod_divide in Hd; [|lia]. rewrite Hd, Z.eqb_refl.
        eexists. split; [reflexivity|]. apply Z.div_pos; lia.
Qed.

Lemma counting_add x y : counting x -> counting y -> counting (x + y).
Proof.
  rewrite !counting_spec, add_spec. apply SFadd_counting.
Qed.

(** An integer that fits 63 bits, as a Number. *)
Lemma of_Z_counting z : (0 <= z < 2 ^ 63)%Z -> counting (of_Z z).
Proof.
  intros Hz. apply counting_spec. unfold of_Z.
  assert (Hv : binary_normalize prec emax z 0 false =
               Prim2SF (of_uint63 (Uint63Axioms.of_Z z))).
  { rewrite of_uint63_spec, Stdlib.Numbers.Cyclic.Int63.Uint63.of_Z_spec.
    rewrite Z.mod_small; [reflexivity|exact Hz]. }
  rewrite Prim2SF_SF2Prim by (rewrite Hv; apply Prim2SF_valid).
  destruct z as [|p|p]; [exact I| |lia].
  apply binary_round_counting. left. lia.
Qed.

(** [Math.floor(score * 0.5)] of a score that counts counts. *)
Lemma floor_half_counting x : counting x -> counting (Math_floor (x * 0.5)).
Proof.
  rewrite (counting_spec x). intros Hx.
  pose proof (mul_spec x 0.5) as Hf.
  pose proof (Prim2SF_valid (x * 0.5)) as Hval.
  change (Prim2SF 0.5) with (S754_finite false 4503599627370496 (-53)) in Hf.
  unfold Math_floor.
  destruct (Prim2SF x) as [s|s| |s m e]; simpl in Hx; try contradiction.
  - simpl in Hf. rewrite Hf. apply counting_spec. now rewrite Hf.
  - subst s. simpl in Hf. rewrite Hf. apply counting_spec. now rewrite Hf.
  - destruct Hx as [-> _]. unfold SF64mul, SFmul in Hf. cbn [xorb] in Hf.
    destruct (round_aux_result (m * 4503599627370496) (e + -53))
      as [H|[H|(m' & e' & H & _)]]; rewrite H in Hf; rewrite Hf in *.
    + apply counting_spec. now rewrite Hf.
    + apply counting_spec. now rewrite Hf.
    + destruct (0 <=? e')%Z eqn:He.
      * apply Z.leb_le in He. apply counting_spec. rewrite Hf.
        split; [reflexivity|now left].
      * apply Z.leb_gt in He. cbn [cond_Zopp]. apply of_Z_counting.
        cbn [valid_binary] in Hval. unfold bounded, canonical_mantissa in Hval.
        apply andb_prop in Hval. destruct Hval as [Hc _].
        apply Z.eqb_eq in Hc. rewrite fexp_eq in Hc.
        pose proof (digits2_pos_bounds m') as [_ Hhi].
        assert (2 ^ Zpos (digits2_pos m') <= 2 ^ 53)%Z
          by (apply Z.pow_le_mono_r; lia).
        assert (Hp : (0 < 2 ^ (- e'))%Z) by (apply Z.pow_pos_nonneg; lia).
        split; [apply Z.div_pos; lia|].
        apply Z.div_lt_upper_bound; [lia|].
        assert (2 ^ 53 < 2 ^ 63)%Z by (apply Z.pow_lt_mono_r; lia). nia.
Qed.

Lemma counting_zero : counting 0.
Proof. right. exists 0%Z. split; [reflexivity|lia]. Qed.

Lemma counting_grown n p :
  counting (Player.score p) -> counting (Player.score (Nat.iter n grow p)).
Proof.
  intros Hp. induction n as [|n IH]; [exact Hp|].
  rewrite Nat.iter_succ. cbn [grow Player.score].
  apply counting_add; [exact IH|].
  right. exists 1%Z. split; [reflexivity|lia].
Qed.

Lemma score_inv_set w id p :
  score_inv w -> counting (Player.score p) ->
  score_inv (with_players (Obj.set (players w) id p) w).
Proof.
  intros Hw Hp id' p' Hin. simpl in Hin.
  destruct (in_set _ _ _ _ Hin) as [E|Hin']; [|eauto].
  injection E as -> ->. exact Hp.
Qed.

Section ScoreInvariant.

Context {rt : Runtime} {en : Entropy}.

Lemma pelletPhase_score_inv w : score_inv w -> score_inv (pelletPhase w).
Proof.
  intros Hw id p' Hin. rewrite pelletPhase_players in Hin.
  apply in_map_iff in Hin. destruct Hin as ([[id0 p0] meal] & E & Hin).
  simpl in E. injection E as <- <-.
  apply in_combine_l in Hin. apply counting_grown. eauto.
Qed.

Lemma pairBody_score_inv idi idj w :
  score_inv w -> score_inv (pairBody idi idj w).
Proof.
  intros Hw.
  destruct (pairBody_cases idi idj w)
    as [->|(e & p & eater & prey & _ & He & Hp & ->)]; [exact Hw|].
  apply get_some_in in He, Hp. apply Hw in He, Hp.
  intros id p' Hin. rewrite kill_players in Hin.
  destruct (in_set _ _ _ _ Hin) as [E|Hin1].
  - injection E as -> ->. exact counting_zero.
  - destruct (in_set _ _ _ _ Hin1) as [E|Hin2]; [|eauto].
    injection E as -> ->. cbn [Player.score].
    apply counting_add; [exact He|]. now apply floor_half_counting.
Qed.

Lemma phases_score_inv now w :
  score_inv w -> score_inv (regrowPhase now (killPhase (pelletPhase w))).
Proof.
  intros Hw. unfold score_inv.
  destruct (regrowPhase_frame now (killPhase (pelletPhase w))) as (-> & _).
  unfold killPhase. apply (fold_left_inv score_inv).
  - intros w' i. unfold innerLoop. apply (fold_left_inv score_inv).
    intros w'' j. apply pairBody_score_inv.
  - now apply pelletPhase_score_inv.
Qed.

Lemma step_score_inv gameLoop e w w' :
  gameLoop = ServerJs.gameLoop \/ gameLoop = AntiLag.gameLoop ->
  score_inv w -> step gameLoop e w = Normal w' -> score_inv w'.
Proof.
  intros Hloop Hw. destruct e as [id|id data|id raw|id|now]; simpl.
  - intros E. injection E as <-. unfold onConnection.
    rewrite randomPosition_eq.
    cbn [randomColor Math_random players with_players emit fst snd draws].
    intros id' p' Hin. simpl in Hin.
    destruct (in_set _ _ _ _ Hin) as [E|Hin']; [|eauto].
    injection E as -> ->. exact counting_zero.
  - unfold onMove. destruct (Obj.get (players w) id) as [p|] eqn:Hg;
      [|intros E; now injection E as <-].
    destruct data; [|discriminate]. intros E. injection E as <-.
    apply score_inv_set; [exact Hw|].
    apply get_some_in in Hg. exact (Hw _ _ Hg).
  - intros E. injection E as <-. unfold onSetName.
    destruct (Obj.get (players w) id) as [p|] eqn:Hg; [|exact Hw].
    apply score_inv_set; [exact Hw|].
    apply get_some_in in Hg. exact (Hw _ _ Hg).
  - intros E. injection E as <-. intros id' p' Hin. simpl in Hin.
    apply in_delete in Hin. eauto.
  - intros E. injection E as <-. destruct Hloop as [-> | ->].
    + exact (phases_score_inv now w Hw).
    + unfold AntiLag.gameLoop, AntiLag.broadcast. rewrite phases_with_tick.
      exact (phases_score_inv now w Hw).
Qed.

Lemma reachable_score_inv gameLoop w :
  gameLoop = ServerJs.gameLoop \/ gameLoop = AntiLag.gameLoop ->
  reachable gameLoop w -> score_inv w.
Proof.
  intros Hloop [es Hrun].
  apply (run_invariant score_inv gameLoop) with (es := es) (w := boot);
    [| |exact Hrun].
  - intros e w0 w1 Hw0 Hs. now apply (step_score_inv gameLoop e w0 w1).
  - intros id p. destruct boot_frame as (-> & _). intros [].
Qed.

(** X21.  In every state either server can reach the score of every
    player is a Number that counts: a non-negative integer or
    [Infinity], never NaN, never negative, never a fraction.  Joining and
    respawning give 0, a pellet adds 1, and a kill adds the floor of half
    the score of the prey. *)
Theorem reachable_scores_count (gameLoop : number -> World -> World)
    (w : World) (socketId : string) (p : Player.t) :
  gameLoop = ServerJs.gameLoop \/ gameLoop = AntiLag.gameLoop ->
  reachable gameLoop w ->
  Obj.get (players w) socketId = Some p ->
  counting (Player.score p).
Proof.
  intros Hloop Hreach Hg. apply get_some_in in Hg.
  exact (reachable_score_inv gameLoop w Hloop Hreach _ _ Hg).
Qed.

End ScoreInvariant.

(** ** No radius below the initial radius *)

Lemma shl_align_value m e e' :
  (e' <= e)%Z ->
  exists mz, shl_align m e e' = (mz, e') /\
             Zpos mz = (Zpos m * 2 ^ (e - e'))%Z.
Proof.
  intros He. unfold shl_align.
  destruct (e' - e)%Z as [|d|d] eqn:Hd; try lia.
  - exists m. replace e' with e by lia. rewrite Z.sub_diag, Z.mul_1_r. auto.
  - exists (Pos.iter xO m d). split; [reflexivity|].
    change (Pos.iter xO m d) with (shift_pos d m).
    rewrite shift_pos_correct, Z.mul_comm, Z.pow_pos_fold.
    f_equal. f_equal. lia.
Qed.

Lemma shl_align_ge m e e' : (e <= e')%Z -> shl_align m e e' = (m, e).
Proof.
  intros He. unfold shl_align.
  destruct (e' - e)%Z as [|d|d] eqn:Hd; try reflexivity. lia.
Qed.

(** Rounding is monotone at a normal Number [m0 * 2 ^ e0]: a value that
    is not below it does not round below it. *)
Lemma round_aux_lower (M : positive) (E : Z) (m0 : positive) (e0 : Z) :
  (2 ^ 52 <= Zpos m0)%Z -> (-1074 <= e0)%Z -> (E <= e0)%Z ->
  (Zpos m0 * 2 ^ (e0 - E) <= Zpos M)%Z ->
  let R := binary_round_aux prec emax false (Zpos M) E loc_Exact in
  R = S754_infinity false \/
  exists m e,
    R = S754_finite false m e /\
    (e0 < e \/ (e = e0 /\ Zpos m0 <= Zpos m))%Z.
Proof.
  intros Hm0 He0 HE HM. cbv zeta. unfold binary_round_aux.
  destruct (first_stage M E) as (mrs' & e' & -> & Hno & Hsh).
  cbv zeta in Hno, Hsh.
  set (e1 := Z.max (Zpos (digits2_pos M) + E - 53) (-1074)) in *.
  set (m1 := round_nearest_even (shr_m mrs') (loc_of_shr_record mrs')) in *.
  pose proof (digits2_pos_bounds M) as [Hdlo Hdhi].
  assert (Hp0 : (0 < 2 ^ (e0 - E))%Z) by (apply Z.pow_pos_nonneg; lia).
  assert (Hbig : (2 ^ (52 + (e0 - E)) <= Zpos M)%Z).
  { rewrite Z.pow_add_r by lia. nia. }
  assert (Hd : (52 + (e0 - E) < Zpos (digits2_pos M))%Z)
    by (apply digits2_pos_gt; lia).
  assert (He1 : e1 = (Zpos (digits2_pos M) + E - 53)%Z) by (unfold e1; lia).
  assert (Hstage :
            (2 ^ 52 <= m1 <= 2 ^ 53)%Z /\ (e0 <= e')%Z /\
            (e' = e0 -> Zpos m0 <= m1)%Z).
  { destruct (Z_le_gt_dec e1 E) as [Hle|Hgt].
    - destruct (Hno Hle) as [-> ->].
      assert (E = e0) by lia. subst E.
      rewrite Z.sub_diag, Z.mul_1_r in HM.
      assert (Zpos (digits2_pos M) <= 53)%Z by lia.
      assert (2 ^ Zpos (digits2_pos M) <= 2 ^ 53)%Z
        by (apply Z.pow_le_mono_r; lia).
      repeat split; lia.
    - destruct (Hsh ltac:(lia)) as [-> Hm1].
      set (n := (e1 - E)%Z) in *.
      assert (Hn : (0 < n)%Z) by (unfold n; lia).
      assert (Hpn : (0 < 2 ^ n)%Z) by (apply Z.pow_pos_nonneg; lia).
      assert (Hq53 : (Zpos M / 2 ^ n < 2 ^ 53)%Z).
      { apply Z.div_lt_upper_bound; [lia|].
        rewrite <- Z.pow_add_r by lia.
        assert (2 ^ Zpos (digits2_pos M) <= 2 ^ (n + 53))%Z
          by (apply Z.pow_le_mono_r; unfold n; lia).
        lia. }
      assert (Hq52 : (2 ^ 52 <= Zpos M / 2 ^ n)%Z).
      { apply Z.div_le_lower_bound; [lia|].
        rewrite <- Z.pow_add_r by lia.
        replace (n + 52)%Z with (Zpos (digits2_pos M) - 1)%Z
          by (unfold n; lia).
        exact Hdlo. }
      split; [destruct Hm1 as [->|[-> _]]; lia|].
      split; [lia|]. intros Heq.
      assert (Hn0 : n = (e0 - E)%Z) by (unfold n; lia).
      assert (Zpos m0 <= Zpos M / 2 ^ n)%Z.
      { apply Z.div_le_lower_bound; [lia|]. rewrite Hn0. lia. }
      destruct Hm1 as [->|[-> _]]; lia. }
  destruct Hstage as (Hm1 & He' & Hlow).
  destruct (second_stage m1 e' ltac:(lia) ltac:(lia))
    as (mrs'' & e'' & -> & Hsame & Hcarry).
  destruct (Z.eq_dec m1 (2 ^ 53)) as [Hc|Hnc].
  - destruct (Hcarry Hc) as [-> ->].
    change (2 ^ 52)%Z with (Zpos (2 ^ 52)). cbv iota.
    destruct (e' + 1 <=? emax - prec)%Z; [|now left].
    right. exists (2 ^ 52)%positive, (e' + 1)%Z. split; [reflexivity|].
    left. lia.
  - destruct (Hsame ltac:(lia)) as [-> ->].
    destruct m1 as [|mf|mf]; try lia.
    destruct (e' <=? emax - prec)%Z; [|now left].
    right. exists mf, e'. split; [reflexivity|].
    destruct (Z.eq_dec e' e0) as [Heq|Hne]; [right|left; lia].
    split; [exact Heq|]. now apply Hlow.
Qed.

(** [INITIAL_RADIUS + t], for a [t] that is not negative, is not below
    [INITIAL_RADIUS]. *)
Lemma initial_radius_plus t :
  (exists s, Prim2SF t = S754_zero s) \/
  Prim2SF t = S754_infinity false \/
  (exists m e, Prim2SF t = S754_finite false m e) ->
  (INITIAL_RADIUS <=? INITIAL_RADIUS + t) = true.
Proof.
  intros Ht. rewrite leb_spec, add_spec.
  change (Prim2SF INITIAL_RADIUS)
    with (S754_finite false 7036874417766400 (-48)).
  destruct Ht as [[s ->]|[->|(mt & et & ->)]]; try reflexivity.
  unfold SF64add, SFadd. cbn [cond_Zopp].
  set (ez := Z.min (-48) et).
  destruct (shl_align_value 7036874417766400 (-48) ez ltac:(unfold ez; lia))
    as (a & -> & Ha).
  destruct (shl_align_value mt et ez ltac:(unfold ez; lia)) as (b & -> & Hb).
  cbn [fst]. change (Zpos a + Zpos b)%Z with (Zpos (a + b)).
  cbn [binary_normalize]. unfold binary_round.
  assert (HM : (7036874417766400 * 2 ^ (-48 - ez) <= Zpos (a + b))%Z)
    by (rewrite Pos2Z.inj_add; lia).
  assert (Hp : (0 < 2 ^ (-48 - ez))%Z)
    by (apply Z.pow_pos_nonneg; unfold ez; lia).
  assert (Hd : (52 + (-48 - ez) < Zpos (digits2_pos (a + b)))%Z).
  { apply digits2_pos_gt; [unfold ez; lia|].
    rewrite Z.pow_add_r by (unfold ez; lia).
    change (2 ^ 52)%Z with 4503599627370496%Z. nia. }
  rewrite shl_align_ge by (rewrite fexp_eq; lia).
  destruct (round_aux_lower (a + b) ez 7036874417766400 (-48)
              ltac:(lia) ltac:(lia) ltac:(unfold ez; lia) HM)
    as [->|(m & e & -> & Hord)]; [reflexivity|].
  unfold SFleb. rewrite SFcompare_rank by discriminate. cbn [rank].
  destruct (lex3 _ _) eqn:Hl; try reflexivity.
  apply lex3_Gt in Hl. unfold lt3 in Hl. lia.
Qed.

(** The product of a score that counts by [RADIUS_PER_POINT] is not
    negative. *)
Lemma counting_times_rate x :
  counting x ->
  (exists s, Prim2SF (x * RADIUS_PER_POINT) = S754_zero s) \/
  Prim2SF (x * RADIUS_PER_POINT) = S754_infinity false \/
  (exists m e, Prim2SF (x * RADIUS_PER_POINT) = S754_finite false m e).
Proof.
  rewrite counting_spec, mul_spec.
  change (Prim2SF RADIUS_PER_POINT)
    with (S754_finite false 5404319552844595 (-53)).
  destruct (Prim2SF x) as [s|s| |s m e]; simpl; try contradiction.
  - intros _. left. eauto.
  - intros ->. right. left. reflexivity.
  - intros [-> _]. cbn [xorb].
    destruct (round_aux_result (m * 5404319552844595) (e + -53))
      as [H|[H|(m' & e' & H & _)]]; rewrite H; eauto.
Qed.

(** X22.  In every state either server can reach the radius of every
    player is at least [INITIAL_RADIUS] (so it is not NaN, and it is
    positive): a score only adds to it. *)
Theorem reachable_radius_at_least_initial {rt : Runtime} {en : Entropy}
    (gameLoop : number -> World -> World) (w : World) (socketId : string)
    (p : Player.t) :
  gameLoop = ServerJs.gameLoop \/ gameLoop = AntiLag.gameLoop ->
  reachable gameLoop w ->
  Obj.get (players w) socketId = Some p ->
  (INITIAL_RADIUS <=? Player.radius p) = true.
Proof.
  intros Hloop Hreach Hg. apply get_some_in in Hg.
  assert (Hr : radius_ok p).
  { refine (reachable_radius_inv gameLoop _ w Hreach _ _ Hg).
    destruct Hloop as [-> | ->];
      [exact ServerJs_radius_inv | exact AntiLag_radius_inv]. }
  pose proof (reachable_score_inv gameLoop w Hloop Hreach _ _ Hg) as Hs.
  rewrite Hr. apply initial_radius_plus. now apply counting_times_rate.
Qed.

(** ** Dying is starting again *)

Lemma counting_not_nan x : counting x -> is_nan x = false.
Proof.
  rewrite counting_spec. intros H. apply not_nan_spec.
  intros E. now rewrite E in H.
Qed.

Lemma counting_not_below_zero x : counting x -> (x <? 0) = false.
Proof.
  rewrite counting_spec, ltb_spec.
  change (Prim2SF 0) with (S754_zero false).
  destruct (Prim2SF x) as [s|s| |s m e]; simpl; try contradiction.
  - reflexivity.
  - now intros ->.
  - now intros [-> _].
Qed.

Section Respawn.

Context {en : Entropy}.

(** When the pair body is a kill between players whose scores are
    Numbers, the eater has the higher score. *)
Lemma pairBody_kill_scores idi idj w :
  pairBody idi idj w = w \/
  exists eaterId preyId eater prey,
    Obj.get (players w) eaterId = Some eater /\
    Obj.get (players w) preyId = Some prey /\
    pairBody idi idj w = kill eaterId preyId eater prey w /\
    (is_nan (Player.score eater) = false ->
     is_nan (Player.score prey) = false ->
     (Player.score prey <? Player.score eater) = true).
Proof.
  unfold pairBody.
  destruct (Obj.get (players w) idi) as [a|] eqn:Ha; [|now left].
  destruct (Obj.get (players w) idj) as [b|] eqn:Hb; [|now left].
  destruct (Player.score a =? Player.score b) eqn:Heq; [now left|].
  destruct (Player.score b <? Player.score a) eqn:Hlt.
  - rewrite String.eqb_refl, Ha, Hb.
    destruct (Player.radius a <=? Player.radius b * 1.05); [now left|].
    destruct (negb _ && negb _); [now left|].
    right. exists idi, idj, a, b. auto.
  - destruct (String.eqb idj idi) eqn:E.
    + apply String.eqb_eq in E. subst idj. rewrite Ha.
      destruct (Player.radius a <=? Player.radius a * 1.05); [now left|].
      destruct (negb _ && negb _); [now left|].
      right. exists idi, idi, a, a. repeat (split; [auto|]).
      intros Hn _. assert (b = a) by congruence. subst b.
      apply (eqb_false_rk _ _ Hn Hn) in Heq. now contradiction Heq.
    + rewrite Ha, Hb.
      destruct (Player.radius b <=? Player.radius a * 1.05); [now left|].
      destruct (negb _ && negb _); [now left|].
      right. exists idj, idi, b, a. repeat (split; [auto|]).
      intros Hnb Hna. now apply number_trichotomy.
Qed.

Lemma restarted_refl w : score_inv w -> restarted w w.
Proof.
  intros Hw. split; [exact Hw|]. exists [].
  split; [now rewrite app_nil_r|]. intros id [].
Qed.

Lemma pairBody_restarted idi idj w0 w :
  restarted w0 w -> restarted w0 (pairBody idi idj w).
Proof.
  intros (Hw & notes & Ho & Hfresh).
  destruct (pairBody_kill_scores idi idj w)
    as [->|(e & p & eater & prey & He & Hp & -> & Hlt)].
  { split; [exact Hw|]. exists notes. auto. }
  pose proof (Hw _ _ (get_some_in _ _ _ He)) as Hce.
  pose proof (Hw _ _ (get_some_in _ _ _ Hp)) as Hcp.
  specialize (Hlt (counting_not_nan _ Hce) (counting_not_nan _ Hcp)).
  assert (Hkeep : forall id, fresh w id ->
                             fresh (kill e p eater prey w) id).
  { intros id (q & Hq & Hs & Hr). unfold fresh. rewrite kill_players.
    destruct (String.eqb p id) eqn:E1.
    - apply String.eqb_eq in E1. subst id. rewrite get_set_same.
      eexists. split; [reflexivity|]. split; reflexivity.
    - apply String.eqb_neq in E1. rewrite get_set_other by exact E1.
      destruct (String.eqb e id) eqn:E2.
      + apply String.eqb_eq in E2. subst id. exfalso.
        assert (q = eater) by congruence. subst q.
        rewrite Hs in Hlt.
        now rewrite (counting_not_below_zero _ Hcp) in Hlt.
      + apply String.eqb_neq in E2. rewrite get_set_other by exact E2.
        exists q. auto. }
  split.
  - intros id q Hin. rewrite kill_players in Hin.
    destruct (in_set _ _ _ _ Hin) as [E|Hin1].
    + injection E as -> ->. exact counting_zero.
    + destruct (in_set _ _ _ _ Hin1) as [E|Hin2]; [|eauto].
      injection E as -> ->. cbn [Player.score].
      apply counting_add; [exact Hce|]. now apply floor_half_counting.
  - destruct (kill_frame e p eater prey w) as (_ & _ & _ & Ho').
    exists (notes ++ killNotes e p prey).
    split; [now rewrite Ho', Ho, app_assoc|].
    intros id Hin. apply in_app_or in Hin. destruct Hin as [Hin|Hin].
    + apply Hkeep. now apply Hfresh.
    + unfold killNotes in Hin. simpl in Hin.
      destruct Hin as [Hin|[Hin|[]]]; [discriminate|].
      injection Hin as <-. unfold fresh. rewrite kill_players, get_set_same.
      eexists. split; [reflexivity|]. split; reflexivity.
Qed.

Lemma killPhase_restarted w : score_inv w -> restarted w (killPhase w).
Proof.
  intros Hw. unfold killPhase.
  apply (fold_left_inv (restarted w)); [|now apply restarted_refl].
  intros w' i. unfold innerLoop. apply (fold_left_inv (restarted w)).
  intros w'' j. apply pairBody_restarted.
Qed.

(** X23.  In a tick of either server that starts from a state the
    server can reach, a player to which [youDied] is sent ends the tick
    with score 0 and the initial radius: nothing that follows the respawn
    in the tick gives it points. *)
Theorem dying_is_starting_again {rt : Runtime}
    (gameLoop : number -> World -> World) (now : number) (w : World)
    (sent : list Emit) (socketId : string) :
  gameLoop = ServerJs.gameLoop \/ gameLoop = AntiLag.gameLoop ->
  reachable gameLoop w ->
  outbox (gameLoop now w) = outbox w ++ sent ->
  In (to socketId youDied) sent ->
  exists p,
    Obj.get (players (gameLoop now w)) socketId = Some p /\
    Player.score p = 0 /\ Player.radius p = INITIAL_RADIUS.
Proof.
  intros Hloop Hreach Hsent Hin.
  pose proof (reachable_score_inv gameLoop w Hloop Hreach) as Hw.
  destruct (killPhase_restarted (pelletPhase w) (pelletPhase_score_inv w Hw))
    as (_ & notes & Ho & Hfresh).
  destruct (pelletPhase_frame w) as (_ & _ & Ho').
  destruct (regrowPhase_frame now (killPhase (pelletPhase w)))
    as (Hp & _ & Ho'').
  assert (Hall : exists ps pl,
             outbox (gameLoop now w) = outbox w ++ notes ++ [all (state ps pl)]
             /\ players (gameLoop now w) = players (killPhase (pelletPhase w))).
  { destruct Hloop as [-> | ->].
    - eexists. eexists.
      unfold ServerJs.gameLoop, ServerJs.broadcast. cbn [outbox emit players].
      rewrite Ho'', Ho, Ho', <- app_assoc. split; [reflexivity|exact Hp].
    - eexists. eexists.
      unfold AntiLag.gameLoop, AntiLag.broadcast.
      rewrite phases_with_tick. cbn [outbox emit with_tick players].
      rewrite Ho'', Ho, Ho', <- app_assoc. split; [reflexivity|exact Hp]. }
  destruct Hall as (ps & pl & Hout & Hpl).
  rewrite Hout in Hsent. apply app_inv_head in Hsent. subst sent.
  apply in_app_or in Hin. destruct Hin as [Hin|[Hin|[]]]; [|discriminate].
  rewrite Hpl. exact (Hfresh _ Hin).
Qed.

End Respawn.

(** ** The two files, run side by side *)

Section SideBySide.

Context {rt : Runtime} {en : Entropy}.

(** The three phases read neither the counter nor the messages sent. *)
Lemma pelletPhase_rebase t o w :
  pelletPhase (rebase t o w) = rebase t o (pelletPhase w).
Proof.
  unfold pelletPhase. simpl.
  destruct (eatPellets (Obj.entries (players w)) (pellets w)); reflexivity.
Qed.

Lemma kill_rebase t o eaterId preyId eater prey w :
  kill eaterId preyId eater prey (rebase t o w) =
  rebase t o (kill eaterId preyId eater prey w).
Proof.
  unfold kill. rewrite !randomPosition_eq. unfold rebase, emit, with_players.
  simpl. now rewrite !app_assoc.
Qed.

Lemma pairBody_rebase t o idi idj w :
  pairBody idi idj (rebase t o w) = rebase t o (pairBody idi idj w).
Proof.
  unfold pairBody. cbn [players rebase].
  repeat match goal with
         | |- context [match ?c with _ => _ end] => destruct c
         end; try reflexivity; apply kill_rebase.
Qed.

Lemma fold_left_rebase {X : Type} (f : World -> X -> World) t o l :
  (forall w x, f (rebase t o w) x = rebase t o (f w x)) ->
  forall w, fold_left f l (rebase t o w) = rebase t o (fold_left f l w).
Proof.
  intros Hf. induction l as [|x l IH]; intros w; simpl; [reflexivity|].
  now rewrite Hf, IH.
Qed.

Lemma killPhase_rebase t o w :
  killPhase (rebase t o w) = rebase t o (killPhase w).
Proof.
  unfold killPhase. cbn [players rebase]. apply fold_left_rebase.
  intros w' i. unfold innerLoop. apply fold_left_rebase.
  intros; apply pairBody_rebase.
Qed.

Lemma regrowPhase_rebase now t o w :
  regrowPhase now (rebase t o w) = rebase t o (regrowPhase now w).
Proof.
  rewrite !regrowPhase_eq. cbn [pellets draws rebase].
  destruct (List.length (pellets w) <? MAX_PELLETS)%nat; [|reflexivity].
  destruct (Math_random_at (draws w) <? 0.2); reflexivity.
Qed.

Lemma phases_rebase now t o w :
  regrowPhase now (killPhase (pelletPhase (rebase t o w))) =
  rebase t o (regrowPhase now (killPhase (pelletPhase w))).
Proof.
  now rewrite pelletPhase_rebase, killPhase_rebase, regrowPhase_rebase.
Qed.

Lemma rebase_core w :
  w = rebase (tick w) (outbox w)
        (mkWorld (players w) (pellets w) 0 (draws w) []).
Proof. destruct w. unfold rebase. simpl. now rewrite app_nil_r. Qed.

Lemma same_game_tick now wS wA :
  same_game wS wA ->
  same_game (ServerJs.gameLoop now wS) (AntiLag.gameLoop now wA).
Proof.
  intros (Hp & Hl & Hd & Ho).
  unfold ServerJs.gameLoop, AntiLag.gameLoop, ServerJs.broadcast,
    AntiLag.broadcast.
  rewrite phases_with_tick.
  rewrite (rebase_core wS), (rebase_core wA), Hp, Hl, Hd.
  rewrite !phases_rebase.
  set (c := regrowPhase now
              (killPhase
                 (pelletPhase
                    (mkWorld (players wS) (pellets wS) 0 (draws wS) [])))).
  unfold same_game.
  cbn [players pellets draws outbox tick emit with_tick rebase].
  repeat (split; [reflexivity|]).
  rewrite !map_app, Ho. reflexivity.
Qed.

Lemma same_game_step e wS wA :
  same_game wS wA ->
  match step ServerJs.gameLoop e wS, step AntiLag.gameLoop e wA with
  | Normal wS', Normal wA' => same_game wS' wA'
  | Throw, Throw => True
  | _, _ => False
  end.
Proof.
  intros H. destruct e as [id|id data|id raw|id|now]; cbn [step].
  - destruct H as (Hp & Hl & Hd & Ho). unfold onConnection.
    rewrite !randomPosition_eq. unfold same_game.
    cbn [randomColor Math_random players pellets draws outbox with_players
         emit fst snd].
    rewrite Hp, Hl, Hd, !map_app, Ho. repeat split.
  - destruct H as (Hp & Hl & Hd & Ho). unfold onMove. rewrite Hp.
    destruct (Obj.get (players wS) id) as [p|].
    + destruct data as [d|]; [|exact I]. unfold same_game.
      cbn [players pellets draws outbox with_players]. auto.
    + unfold same_game. auto.
  - destruct H as (Hp & Hl & Hd & Ho). unfold onSetName. rewrite Hp.
    destruct (Obj.get (players wS) id) as [p|].
    + unfold same_game.
      cbn [players pellets draws outbox with_players]. auto.
    + unfold same_game. auto.
  - destruct H as (Hp & Hl & Hd & Ho). unfold onDisconnect, same_game.
    cbn [players pellets draws outbox with_players]. rewrite Hp. auto.
  - now apply same_game_tick.
Qed.

Lemma same_game_run es wS wA :
  same_game wS wA ->
  match run ServerJs.gameLoop es wS, run AntiLag.gameLoop es wA with
  | Normal wS', Normal wA' => same_game wS' wA'
  | Throw, Throw => True
  | _, _ => False
  end.
Proof.
  revert wS wA. induction es as [|e es IH]; intros wS wA H; cbn [run].
  - exact H.
  - pose proof (same_game_step e wS wA H) as Hs.
    destruct (step ServerJs.gameLoop e wS) as [wS'|],
             (step AntiLag.gameLoop e wA) as [wA'|]; try contradiction.
    + now apply IH.
    + exact I.
Qed.

(** X24.  Whatever the events, the two files play the same game: from
    startup they go through the same players, the same pellets and the
    same draws, they throw on the same runs, and they send the same
    messages to the same sockets in the same order, but for the pellets
    member of the [state] messages. *)
Theorem the_two_files_play_the_same_game (es : list Event) :
  match run ServerJs.gameLoop es boot, run AntiLag.gameLoop es boot with
  | Normal wS, Normal wA =>
      players wA = players wS /\
      pellets wA = pellets wS /\
      draws wA = draws wS /\
      map without_pellets (outbox wA) = map without_pellets (outbox wS)
  | Throw, Throw => True
  | _, _ => False
  end.
Proof.
  apply (same_game_run es boot boot). repeat split.
Qed.

End SideBySide.

(** ** The guards of the kill pass *)

Lemma pairs_distinct ids a b :
  NoDup ids -> In (a, b) (pairs ids) -> a <> b.
Proof.
  induction ids as [|c rest IH]; simpl; [tauto|].
  intros Hnd. inversion Hnd as [|? ? Hc Hrest]; subst.
  rewrite in_app_iff, in_map_iff. intros [(b' & Heq & Hin)|Hin].
  - injection Heq as -> ->. intros ->. contradiction.
  - now apply IH.
Qed.

Section Guards.

Context {en : Entropy}.

(** X25.  In the kill pass the guards [if (!a || !b) continue] and
    [if (!eater || !prey) continue] never fire, and no player is paired
    with itself: when the pass comes to a pair of ids, after the pairs
    before it, the two ids are different and both players are there. *)
Theorem kill_pass_guards_never_fire (w : World)
    (before after : list (string * string)) (idi idj : string) :
  Obj.wf (players w) ->
  pairs (Obj.keys (players w)) = before ++ (idi, idj) :: after ->
  let body := fun w p => pairBody (fst p) (snd p) w in
  let w' := fold_left body before w in
  killPhase w = fold_left body after (pairBody idi idj w') /\
  idi <> idj /\
  exists a b,
    Obj.get (players w') idi = Some a /\
    Obj.get (players w') idj = Some b.
Proof.
  intros Hwf Hpairs. cbv zeta.
  split; [now rewrite killPhase_pairs, Hpairs, fold_left_app|].
  assert (Hin : In (idi, idj) (pairs (Obj.keys (players w))))
    by (rewrite Hpairs; apply in_or_app; right; now left).
  split; [exact (pairs_distinct _ _ _ Hwf Hin)|].
  destruct (in_pairs _ _ _ Hin) as [Hi Hj].
  destruct (fold_left_older (fun w p => pairBody (fst p) (snd p) w) before
              (fun w0 p => pairBody_older (fst p) (snd p) w0) w)
    as (_ & _ & Hk & _).
  rewrite <- Hk in Hi, Hj.
  destruct (Obj.get _ idi) as [a|] eqn:Ha;
    [|apply get_none_not_key in Ha; contradiction].
  destruct (Obj.get _ idj) as [b|] eqn:Hb;
    [|apply get_none_not_key in Hb; contradiction].
  eauto.
Qed.

End Guards.

(** ** Scores are computed exactly *)

Lemma digits2_pos_eq p n :
  (1 <= n)%Z -> (2 ^ (n - 1) <= Zpos p < 2 ^ n)%Z ->
  Zpos (digits2_pos p) = n.
Proof.
  intros Hn [Hlo Hhi].
  pose proof (digits2_pos_le p n ltac:(lia) Hhi).
  pose proof (digits2_pos_gt p (n - 1) ltac:(lia) Hlo). lia.
Qed.

(** A value that is a normal Number rounds to that Number. *)
Lemma round_aux_exact (M : positive) (E : Z) (m0 : positive) (e0 : Z) :
  (2 ^ 52 <= Zpos m0 < 2 ^ 53)%Z -> (-1074 <= e0 <= 971)%Z -> (E <= e0)%Z ->
  Zpos M = (Zpos m0 * 2 ^ (e0 - E))%Z ->
  binary_round_aux prec emax false (Zpos M) E loc_Exact =
  S754_finite false m0 e0.
Proof.
  intros Hm0 He0 HE HM.
  assert (Hpk : (0 < 2 ^ (e0 - E))%Z) by (apply Z.pow_pos_nonneg; lia).
  assert (Hd : Zpos (digits2_pos M) = (53 + (e0 - E))%Z).
  { apply digits2_pos_eq; [lia|]. rewrite HM.
    replace (53 + (e0 - E) - 1)%Z with (52 + (e0 - E))%Z by lia.
    rewrite !Z.pow_add_r by lia. split; nia. }
  unfold binary_round_aux.
  destruct (first_stage M E) as (mrs' & e' & -> & Hno & Hsh).
  cbv zeta in Hno, Hsh. rewrite Hd in Hno, Hsh.
  replace (Z.max (53 + (e0 - E) + E - 53) (-1074)) with e0 in Hno, Hsh by lia.
  set (m1 := round_nearest_even (shr_m mrs') (loc_of_shr_record mrs')) in *.
  clearbody m1.
  assert (H1 : m1 = Zpos m0 /\ e' = e0).
  { destruct (Z_le_gt_dec e0 E) as [Hle|Hgt].
    - destruct (Hno Hle) as [H1 H2]. assert (e0 = E) by lia. subst e0.
      rewrite Z.sub_diag, Z.mul_1_r in HM. split; congruence.
    - destruct (Hsh ltac:(lia)) as [H2 Hm1].
      assert (Hq : (Zpos M / 2 ^ (e0 - E) = Zpos m0)%Z)
        by (rewrite HM; apply Z.div_mul; lia).
      assert (Hr : (Zpos M mod 2 ^ (e0 - E) = 0)%Z)
        by (rewrite HM; apply Z.mod_mul; lia).
      destruct Hm1 as [H|[H Hr']].
      + split; congruence.
      + exfalso. rewrite Hr in Hr'.
        assert (0 < 2 ^ (e0 - E - 1))%Z by (apply Z.pow_pos_nonneg; lia).
        lia. }
  destruct H1 as [-> ->].
  destruct (second_stage (Zpos m0) e0 ltac:(lia) ltac:(lia))
    as (mrs'' & e'' & -> & Hsame & _).
  destruct (Hsame ltac:(lia)) as [-> ->].
  replace (e0 <=? emax - prec)%Z with true
    by (symmetry; apply Z.leb_le; change (emax - prec)%Z with 971%Z; lia).
  reflexivity.
Qed.

(** A positive integer [v] below [2 ^ 53], given as [S * 2 ^ E], rounds
    to the Number that is [v], a normal one. *)
Lemma binary_round_exact (S : positive) (E v : Z) :
  (0 < v < 2 ^ 53)%Z -> (E <= 0)%Z -> Zpos S = (v * 2 ^ (- E))%Z ->
  exists m e,
    binary_round prec emax false S E = S754_finite false m e /\
    (-52 <= e <= 0)%Z /\ Zpos m = (v * 2 ^ (- e))%Z /\
    (2 ^ 52 <= Zpos m < 2 ^ 53)%Z.
Proof.
  intros Hv HE HS.
  pose proof (digits2_pos_bounds S) as [Hdlo Hdhi].
  set (d := Zpos (digits2_pos S)) in *.
  assert (HpE : (0 < 2 ^ (- E))%Z) by (apply Z.pow_pos_nonneg; lia).
  assert (Hd1 : (d <= 53 - E)%Z).
  { apply digits2_pos_le; [lia|].
    replace (53 - E)%Z with (53 + - E)%Z by lia.
    rewrite Z.pow_add_r by lia. nia. }
  assert (Hd2 : (- E < d)%Z) by (apply digits2_pos_gt; [lia|nia]).
  assert (Hd0 : (1 <= d)%Z) by (unfold d; lia).
  set (e0 := (d + E - 53)%Z).
  assert (He0 : (-52 <= e0 <= 0)%Z) by (unfold e0; lia).
  assert (Hv0 : (0 < v * 2 ^ (- e0))%Z).
  { apply Z.mul_pos_pos; [lia|]. apply Z.pow_pos_nonneg; lia. }
  destruct (v * 2 ^ (- e0))%Z as [|m0|m0] eqn:Hm0; try lia.
  assert (Hrel :
            (e0 < E /\ Zpos m0 = Zpos S * 2 ^ (53 - d))%Z \/
            (E <= e0 /\ Zpos S = Zpos m0 * 2 ^ (d - 53))%Z).
  { destruct (Z_lt_le_dec e0 E) as [H|H]; [left|right]; (split; [exact H|]).
    - rewrite <- Hm0, HS, <- Z.mul_assoc, <- Z.pow_add_r by (unfold e0 in *; lia).
      do 2 f_equal. unfold e0. lia.
    - rewrite <- Hm0, HS, <- Z.mul_assoc, <- Z.pow_add_r by (unfold e0 in *; lia).
      do 2 f_equal. unfold e0. lia. }
  assert (Hnorm : (2 ^ 52 <= Zpos m0 < 2 ^ 53)%Z).
  { destruct Hrel as [[Hlt Hr]|[Hge Hr]].
    - assert (Hp : (0 < 2 ^ (53 - d))%Z)
        by (apply Z.pow_pos_nonneg; unfold e0 in *; lia).
      assert (H52 : (2 ^ 52 = 2 ^ (d - 1) * 2 ^ (53 - d))%Z).
      { rewrite <- Z.pow_add_r by (unfold e0 in *; lia). f_equal. lia. }
      assert (H53 : (2 ^ 53 = 2 ^ d * 2 ^ (53 - d))%Z).
      { rewrite <- Z.pow_add_r by (unfold e0 in *; lia). f_equal. lia. }
      rewrite Hr, H52, H53. split; nia.
    - assert (Hp : (0 < 2 ^ (d - 53))%Z)
        by (apply Z.pow_pos_nonneg; unfold e0 in *; lia).
      assert (Hdd : (2 ^ d = 2 ^ 53 * 2 ^ (d - 53))%Z).
      { rewrite <- Z.pow_add_r by (unfold e0 in *; lia). f_equal. lia. }
      assert (Hdd' : (2 ^ (d - 1) = 2 ^ 52 * 2 ^ (d - 53))%Z).
      { rewrite <- Z.pow_add_r by (unfold e0 in *; lia). f_equal. lia. }
      rewrite Hr, Hdd in Hdhi. rewrite Hr, Hdd' in Hdlo. split; nia. }
  unfold binary_round. rewrite fexp_eq. fold d.
  replace (Z.max (d + E - 53) (-1074)) with e0 by (unfold e0; lia).
  exists m0, e0.
  split; [|split; [exact He0|split; [now rewrite Hm0|exact Hnorm]]].
  destruct Hrel as [[Hlt Hr]|[Hge Hr]].
  - destruct (shl_align_value S E e0 ltac:(lia)) as (mz & -> & Hmz).
    assert (Hmz0 : mz = m0).
    { apply Pos2Z.inj. rewrite Hmz, Hr. do 2 f_equal. unfold e0. lia. }
    subst mz.
    apply round_aux_exact; try lia. now rewrite Z.sub_diag, Z.mul_1_r.
  - rewrite shl_align_ge by lia.
    apply round_aux_exact; try lia.
    rewrite Hr. do 2 f_equal. unfold e0. lia.
Qed.

(** The representation of a Number that is a positive integer below
    [2 ^ 53]. *)
Lemma counted_small f z :
  to_integer f = Some z -> (0 < z < 2 ^ 53)%Z ->
  exists m e,
    Prim2SF f = S754_finite false m e /\
    (e <= 0)%Z /\ Zpos m = (z * 2 ^ (- e))%Z.
Proof.
  unfold to_integer. intros Hz Hz0.
  pose proof (Prim2SF_valid f) as Hval.
  destruct (Prim2SF f) as [s|s| |s m e]; try discriminate.
  { assert (z = 0%Z) by congruence. lia. }
  cbn [valid_binary] in Hval. unfold bounded, canonical_mantissa in Hval.
  apply andb_prop in Hval. destruct Hval as [Hc _].
  apply Z.eqb_eq in Hc. rewrite fexp_eq in Hc.
  pose proof (digits2_pos_bounds m) as [Hlo Hhi].
  destruct (0 <=? e)%Z eqn:He.
  - apply Z.leb_le in He.
    assert (Ez : z = cond_Zopp s (Zpos m * 2 ^ e)) by congruence.
    assert (Hpe : (0 < 2 ^ e)%Z) by (apply Z.pow_pos_nonneg; lia).
    assert (Hpos : (0 < Zpos m * 2 ^ e)%Z) by (apply Z.mul_pos_pos; lia).
    destruct s; cbn [cond_Zopp] in Ez; [lia|].
    assert (Hd : Zpos (digits2_pos m) = 53%Z) by lia.
    rewrite Hd in Hlo. change (2 ^ (53 - 1))%Z with (2 ^ 52)%Z in Hlo.
    destruct (Z.eq_dec e 0) as [->|Hne].
    + exists m, 0%Z. split; [reflexivity|]. split; [lia|].
      rewrite Ez. change (2 ^ 0)%Z with 1%Z. change (2 ^ (- 0))%Z with 1%Z.
      lia.
    + exfalso.
      assert (2 ^ 1 <= 2 ^ e)%Z by (apply Z.pow_le_mono_r; lia).
      change (2 ^ 1)%Z with 2%Z in *.
      change (2 ^ 53)%Z with (2 ^ 52 * 2)%Z in Hz0. nia.
  - apply Z.leb_gt in He.
    destruct (Zpos m mod 2 ^ (- e) =? 0)%Z eqn:Hm; [|discriminate].
    apply Z.eqb_eq in Hm.
    assert (Ez : z = cond_Zopp s (Zpos m / 2 ^ (- e))) by congruence.
    assert (Hp : (0 < 2 ^ (- e))%Z) by (apply Z.pow_pos_nonneg; lia).
    assert (Hd : (2 ^ (- e) | Zpos m)%Z) by (apply Z.mod_divide; lia).
    destruct Hd as [k Hk]. rewrite Hk, Z.div_mul in Ez by lia.
    destruct s; cbn [cond_Zopp] in Ez; [nia|]. subst k.
    exists m, e. split; [reflexivity|]. split; [lia|exact Hk].
Qed.

Lemma to_integer_small f m e z :
  Prim2SF f = S754_finite false m e ->
  (e <= 0)%Z -> Zpos m = (z * 2 ^ (- e))%Z ->
  to_integer f = Some z.
Proof.
  intros Hf He Hm. unfold to_integer. rewrite Hf. cbn [cond_Zopp].
  assert (Hp : (0 < 2 ^ (- e))%Z) by (apply Z.pow_pos_nonneg; lia).
  destruct (0 <=? e)%Z eqn:He0.
  - apply Z.leb_le in He0. assert (e = 0%Z) by lia. subst e.
    change (2 ^ (- 0))%Z with 1%Z in Hm. change (2 ^ 0)%Z with 1%Z.
    f_equal. lia.
  - rewrite Hm, Z.mod_mul, Z.div_mul by lia. reflexivity.
Qed.

Lemma to_integer_zero f :
  to_integer f = Some 0%Z -> exists s, Prim2SF f = S754_zero s.
Proof.
  unfold to_integer. intros Hz.
  destruct (Prim2SF f) as [s|s| |s m e]; try discriminate; [eauto|exfalso].
  destruct (0 <=? e)%Z eqn:He.
  - apply Z.leb_le in He.
    assert (Ez : 0%Z = cond_Zopp s (Zpos m * 2 ^ e)) by congruence.
    assert (Hpe : (0 < 2 ^ e)%Z) by (apply Z.pow_pos_nonneg; lia).
    assert (Hpos : (0 < Zpos m * 2 ^ e)%Z) by (apply Z.mul_pos_pos; lia).
    destruct s; cbn [cond_Zopp] in Ez; lia.
  - apply Z.leb_gt in He.
    destruct (Zpos m mod 2 ^ (- e) =? 0)%Z eqn:Hm; [|discriminate].
    apply Z.eqb_eq in Hm.
    assert (Ez : 0%Z = cond_Zopp s (Zpos m / 2 ^ (- e))) by congruence.
    assert (Hp : (0 < 2 ^ (- e))%Z) by (apply Z.pow_pos_nonneg; lia).
    assert (Hd : (2 ^ (- e) | Zpos m)%Z) by (apply Z.mod_divide; lia).
    destruct Hd as [k Hk]. rewrite Hk, Z.div_mul in Ez by lia.
    destruct s; cbn [cond_Zopp] in Ez; nia.
Qed.

Lemma to_integer_ext f g :
  Prim2SF f = Prim2SF g -> to_integer f = to_integer g.
Proof. unfold to_integer. now intros ->. Qed.

(** The sum of two integers, below [2 ^ 53], is exact. *)
Lemma exact_add x y zx zy :
  to_integer x = Some zx -> to_integer y = Some zy ->
  (0 <= zx)%Z -> (0 <= zy)%Z -> (zx + zy < 2 ^ 53)%Z ->
  to_integer (x + y) = Some (zx + zy)%Z.
Proof.
  intros Hx Hy Hzx Hzy Hsum.
  destruct (Z.eq_dec zx 0) as [->|Hnx].
  { destruct (to_integer_zero x Hx) as [sx Hsx].
    destruct (Z.eq_dec zy 0) as [->|Hny].
    - destruct (to_integer_zero y Hy) as [sy Hsy].
      unfold to_integer. rewrite add_spec, Hsx, Hsy.
      destruct sx, sy; reflexivity.
    - destruct (counted_small y zy Hy ltac:(lia)) as (my & ey & Hfy & _).
      rewrite Z.add_0_l, <- Hy. apply to_integer_ext.
      rewrite add_spec, Hsx, Hfy. reflexivity. }
  destruct (counted_small x zx Hx ltac:(lia)) as (mx & ex & Hfx & Hex & Hmx).
  destruct (Z.eq_dec zy 0) as [->|Hny].
  { destruct (to_integer_zero y Hy) as [sy Hsy].
    rewrite Z.add_0_r, <- Hx. apply to_integer_ext.
    rewrite add_spec, Hsy, Hfx. reflexivity. }
  destruct (counted_small y zy Hy ltac:(lia)) as (my & ey & Hfy & Hey & Hmy).
  pose proof (add_spec x y) as Hadd. rewrite Hfx, Hfy in Hadd.
  unfold SF64add, SFadd in Hadd. cbn [cond_Zopp] in Hadd.
  set (ez := Z.min ex ey) in *.
  destruct (shl_align_value mx ex ez ltac:(unfold ez; lia)) as (a & Ea & Ha).
  destruct (shl_align_value my ey ez ltac:(unfold ez; lia)) as (b & Eb & Hb).
  rewrite Ea, Eb in Hadd. cbn [fst] in Hadd.
  change (Zpos a + Zpos b)%Z with (Zpos (a + b)) in Hadd.
  cbn [binary_normalize] in Hadd.
  assert (HS : Zpos (a + b) = ((zx + zy) * 2 ^ (- ez))%Z).
  { rewrite Pos2Z.inj_add, Ha, Hb, Hmx, Hmy.
    rewrite <- !Z.mul_assoc, <- !Z.pow_add_r by (unfold ez; lia).
    replace (- ex + (ex - ez))%Z with (- ez)%Z by lia.
    replace (- ey + (ey - ez))%Z with (- ez)%Z by lia. ring. }
  destruct (binary_round_exact (a + b) ez (zx + zy)
              ltac:(lia) ltac:(unfold ez; lia) HS)
    as (m & e & Hr & He & Hm & _).
  rewrite Hr in Hadd.
  exact (to_integer_small _ m e _ Hadd ltac:(lia) Hm).
Qed.

(** An integer below [2 ^ 53], as a Number, is that integer. *)
Lemma to_integer_of_Z q : (0 <= q < 2 ^ 53)%Z -> to_integer (of_Z q) = Some q.
Proof.
  intros Hq. unfold of_Z.
  assert (Hv : binary_normalize prec emax q 0 false =
               Prim2SF (of_uint63 (Uint63Axioms.of_Z q))).
  { rewrite of_uint63_spec, Stdlib.Numbers.Cyclic.Int63.Uint63.of_Z_spec.
    rewrite Z.mod_small; [reflexivity|].
    assert (2 ^ 53 < Uint63Axioms.wB)%Z by reflexivity. lia. }
  pose proof (Prim2SF_SF2Prim (binary_normalize prec emax q 0 false)
                ltac:(rewrite Hv; apply Prim2SF_valid)) as Hf.
  destruct q as [|p|p]; [reflexivity| |lia].
  cbn [binary_normalize] in Hf.
  destruct (binary_round_exact p 0 (Zpos p) ltac:(lia) ltac:(lia)
              ltac:(simpl; lia))
    as (m & e & Hr & He & Hm & _).
  cbn [binary_normalize]. rewrite Hr in Hf |- *.
  exact (to_integer_small _ m e _ Hf ltac:(lia) Hm).
Qed.

(** [Math.floor(score * 0.5)] is the integer half of the score. *)
Lemma exact_floor_half s z :
  to_integer s = Some z -> (0 <= z < 2 ^ 53)%Z ->
  to_integer (Math_floor (s * 0.5)) = Some (z / 2)%Z.
Proof.
  intros Hs Hz.
  pose proof (mul_spec s 0.5) as Hf.
  change (Prim2SF 0.5) with (S754_finite false 4503599627370496 (-53)) in Hf.
  destruct (Z.eq_dec z 0) as [->|Hnz].
  { destruct (to_integer_zero s Hs) as [sx Hsx]. rewrite Hsx in Hf.
    simpl in Hf. unfold Math_floor, to_integer. rewrite Hf, Hf. reflexivity. }
  destruct (counted_small s z Hs ltac:(lia)) as (m & e & Hfs & He & Hm).
  rewrite Hfs in Hf. unfold SF64mul, SFmul in Hf. cbn [xorb] in Hf.
  assert (Hp : (0 < 2 ^ (- e))%Z) by (apply Z.pow_pos_nonneg; lia).
  pose proof (Prim2SF_valid s) as Hval. rewrite Hfs in Hval.
  cbn [valid_binary] in Hval. unfold bounded, canonical_mantissa in Hval.
  apply andb_prop in Hval. destruct Hval as [Hc _].
  apply Z.eqb_eq in Hc. rewrite fexp_eq in Hc.
  pose proof (digits2_pos_bounds m) as [Hlo Hhi].
  assert (Hm53 : (Zpos m < 2 ^ 53)%Z).
  { assert (2 ^ Zpos (digits2_pos m) <= 2 ^ 53)%Z
      by (apply Z.pow_le_mono_r; lia).
    lia. }
  assert (He52 : (- e <= 52)%Z).
  { destruct (Z_le_gt_dec (- e) 52) as [H|H]; [exact H|exfalso].
    assert (2 ^ 53 <= 2 ^ (- e))%Z by (apply Z.pow_le_mono_r; lia). nia. }
  assert (Hd : Zpos (digits2_pos m) = 53%Z) by lia.
  rewrite Hd in Hlo, Hhi. change (2 ^ (53 - 1))%Z with (2 ^ 52)%Z in Hlo.
  rewrite (round_aux_exact (m * 4503599627370496) (e + -53) m (e - 1)) in Hf;
    try lia.
  2:{ replace (e - 1 - (e + -53))%Z with 52%Z by lia. reflexivity. }
  unfold Math_floor. rewrite Hf.
  replace (0 <=? e - 1)%Z with false by (symmetry; apply Z.leb_gt; lia).
  cbn [cond_Zopp].
  assert (Hq : (Zpos m / 2 ^ (- (e - 1)) = z / 2)%Z).
  { replace (- (e - 1))%Z with (- e + 1)%Z by lia.
    rewrite Z.pow_add_r, Z.pow_1_r by lia.
    rewrite <- Z.div_div by lia. rewrite Hm, Z.div_mul by lia. reflexivity. }
  rewrite Hq. apply to_integer_of_Z.
  split; [apply Z.div_pos; lia|].
  apply Z.div_lt_upper_bound; lia.
Qed.

(** X26.  Below [2 ^ 53] the scores are computed exactly, in doubles as
    in integers.  For a player whose score is the integer [z] and a prey
    whose score is the integer [zp]: eating a pellet makes the score
    [z + 1]; the points of a kill are [zp / 2], rounded down; and the
    score of the eater after the kill is [z + zp / 2]. *)
Theorem scores_are_exact {en : Entropy} (eaterId preyId : string)
    (eater prey : Player.t) (z zp : Z) (w : World) :
  to_integer (Player.score eater) = Some z ->
  to_integer (Player.score prey) = Some zp ->
  (0 <= z)%Z -> (0 <= zp < 2 ^ 53)%Z ->
  let gained := Math_floor (Player.score prey * 0.5) in
  ((z + 1 < 2 ^ 53)%Z ->
   to_integer (Player.score (grow eater)) = Some (z + 1)%Z) /\
  to_integer gained = Some (zp / 2)%Z /\
  ((z + zp / 2 < 2 ^ 53)%Z ->
   eaterId <> preyId ->
   exists eater',
     Obj.get (players (kill eaterId preyId eater prey w)) eaterId =
       Some eater' /\
     to_integer (Player.score eater') = Some (z + zp / 2)%Z).
Proof.
  intros He Hp Hz Hzp. cbv zeta.
  pose proof (exact_floor_half _ _ Hp Hzp) as Hg.
  assert (Hh : (0 <= zp / 2)%Z) by (apply Z.div_pos; lia).
  split; [|split].
  - intros Hlt. cbn [grow Player.score].
    apply (exact_add _ 1 z 1 He); [reflexivity|lia|lia|exact Hlt].
  - exact Hg.
  - intros Hlt Hne. rewrite kill_players.
    rewrite get_set_other by congruence. rewrite get_set_same.
    eexists. split; [reflexivity|]. cbn [Player.score].
    now apply exact_add.
Qed.

(** ** The ids of the pellets *)

(** The order of two normal Numbers is the order of their values. *)
Lemma normal_le3 (m m' : positive) (e e' : Z) :
  (2 ^ 52 <= Zpos m < 2 ^ 53)%Z -> (2 ^ 52 <= Zpos m' < 2 ^ 53)%Z ->
  (e <= 0)%Z -> (e' <= 0)%Z ->
  (Zpos m * 2 ^ (- e') <= Zpos m' * 2 ^ (- e))%Z ->
  le3 (1, e, Zpos m)%Z (1, e', Zpos m')%Z.
Proof.
  intros Hm Hm' He He' Hv. unfold le3.
  assert (Hp : (0 < 2 ^ (- e))%Z) by (apply Z.pow_pos_nonneg; lia).
  assert (Hp' : (0 < 2 ^ (- e'))%Z) by (apply Z.pow_pos_nonneg; lia).
  right. split; [reflexivity|].
  destruct (Z.lt_total e e') as [H|[H|H]]; [now left| |exfalso].
  - right. split; [exact H|]. subst e'. nia.
  - assert (Hs : (2 ^ (- e') = 2 ^ (- e) * 2 ^ (e - e'))%Z).
    { rewrite <- Z.pow_add_r by lia. f_equal. lia. }
    assert (2 ^ 1 <= 2 ^ (e - e'))%Z by (apply Z.pow_le_mono_r; lia).
    change (2 ^ 1)%Z with 2%Z in *.
    change (2 ^ 53)%Z with (2 ^ 52 * 2)%Z in Hm'.
    rewrite Hs in Hv. nia.
Qed.

Lemma normal_lt3 (m m' : positive) (e e' : Z) :
  (2 ^ 52 <= Zpos m < 2 ^ 53)%Z -> (2 ^ 52 <= Zpos m' < 2 ^ 53)%Z ->
  (e <= 0)%Z -> (e' <= 0)%Z ->
  (Zpos m * 2 ^ (- e') < Zpos m' * 2 ^ (- e))%Z ->
  lt3 (1, e, Zpos m)%Z (1, e', Zpos m')%Z.
Proof.
  intros Hm Hm' He He' Hv.
  pose proof (normal_le3 m m' e e' Hm Hm' He He' ltac:(lia)) as H.
  unfold le3, lt3 in *.
  destruct (Z.eq_dec e e') as [->|Hne]; [|lia].
  assert (Hp' : (0 < 2 ^ (- e'))%Z) by (apply Z.pow_pos_nonneg; lia).
  right. split; [reflexivity|]. right. split; [reflexivity|]. nia.
Qed.

(** A positive integer below [2 ^ 53], as a Number. *)
Lemma of_Z_repr t :
  (0 < t < 2 ^ 53)%Z ->
  exists m e,
    Prim2SF (of_Z t) = S754_finite false m e /\
    (-52 <= e <= 0)%Z /\ Zpos m = (t * 2 ^ (- e))%Z /\
    (2 ^ 52 <= Zpos m < 2 ^ 53)%Z.
Proof.
  intros Ht. unfold of_Z.
  assert (Hv : binary_normalize prec emax t 0 false =
               Prim2SF (of_uint63 (Uint63Axioms.of_Z t))).
  { rewrite of_uint63_spec, Stdlib.Numbers.Cyclic.Int63.Uint63.of_Z_spec.
    rewrite Z.mod_small; [reflexivity|].
    assert (2 ^ 53 < Uint63Axioms.wB)%Z by reflexivity. lia. }
  rewrite Prim2SF_SF2Prim by (rewrite Hv; apply Prim2SF_valid).
  destruct t as [|p|p]; try lia. cbn [binary_normalize].
  apply (binary_round_exact p 0 (Zpos p)); [lia|lia|simpl; lia].
Qed.

Lemma of_Z_lt a b :
  (0 <= a < b)%Z -> (b < 2 ^ 53)%Z -> (of_Z a <? of_Z b) = true.
Proof.
  intros Hab Hb.
  destruct (of_Z_repr b ltac:(lia)) as (mb & eb & Hfb & Heb & Hmb & Hnb).
  assert (Hnnb : is_nan (of_Z b) = false)
    by (apply not_nan_spec; rewrite Hfb; discriminate).
  destruct (Z.eq_dec a 0) as [->|Hna].
  - rewrite ltb_spec, Hfb. reflexivity.
  - destruct (of_Z_repr a ltac:(lia)) as (ma & ea & Hfa & Hea & Hma & Hnma).
    assert (Hnna : is_nan (of_Z a) = false)
      by (apply not_nan_spec; rewrite Hfa; discriminate).
    apply (ltb_rk _ _ Hnna Hnnb). unfold rk. rewrite Hfa, Hfb. cbn [rank].
    apply normal_lt3; try assumption; try lia.
    rewrite Hma, Hmb.
    assert (0 < 2 ^ (- ea) * 2 ^ (- eb))%Z
      by (apply Z.mul_pos_pos; apply Z.pow_pos_nonneg; lia).
    nia.
Qed.

(** A value from the normal Number [mt * 2 ^ et] up to that Number plus
    one (which is [2 ^ (- et)] units of [2 ^ et]) rounds into the same
    interval. *)
Lemma binary_round_between (S : positive) (ez : Z) (mt : positive) (et : Z) :
  (2 ^ 52 <= Zpos mt)%Z -> (-52 <= et <= 0)%Z -> (ez <= et)%Z ->
  (Zpos mt + 2 ^ (- et) <= 2 ^ 53)%Z ->
  (Zpos mt * 2 ^ (et - ez) <= Zpos S
   < (Zpos mt + 2 ^ (- et)) * 2 ^ (et - ez))%Z ->
  exists m e,
    binary_round prec emax false S ez = S754_finite false m e /\
    (2 ^ 52 <= Zpos m < 2 ^ 53)%Z /\
    ((e = et /\ Zpos mt <= Zpos m <= Zpos mt + 2 ^ (- et))%Z \/
     (e = et + 1 /\ Zpos m = 2 ^ 52 /\ Zpos mt + 2 ^ (- et) = 2 ^ 53)%Z).
Proof.
  intros Hmt Het Hez Htop [Hlo Hhi].
  set (k := (et - ez)%Z) in *.
  assert (Hpk : (0 < 2 ^ k)%Z) by (apply Z.pow_pos_nonneg; unfold k; lia).
  assert (Hpt : (0 < 2 ^ (- et))%Z) by (apply Z.pow_pos_nonneg; lia).
  assert (Hd : Zpos (digits2_pos S) = (53 + k)%Z).
  { apply digits2_pos_eq; [unfold k; lia|].
    replace (53 + k - 1)%Z with (52 + k)%Z by lia.
    rewrite !Z.pow_add_r by (unfold k; lia). split; nia. }
  unfold binary_round. rewrite fexp_eq, Hd.
  replace (Z.max (53 + k + ez - 53) (-1074)) with et by (unfold k; lia).
  rewrite shl_align_ge by lia.
  unfold binary_round_aux.
  destruct (first_stage S ez) as (mrs' & e' & -> & Hno & Hsh).
  cbv zeta in Hno, Hsh. rewrite Hd in Hno, Hsh.
  replace (Z.max (53 + k + ez - 53) (-1074)) with et in Hno, Hsh
    by (unfold k; lia).
  set (m1 := round_nearest_even (shr_m mrs') (loc_of_shr_record mrs')) in *.
  clearbody m1.
  assert (H1 : (Zpos mt <= m1 <= Zpos mt + 2 ^ (- et))%Z /\ e' = et).
  { destruct (Z_le_gt_dec et ez) as [Hle|Hgt].
    - destruct (Hno Hle) as [H1 H2]. assert (Hk0 : k = 0%Z) by (unfold k; lia).
      rewrite Hk0, Z.mul_1_r in Hlo, Hhi. split; lia.
    - destruct (Hsh ltac:(lia)) as [H2 Hm1]. fold k in Hm1.
      assert (Hq1 : (Zpos mt <= Zpos S / 2 ^ k)%Z)
        by (apply Z.div_le_lower_bound; lia).
      assert (Hq2 : (Zpos S / 2 ^ k < Zpos mt + 2 ^ (- et))%Z)
        by (apply Z.div_lt_upper_bound; lia).
      split; [|exact H2]. destruct Hm1 as [H|[H _]]; lia. }
  destruct H1 as [Hm1 ->].
  destruct (second_stage m1 et ltac:(lia) ltac:(lia))
    as (mrs'' & e'' & -> & Hsame & Hcarry).
  destruct (Z.eq_dec m1 (2 ^ 53)) as [Hc|Hnc].
  - destruct (Hcarry Hc) as [-> ->].
    change (2 ^ 52)%Z with (Zpos (2 ^ 52)). cbv iota.
    replace (et + 1 <=? emax - prec)%Z with true
      by (symmetry; apply Z.leb_le; change (emax - prec)%Z with 971%Z; lia).
    exists (2 ^ 52)%positive, (et + 1)%Z. split; [reflexivity|].
    change (Zpos (2 ^ 52)) with (2 ^ 52)%Z.
    split; [lia|]. right. lia.
  - destruct (Hsame ltac:(lia)) as [-> ->].
    destruct m1 as [|mf|mf]; try lia.
    replace (et <=? emax - prec)%Z with true
      by (symmetry; apply Z.leb_le; change (emax - prec)%Z with 971%Z; lia).
    exists mf, et. split; [reflexivity|]. split; [lia|]. left. lia.
Qed.

(** [Date.now() + Math.random()] lies between the clock and the clock
    plus one. *)
Lemma clock_plus_draw t r :
  (1 <= t < 2 ^ 52)%Z -> (0 <=? r) = true -> (r <? 1) = true ->
  (of_Z t <=? of_Z t + r) = true /\ (of_Z t + r <=? of_Z (t + 1)) = true.
Proof.
  intros Ht H0 H1.
  assert (H5253 : (2 ^ 52 < 2 ^ 53)%Z) by reflexivity.
  destruct (of_Z_repr t ltac:(lia)) as (mt & et & Hft & Het & Hmt & Hnt).
  destruct (of_Z_repr (t + 1) ltac:(lia)) as (mu & eu & Hfu & Heu & Hmu & Hnu).
  assert (Hnant : is_nan (of_Z t) = false)
    by (apply not_nan_spec; rewrite Hft; discriminate).
  assert (Hnanu : is_nan (of_Z (t + 1)) = false)
    by (apply not_nan_spec; rewrite Hfu; discriminate).
  assert (Hpt : (0 < 2 ^ (- et))%Z) by (apply Z.pow_pos_nonneg; lia).
  assert (Hpu : (0 < 2 ^ (- eu))%Z) by (apply Z.pow_pos_nonneg; lia).
  pose proof (add_spec (of_Z t) r) as Hadd. rewrite Hft in Hadd.
  destruct (unit_interval_spec r H0 H1)
    as [[s Hr]|(mr & er & Hr & Hmr & Hmr53 & Her)]; rewrite Hr in Hadd.
  - (* the draw is zero *)
    simpl in Hadd.
    assert (Hnan : is_nan (of_Z t + r) = false)
      by (apply not_nan_spec; rewrite Hadd; discriminate).
    split.
    + apply (leb_rk _ _ Hnant Hnan). right. unfold rk. now rewrite Hadd, Hft.
    + apply (leb_rk _ _ Hnan Hnanu). left.
      replace (rk (of_Z t + r)) with (rk (of_Z t))
        by (unfold rk; now rewrite Hadd, Hft).
      apply (ltb_rk _ _ Hnant Hnanu). apply of_Z_lt; lia.
  - unfold SF64add, SFadd in Hadd. cbn [cond_Zopp] in Hadd.
    set (ez := Z.min et er) in *.
    destruct (shl_align_value mt et ez ltac:(unfold ez; lia)) as (a & Ea & Ha).
    destruct (shl_align_value mr er ez ltac:(unfold ez; lia)) as (b & Eb & Hb).
    rewrite Ea, Eb in Hadd. cbn [fst] in Hadd.
    change (Zpos a + Zpos b)%Z with (Zpos (a + b)) in Hadd.
    cbn [binary_normalize] in Hadd.
    assert (Hpk : (0 < 2 ^ (et - ez))%Z)
      by (apply Z.pow_pos_nonneg; unfold ez; lia).
    assert (Hpk' : (0 < 2 ^ (er - ez))%Z)
      by (apply Z.pow_pos_nonneg; unfold ez; lia).
    assert (Hb' : (Zpos b < 2 ^ (- et) * 2 ^ (et - ez))%Z).
    { rewrite <- Z.pow_add_r by (unfold ez; lia).
      replace (- et + (et - ez))%Z with (- er + (er - ez))%Z by lia.
      rewrite Z.pow_add_r by (unfold ez; lia). rewrite Hb. nia. }
    assert (Htop : (Zpos mt + 2 ^ (- et) <= 2 ^ 53)%Z).
    { assert (Hs : (2 ^ 53 = 2 ^ (53 + et) * 2 ^ (- et))%Z).
      { rewrite <- Z.pow_add_r by lia. f_equal. lia. }
      rewrite Hmt, Hs in *.
      assert (t < 2 ^ (53 + et))%Z by nia. nia. }
    destruct (binary_round_between (a + b) ez mt et
                ltac:(lia) Het ltac:(unfold ez; lia) Htop)
      as (m & e & Hres & Hnm & Hcases).
    { rewrite Pos2Z.inj_add, Ha. split; [lia|]. nia. }
    rewrite Hres in Hadd.
    assert (Hnan : is_nan (of_Z t + r) = false)
      by (apply not_nan_spec; rewrite Hadd; discriminate).
    assert (Het1 : (et <= -1)%Z).
    { destruct (Z.eq_dec et 0) as [E0|E0]; [|lia]. exfalso.
      rewrite E0 in Hmt. change (2 ^ (- 0))%Z with 1%Z in Hmt. lia. }
    split.
    + apply (leb_le3 _ _ Hnant Hnan). unfold rk. rewrite Hadd, Hft.
      cbn [rank]. unfold le3. destruct Hcases as [[-> Hb1]|[-> _]]; lia.
    + apply (leb_le3 _ _ Hnan Hnanu). unfold rk. rewrite Hadd, Hfu.
      cbn [rank].
      assert (Hu : (Zpos mt + 2 ^ (- et) = (t + 1) * 2 ^ (- et))%Z)
        by (rewrite Hmt; ring).
      destruct Hcases as [[-> Hb1]|[-> [Hm52 H53]]].
      * apply normal_le3; try assumption; try lia.
        rewrite Hmu.
        assert (Zpos m * 2 ^ (- eu) <= (t + 1) * 2 ^ (- et) * 2 ^ (- eu))%Z
          by nia.
        lia.
      * apply normal_le3; try assumption; try lia.
        rewrite Hmu, Hm52.
        assert (Hs : (2 ^ (- et) = 2 ^ (- (et + 1)) * 2)%Z).
        { replace (- et)%Z with (- (et + 1) + 1)%Z by lia.
          rewrite Z.pow_add_r by lia. reflexivity. }
        assert (Hp1 : (0 < 2 ^ (- (et + 1)))%Z)
          by (apply Z.pow_pos_nonneg; lia).
        rewrite Hu, Hs in H53. change (2 ^ 53)%Z with (2 ^ 52 * 2)%Z in H53.
        assert ((t + 1) * 2 ^ (- (et + 1)) = 2 ^ 52)%Z by lia.
        nia.
Qed.

Lemma leb_trans x y z :
  (x <=? y) = true -> (y <=? z) = true -> (x <=? z) = true.
Proof.
  intros H1 H2.
  destruct (leb_not_nan _ _ H1) as [Hx Hy], (leb_not_nan _ _ H2) as [_ Hz].
  apply (leb_le3 _ _ Hx Hy) in H1. apply (leb_le3 _ _ Hy Hz) in H2.
  apply (leb_le3 _ _ Hx Hz). rk_lia.
Qed.

Lemma of_Z_le a b :
  (0 <= a <= b)%Z -> (b < 2 ^ 53)%Z -> (of_Z a <=? of_Z b) = true.
Proof.
  intros Hab Hb. destruct (Z.eq_dec a b) as [->|Hne].
  - destruct (Z.eq_dec b 0) as [->|Hb0]; [reflexivity|].
    destruct (of_Z_repr b ltac:(lia)) as (m & e & Hf & _).
    assert (Hn : is_nan (of_Z b) = false)
      by (apply not_nan_spec; rewrite Hf; discriminate).
    apply (leb_rk _ _ Hn Hn). now right.
  - pose proof (of_Z_lt a b ltac:(lia) Hb) as Hlt.
    destruct (ltb_not_nan _ _ Hlt) as [Ha Hb'].
    apply (leb_rk _ _ Ha Hb'). left. now apply (ltb_rk _ _ Ha Hb').
Qed.

(** An id above a bound is none of the ids below a smaller bound. *)
Lemma above_is_new (ids : list number) (lo hi x : number) :
  (forall y, In y ids -> (y <=? lo) = true) ->
  (lo <? hi) = true -> (hi <=? x) = true -> ~ In x ids.
Proof.
  intros Hids Hlt Hle Hin. specialize (Hids x Hin).
  destruct (leb_not_nan _ _ Hids) as [Hx Hlo].
  destruct (leb_not_nan _ _ Hle) as [Hhi _].
  apply (leb_le3 _ _ Hx Hlo) in Hids. apply (leb_le3 _ _ Hhi Hx) in Hle.
  apply (ltb_rk _ _ Hlo Hhi) in Hlt. rk_lia.
Qed.

Section PelletIds.

Context {rt : Runtime} {en : Entropy}.

Hypothesis draws_in_unit : unit_draws en.

Lemma ids_inv_raise top top' w :
  (0 <= top <= top')%Z -> (top' < 2 ^ 53)%Z ->
  ids_inv top w -> ids_inv top' w.
Proof.
  intros Ht Ht' [Hnd Hb]. split; [exact Hnd|].
  intros p Hin. eapply leb_trans; [apply Hb; exact Hin|].
  now apply of_Z_le.
Qed.

Lemma boot_ids_inv : ids_inv 1199 boot.
Proof.
  unfold ids_inv, boot.
  destruct (generateInitialPellets_eq MAX_PELLETS (mkWorld [] [] 0 0 []))
    as (Hp & _).
  rewrite Hp. clear Hp. rewrite map_map. cbn [initialPellet Pellet.id].
  assert (Hall : forallb
                   (fun i => match to_integer (of_nat i) with
                             | Some z => (Z.to_nat z =? i)%nat
                             | None => false
                             end && (of_nat i <=? of_Z 1199))
                   (seq 0 MAX_PELLETS) = true)
    by (vm_compute; reflexivity).
  rewrite forallb_forall in Hall. split.
  - apply (NoDup_map_on of_nat
             (fun f => match to_integer f with
                       | Some z => Some (Z.to_nat z)
                       | None => None
                       end));
      [|apply seq_NoDup].
    intros i Hin. specialize (Hall i Hin).
    apply andb_prop in Hall. destruct Hall as [Hall _].
    destruct (to_integer (of_nat i)) as [z|]; [|discriminate].
    apply Nat.eqb_eq in Hall. now rewrite Hall.
  - intros p Hin. apply in_map_iff in Hin. destruct Hin as (i & <- & Hin).
    specialize (Hall i Hin). apply andb_prop in Hall. apply Hall.
Qed.

Lemma phases_ids_inv t last w :
  (-1 <= last)%Z -> (last + 2 <= t < 2 ^ 52)%Z ->
  ids_inv (last + 1) w ->
  ids_inv (t + 1) (regrowPhase (of_Z t) (killPhase (pelletPhase w))).
Proof.
  intros Hlast Ht [Hnd Hb].
  assert (H5253 : (2 ^ 52 < 2 ^ 53)%Z) by reflexivity.
  set (w2 := killPhase (pelletPhase w)).
  assert (Hsub : forall p, In p (pellets w2) -> In p (pellets w)).
  { intros p Hin. apply pelletPhase_pellets_in.
    destruct (killPhase_older (pelletPhase w)) as (Hp & _).
    unfold w2 in Hin. now rewrite Hp in Hin. }
  assert (Hnd2 : NoDup (map Pellet.id (pellets w2))).
  { destruct (killPhase_older (pelletPhase w)) as (Hp & _).
    unfold w2. rewrite Hp. unfold pelletPhase, Obj.entries.
    pose proof (eatPellets_meals (players w) (pellets w)) as H.
    destruct (eatPellets (players w) (pellets w)) as [es ps].
    destruct H as (_ & HP & _). simpl.
    apply (Permutation_map Pellet.id) in HP. rewrite map_app in HP.
    eapply NoDup_app_remove_r. eapply Permutation_NoDup; [exact HP|exact Hnd]. }
  assert (Hb2 : forall p, In p (pellets w2) ->
                          (Pellet.id p <=? of_Z (last + 1)) = true)
    by (intros p Hin; apply Hb; now apply Hsub).
  unfold ids_inv. rewrite regrowPhase_pellets.
  destruct (_ && _)%bool.
  - destruct (draws_in_unit (3 + draws w2)%nat) as [H0 H1].
    destruct (clock_plus_draw t (Math_random_at (3 + draws w2)%nat)
                ltac:(lia) H0 H1) as [Hlo Hhi].
    split.
    + rewrite map_app. cbn [map Pellet.id].
      apply NoDup_app; [exact Hnd2|repeat constructor; auto|].
      intros x Hx [<-|[]]. revert Hx.
      apply (above_is_new _ (of_Z (last + 1)) (of_Z t)); [| |exact Hlo].
      * intros y Hy. apply in_map_iff in Hy. destruct Hy as (p & <- & Hp).
        now apply Hb2.
      * apply of_Z_lt; lia.
    + intros p Hin. apply in_app_or in Hin. destruct Hin as [Hin|[<-|[]]].
      * eapply leb_trans; [apply Hb2; exact Hin|]. apply of_Z_le; lia.
      * exact Hhi.
  - split; [exact Hnd2|].
    intros p Hin. eapply leb_trans; [apply Hb2; exact Hin|].
    apply of_Z_le; lia.
Qed.

Lemma run_ids_inv gameLoop es last w w' :
  gameLoop = ServerJs.gameLoop \/ gameLoop = AntiLag.gameLoop ->
  (-1 <= last < 2 ^ 52)%Z ->
  timed last es -> ids_inv (last + 1) w ->
  run gameLoop es w = Normal w' ->
  NoDup (map Pellet.id (pellets w')).
Proof.
  intros Hloop. revert last w.
  induction es as [|e es IH]; intros last w Hlast Htimed Hinv; simpl run.
  - intros E. injection E as <-. apply Hinv.
  - destruct (step gameLoop e w) as [w1|] eqn:Hs; [|discriminate].
    destruct e as [id|id data|id raw|id|now];
      try (apply (IH last w1 Hlast Htimed);
           destruct (handlers_frame _ _ _ _ Hs ltac:(intros; discriminate))
             as [_ Hp];
           unfold ids_inv; rewrite Hp; exact Hinv).
    destruct Htimed as (t & -> & Ht & Htimed).
    apply (IH t w1 ltac:(lia) Htimed).
    simpl in Hs. injection Hs as <-. destruct Hloop as [-> | ->].
    + exact (phases_ids_inv t last w ltac:(lia) Ht Hinv).
    + unfold AntiLag.gameLoop, AntiLag.broadcast. rewrite phases_with_tick.
      exact (phases_ids_inv t last w ltac:(lia) Ht Hinv).
Qed.

End PelletIds.

(** X27.  When every draw is in [[0, 1)] and the clock read by the ticks
    is an integer number of milliseconds, at least 1200, below [2 ^ 52]
    and at least 2 more at each tick than at the tick before, the ids of
    the pellets are distinct in every state of a run of either server
    from startup: an id [Date.now() + Math.random()] lies between the
    clock and the clock plus one, above the initial ids and the ids of
    the ticks before. *)
Theorem pellet_ids_are_distinct {rt : Runtime} {en : Entropy}
    (gameLoop : number -> World -> World) (es : list Event) (w : World) :
  unit_draws en ->
  gameLoop = ServerJs.gameLoop \/ gameLoop = AntiLag.gameLoop ->
  timed 1198 es ->
  run gameLoop es boot = Normal w ->
  NoDup (map Pellet.id (pellets w)).
Proof.
  intros Hu Hloop Htimed Hrun.
  apply (run_ids_inv Hu gameLoop es 1198 boot w Hloop); try assumption.
  - split; [lia|reflexivity].
  - exact boot_ids_inv.
Qed.

(** ** The broadcast of the two files, and the counter behind it *)

Section BroadcastOfBoth.

Context {rt : Runtime} {en : Entropy}.

(** C1, as the code has it.  In the anti-lag revision every tick adds one
    to the counter and then broadcasts exactly one [state] message to all
    sockets, after the kill notifications of the tick; its [players]
    member is the whole [players] object as the tick left it; its
    [pellets] member is the pellet array when the counter is a multiple
    of 4 and is absent on every other tick; and in a state reached from
    startup the counter after the tick is the number of ticks made so
    far, this one included (it stops at 2^53).  [server.js] has no
    counter: every tick broadcasts exactly one [state] message, after the
    kill notifications, with the whole [players] object and with the
    pellet array. *)
Theorem C1_state_every_tick_pellets_every_fourth (now : number) (w : World) :
  let wA := AntiLag.gameLoop now w in
  let wS := ServerJs.gameLoop now w in
  (tick wA = AntiLag.incr (tick w) /\
   exists notes,
     forallb is_kill_note notes = true /\
     outbox wA =
       outbox w ++ notes ++
       [all (state (players wA)
               (if (Z.rem (tick wA) 4 =? 0)%Z
                then Some (pellets wA) else None))]) /\
  (forall es,
     run AntiLag.gameLoop es boot = Normal w ->
     tick wA = Z.min (Z.of_nat (count_ticks es) + 1) (2 ^ 53)) /\
  (tick wS = tick w /\
   exists notes,
     forallb is_kill_note notes = true /\
     outbox wS =
       outbox w ++ notes ++ [all (state (players wS) (Some (pellets wS)))]).
Proof.
  cbv zeta. split; [|split].
  - unfold AntiLag.gameLoop, AntiLag.broadcast.
    rewrite phases_with_tick.
    destruct (phases_frame now w) as (Ht & notes & Hn & Ho).
    cbn [tick with_tick emit players pellets outbox].
    split; [reflexivity|].
    exists notes. split; [exact Hn|].
    now rewrite Ho, <- app_assoc.
  - intros es Hrun. rewrite AntiLag_tick.
    rewrite (AntiLag_tick_counts _ _ _ Hrun).
    destruct boot_frame as (_ & -> & _). rewrite incr_iter.
    unfold AntiLag.incr.
    destruct (Z.ltb_spec (Z.min (Z.of_nat (count_ticks es)) (2 ^ 53)) (2 ^ 53));
      lia.
  - unfold ServerJs.gameLoop, ServerJs.broadcast.
    destruct (phases_frame now w) as (Ht & notes & Hn & Ho).
    cbn [tick with_tick emit players pellets outbox].
    split; [exact Ht|].
    exists notes. split; [exact Hn|].
    now rewrite Ho, <- app_assoc.
Qed.

End BroadcastOfBoth.

(** ** The pellet cap and the id of a regrown pellet *)

Section RegrownPellet.

Context {en : Entropy}.

(** C6, as the code has it.  A tick that starts with at most
    [MAX_PELLETS] pellets ends with at most [MAX_PELLETS] pellets, in
    either file.  The pellet and kill passes add none.  The regrowth step
    appends exactly one pellet when the array is shorter than
    [MAX_PELLETS] and the draw is below 0.2, and leaves the array as it is
    otherwise, so a tick adds at most one pellet.  The id of the new
    pellet is [Date.now()] plus a draw made for it, and nothing compares
    it with the ids in the array.  When every draw is in [[0, 1)], the
    clock read by the tick is an integer [t] below [2 ^ 52], and the ids
    in the array at the start of the tick are distinct and at most
    [last + 1] for an integer [last] from -1 to [t - 2], the ids in the
    array at the end of the tick are distinct and at most [t + 1]. *)
Theorem C6_pellet_cap (now : number) (w : World) :
  (List.length (pellets w) <= MAX_PELLETS)%nat ->
  let w2 := killPhase (pelletPhase w) in
  let w3 := regrowPhase now w2 in
  let fresh := now + Math_random_at (3 + draws w2) in
  pellets (ServerJs.gameLoop now w) = pellets w3 /\
  pellets (AntiLag.gameLoop now w) = pellets w3 /\
  (List.length (pellets w2) <= List.length (pellets w))%nat /\
  (List.length (pellets w3) <= MAX_PELLETS)%nat /\
  (List.length (pellets w3) <= S (List.length (pellets w)))%nat /\
  pellets w3 =
    (if ((List.length (pellets w2) <? MAX_PELLETS)%nat
         && (Math_random_at (draws w2) <? 0.2))%bool
     then pellets w2 ++
          [Pellet.mk fresh
             (Math_random_at (1 + draws w2) * (MAP_WIDTH - 0) + 0)
             (Math_random_at (2 + draws w2) * (MAP_HEIGHT - 0) + 0)]
     else pellets w2) /\
  (forall t last : Z,
     unit_draws en ->
     now = of_Z t ->
     (-1 <= last)%Z -> (last + 2 <= t < 2 ^ 52)%Z ->
     ids_inv (last + 1) w ->
     ids_inv (t + 1) w3).
Proof.
  intros Hcap. cbv zeta.
  set (w2 := killPhase (pelletPhase w)).
  assert (H2 : (List.length (pellets w2) <= List.length (pellets w))%nat).
  { destruct (killPhase_older (pelletPhase w)) as (Hp & _).
    unfold w2. rewrite Hp. apply pelletPhase_length. }
  pose proof (regrowPhase_pellets now w2) as H3.
  split.
  { reflexivity. }
  split.
  { unfold AntiLag.gameLoop, AntiLag.broadcast.
    now rewrite phases_with_tick. }
  split; [exact H2|].
  assert (Hids : forall t last : Z,
             unit_draws en -> now = of_Z t ->
             (-1 <= last)%Z -> (last + 2 <= t < 2 ^ 52)%Z ->
             ids_inv (last + 1) w -> ids_inv (t + 1) (regrowPhase now w2)).
  { intros t last Hu -> Hlast Ht Hinv.
    exact (phases_ids_inv Hu t last w Hlast Ht Hinv). }
  assert (Hlen : (List.length (pellets (regrowPhase now w2)) <= MAX_PELLETS)%nat
                 /\ (List.length (pellets (regrowPhase now w2))
                     <= S (List.length (pellets w)))%nat).
  { rewrite H3.
    destruct (List.length (pellets w2) <? MAX_PELLETS)%nat eqn:Hlt;
      [apply Nat.ltb_lt in Hlt|apply Nat.ltb_ge in Hlt];
      (destruct (Math_random_at (draws w2) <? 0.2); cbn [andb];
       (try rewrite !length_app); cbn [List.length]; lia). }
  destruct Hlen as [Hlen1 Hlen2].
  split; [exact Hlen1|]. split; [exact Hlen2|].
  split; [exact H3|exact Hids].
Qed.

End RegrownPellet.

(** * The statements on concrete worlds *)

#[local] Existing Instance demoRuntime.
#[local] Existing Instance demoEntropy.

(** The scenarios of the specification, run. *)

Example scenario1_containment_kill :
  players (killPhase scenario1) =
    [("a", Player.mk 0 0 125 100 (Some "#00e5ff") "A");
     ("b", Player.mk 2000 1000 0 25 (Some "#ffb300") "B")]%string /\
  outbox (killPhase scenario1) = [to "a" (youAtePlayer 0 "B"); to "b" youDied].
Proof. split; reflexivity. Qed.

Example scenario2_no_kill : killPhase scenario2 = scenario2.
Proof. reflexivity. Qed.

Example scenario3_pellets_eaten :
  players (pelletPhase scenario3) =
    [("a", Player.mk 10 10 2 (25 + 2 * 0.6) None "A")]%string /\
  pellets (pelletPhase scenario3) = [Pellet.mk 1 500 500].
Proof. split; reflexivity. Qed.

Example scenario3_first_growth :
  Player.radius (grow (Player.mk 10 10 0 20 None "A")) = 25.6.
Proof. reflexivity. Qed.

Example scenario4_blank_name : sanitizeName (String "   ") = "Anonyme"%string.
Proof. reflexivity. Qed.

Example scenario4_long_name :
  sanitizeName (String "abcdefghijklmnopqrstuvwxyz0123") =
  "abcdefghijklmnopqrst"%string.
Proof. reflexivity. Qed.

Example scenario4_not_a_string : sanitizeName (Number 7) = "Anonyme"%string.
Proof. reflexivity. Qed.

Example infinite_target_is_clamped :
  Math_max 25 (Math_min (MAP_WIDTH - 25) infinity) = 3975 /\
  Math_max 25 (Math_min (MAP_WIDTH - 25) neg_infinity) = 25.
Proof. split; reflexivity. Qed.

Example halved_score_is_floored : Math_floor (125 * 0.5) = 62.
Proof. reflexivity. Qed.

Example tick_four_sends_pellets :
  outbox (AntiLag.gameLoop 1700000000000 scenario3) =
    [all (state [("a", Player.mk 10 10 2 (25 + 2 * 0.6) None "A")]%string
            (Some [Pellet.mk 1 500 500]))] /\
  outbox (AntiLag.gameLoop 1700000000000 (with_tick 4 scenario3)) =
    [all (state [("a", Player.mk 10 10 2 (25 + 2 * 0.6) None "A")]%string None)].
Proof. split; reflexivity. Qed.

(** Scenario 5: radius 25, move to (-500, 10000), stored (25, 3975). *)
Example scenario5_clamp :
  onMove "a" (Some {| data_x := Number (-500); data_y := Number 10000 |})
    scenario5 =
  Normal
    (mkWorld [("a", Player.mk 25 3975 0 25 (Some "#00e5ff") "A")]%string
       [] 0 0 []).
Proof. reflexivity. Qed.

(** C8 on scenario 5. *)
Lemma C8_move_clamps_scenario5 :
  Obj.get (players scenario5) "a" =
    Some (Player.mk 100 100 0 25 (Some "#00e5ff"%string) "A") /\
  is_nan (-500) = false /\
  is_nan 10000 = false /\
  (25 <=? MAP_WIDTH - 25) = true /\
  (25 <=? MAP_HEIGHT - 25) = true /\
  exists w' x' y',
    onMove "a" (Some {| data_x := Number (-500); data_y := Number 10000 |})
      scenario5 = Normal w' /\
    Obj.get (players w') "a" =
      Some (Player.mk x' y' 0 25 (Some "#00e5ff"%string) "A") /\
    (x' =? 25) = true /\
    (y' =? 3975) = true /\
    ((0 <? 25) = true -> x' = 25 /\ y' = 3975) /\
    within 25 (MAP_WIDTH - 25) x' = true /\
    within 25 (MAP_HEIGHT - 25) y' = true /\
    (forall id, id <> "a"%string ->
                Obj.get (players w') id = Obj.get (players scenario5) id) /\
    Obj.keys (players w') = Obj.keys (players scenario5) /\
    pellets w' = pellets scenario5 /\
    outbox w' = outbox scenario5.
Proof.
  repeat (split; [reflexivity|]).
  exact (C8_move_clamps "a"
           (Player.mk 100 100 0 25 (Some "#00e5ff"%string) "A")
           (-500) 10000 scenario5
           eq_refl eq_refl eq_refl eq_refl eq_refl).
Defined.

(** C2 fails as worded: a player can outgrow half the map.  After the long
    session the player "a" has eaten 3299 pellets and has radius 2004.4;
    its move to the centre of the map is applied, and the position
    stored, (2004.4, 2004.4), is not in [[r, 4000 - r]], which is empty. *)
Lemma C2_large_player_move_leaves_the_rectangle :
  match
    playerAfter demoEntropy
      (longSession
       ++ [Move "a" (Some {| data_x := Number 2000; data_y := Number 2000 |})])
  with
  | Some p' => radius_ok p' /\ contained p' = false
  | None => False
  end.
Proof. vm_compute. split; reflexivity. Qed.

(** C8 fails as worded, on the same player: its move to (3000, 3000) stores
    (2004.4, 2004.4), which is neither the clamp of 3000 into
    [[r, 4000 - r]] nor a point of that interval. *)
Lemma C8_large_player_move_is_not_the_clamp :
  match
    playerAfter demoEntropy longSession,
    playerAfter demoEntropy
      (longSession
       ++ [Move "a" (Some {| data_x := Number 3000; data_y := Number 3000 |})])
  with
  | Some p, Some p' =>
      let r := Player.radius p in
      (Player.x p' =? clamp r (MAP_WIDTH - r) 3000) = false /\
      within r (MAP_WIDTH - r) (Player.x p') = false /\
      (r <=? MAP_WIDTH - r) = false
  | _, _ => False
  end.
Proof. vm_compute. repeat split; reflexivity. Qed.

(** C2 on a player that has just joined and moves to (-500, 10000). *)
Lemma C2_radius_formula_and_position_after_move_joined :
  (ServerJs.gameLoop = ServerJs.gameLoop
   \/ ServerJs.gameLoop = AntiLag.gameLoop) /\
  reachable ServerJs.gameLoop (onConnection "a" boot) /\
  Obj.get (players (onConnection "a" boot)) "a" =
    Some (Player.mk 500 500 0 25 (Some "#00e5ff"%string) "Anonyme") /\
  radius_ok (Player.mk 500 500 0 25 (Some "#00e5ff"%string) "Anonyme") /\
  exists w' p',
    onMove "a" (Some {| data_x := Number (-500); data_y := Number 10000 |})
      (onConnection "a" boot) = Normal w' /\
    Obj.get (players w') "a" = Some p' /\
    radius_ok p' /\
    contained p' = true.
Proof.
  assert (Hloop : ServerJs.gameLoop = ServerJs.gameLoop
                  \/ ServerJs.gameLoop = AntiLag.gameLoop) by now left.
  assert (Hreach : reachable ServerJs.gameLoop (onConnection "a" boot))
    by (exists [Connect "a"]; reflexivity).
  assert (Hget : Obj.get (players (onConnection "a" boot)) "a" =
                 Some (Player.mk 500 500 0 25 (Some "#00e5ff"%string) "Anonyme"))
    by (vm_compute; reflexivity).
  destruct (C2_radius_formula_and_position_after_move
              ServerJs.gameLoop (onConnection "a" boot) "a" _
              Hloop Hreach Hget) as [Hok Hmove].
  repeat (split; [assumption|]).
  exact (Hmove (-500) 10000 eq_refl eq_refl eq_refl eq_refl).
Defined.

(** C7 fails on the code: a move whose [x] is missing.  [data.x] is
    [undefined], [Math.min] and [Math.max] return NaN, and NaN is stored:
    the player is no longer in the rectangle.  And a move with no argument
    at all throws, in either file. *)
Lemma C7_move_without_x_stores_NaN :
  match
    run ServerJs.gameLoop
      [Connect "a";
       Move "a" (Some {| data_x := Undefined; data_y := Number 100 |})]
      boot
  with
  | Normal w' =>
      match Obj.get (players w') "a" with
      | Some p' => is_nan (Player.x p') = true /\ contained p' = false
      | None => False
      end
  | Throw => False
  end /\
  run ServerJs.gameLoop [Connect "a"; Move "a" None] boot = Throw /\
  run AntiLag.gameLoop [Connect "a"; Move "a" None] boot = Throw.
Proof. vm_compute. repeat split; reflexivity. Qed.

(** C3 on scenario 1: A eats B by full containment. *)
Lemma C3_pair_evaluation_scenario1 :
  "a"%string <> "b"%string /\
  Obj.get (players scenario1) "a" = Some playerA /\
  Obj.get (players scenario1) "b" = Some playerB /\
  (forall w0,
      killPhase w0 =
      fold_left (fun w p => pairBody (fst p) (snd p) w)
        (pairs (Obj.keys (players w0))) w0) /\
  (forall ids,
      NoDup ids -> In "a"%string ids -> In "b"%string ids ->
      NoDup (pairs ids) /\
      (In ("a", "b")%string (pairs ids) \/ In ("b", "a")%string (pairs ids)) /\
      ~ (In ("a", "b")%string (pairs ids) /\ In ("b", "a")%string (pairs ids))) /\
  let w' := pairBody "a" "b" scenario1 in
  if Player.score playerA =? Player.score playerB then w' = scenario1
  else
    let '((eaterId, eater), (preyId, prey)) := roles "a" "b" playerA playerB in
    (is_nan (Player.score playerA) = false ->
     is_nan (Player.score playerB) = false ->
     (Player.score prey <? Player.score eater) = true) /\
    (if Player.radius eater <=? Player.radius prey * 1.05 then w' = scenario1
     else
       (w' <> scenario1 <-> killCondition eater prey = true) /\
       (killCondition eater prey = true ->
        w' = kill eaterId preyId eater prey scenario1) /\
       (killCondition eater prey = false -> w' = scenario1)).
Proof.
  assert (Hne : "a"%string <> "b"%string) by discriminate.
  assert (Ha : Obj.get (players scenario1) "a" = Some playerA) by reflexivity.
  assert (Hb : Obj.get (players scenario1) "b" = Some playerB) by reflexivity.
  repeat (split; [assumption|]).
  exact (C3_pair_evaluation "a" "b" playerA playerB scenario1 Hne Ha Hb).
Defined.


(** C9 on a join into an empty world whose draws are all 0. *)
Lemma C9_spawn_not_inset_corner :
  let en := edgeEntropy in
  let w := mkWorld [] [] 0 0 [] in
  let r1 := @Math_random_at en (draws w) in
  let r2 := @Math_random_at en (S (draws w)) in
  (0 <=? r1) = true /\ (r1 <? 1) = true /\
  (0 <=? r2) = true /\ (r2 <? 1) = true /\
  let x := r1 * (MAP_WIDTH - 0) + 0 in
  let y := r2 * (MAP_HEIGHT - 0) + 0 in
  (exists c,
      Obj.get (players (@onConnection en "a" w)) "a" =
      Some (Player.mk x y 0 INITIAL_RADIUS c "Anonyme")) /\
  Obj.get (players (@kill en "b" "a" playerB playerA w)) "a" =
    Some (Player.mk x y 0 INITIAL_RADIUS
            (Player.color playerA) (Player.name playerA)) /\
  (0 <=? x) = true /\ (x <? MAP_WIDTH) = true /\
  (0 <=? y) = true /\ (y <? MAP_HEIGHT) = true /\
  (forall p,
      Player.x p = x -> Player.y p = y -> Player.radius p = INITIAL_RADIUS ->
      (x <? INITIAL_RADIUS) = true \/ (MAP_WIDTH - INITIAL_RADIUS <? x) = true \/
      (y <? INITIAL_RADIUS) = true \/ (MAP_HEIGHT - INITIAL_RADIUS <? y) = true ->
      contained p = false) /\
  (exists (en' : Entropy) (p0 p1 p2 : Player.t),
      playerAfter en' [Connect "a"] = Some p0 /\
      Player.x p0 = 0 /\ Player.y p0 = 0 /\ contained p0 = false /\
      playerAfter en' [Connect "a"; Tick 1700000000000] = Some p1 /\
      contained p1 = false /\
      playerAfter en'
        [Connect "a"; Tick 1700000000000;
         Move "a" (Some {| data_x := Number 100; data_y := Number 100 |})]
        = Some p2 /\
      contained p2 = true).
Proof.
  cbv zeta.
  repeat (split; [reflexivity|]).
  exact (@C9_spawn_not_inset edgeEntropy "a" "b" "a" playerB playerA
           (mkWorld [] [] 0 0 []) eq_refl eq_refl eq_refl eq_refl).
Defined.

(** The pellet cap, on the state after a first join. *)
Lemma reachable_pellet_cap_joined :
  (ServerJs.gameLoop = ServerJs.gameLoop
   \/ ServerJs.gameLoop = AntiLag.gameLoop) /\
  reachable ServerJs.gameLoop (onConnection "a" boot) /\
  (List.length (pellets (onConnection "a" boot)) <= MAX_PELLETS)%nat.
Proof.
  assert (Hloop : ServerJs.gameLoop = ServerJs.gameLoop
                  \/ ServerJs.gameLoop = AntiLag.gameLoop) by now left.
  assert (Hreach : reachable ServerJs.gameLoop (onConnection "a" boot))
    by (exists [Connect "a"]; reflexivity).
  split; [exact Hloop|]. split; [exact Hreach|].
  exact (reachable_pellet_cap ServerJs.gameLoop (onConnection "a" boot)
           Hloop Hreach).
Defined.

(** The tick counter after a join and two ticks. *)
Lemma AntiLag_reachable_tick_two_ticks :
  let es := [Tick 1700000000000; Connect "a"; Tick 1700000000050] in
  let w :=
    AntiLag.gameLoop 1700000000050
      (onConnection "a" (AntiLag.gameLoop 1700000000000 boot)) in
  run AntiLag.gameLoop es boot = Normal w /\
  tick w = Z.min (Z.of_nat (count_ticks es)) (2 ^ 53).
Proof.
  cbv zeta.
  assert (Hrun :
            run AntiLag.gameLoop
              [Tick 1700000000000; Connect "a"; Tick 1700000000050] boot =
            Normal
              (AntiLag.gameLoop 1700000000050
                 (onConnection "a" (AntiLag.gameLoop 1700000000000 boot))))
    by reflexivity.
  split; [exact Hrun|].
  exact (AntiLag_reachable_tick _ _ Hrun).
Defined.

(** A move, a rename and a disconnect of a socket that has no record. *)
Lemma stale_commands_are_ignored_scenario5 :
  Obj.get (players scenario5) "gone" = None /\
  onMove "gone" (Some {| data_x := Number 1; data_y := Number 2 |}) scenario5
    = Normal scenario5 /\
  onSetName "gone" (String "Bob") scenario5 = scenario5 /\
  players (onDisconnect "gone" scenario5) = players scenario5.
Proof.
  split; [reflexivity|].
  exact (stale_commands_are_ignored "gone"
           (Some {| data_x := Number 1; data_y := Number 2 |})
           (String "Bob") scenario5 eq_refl).
Defined.

(** B renames itself. *)
Lemma onSetName_spec_scenario1 :
  Obj.get (players scenario1) "b" = Some playerB /\
  let w' := onSetName "b" (String "  Bob  ") scenario1 in
  Obj.get (players w') "b" =
    Some (Player.mk (Player.x playerB) (Player.y playerB)
            (Player.score playerB) (Player.radius playerB)
            (Player.color playerB) (sanitizeName (String "  Bob  "))) /\
  (forall id, id <> "b"%string ->
              Obj.get (players w') id = Obj.get (players scenario1) id) /\
  Obj.keys (players w') = Obj.keys (players scenario1) /\
  pellets w' = pellets scenario1 /\ outbox w' = outbox scenario1 /\
  tick w' = tick scenario1.
Proof.
  split; [reflexivity|].
  exact (onSetName_spec "b" (String "  Bob  ") playerB scenario1 eq_refl).
Defined.

(** A leaves. *)
Lemma onDisconnect_spec_scenario1 :
  Obj.wf (players scenario1) /\
  let w' := onDisconnect "a" scenario1 in
  Obj.get (players w') "a" = None /\
  (forall id, id <> "a"%string ->
              Obj.get (players w') id = Obj.get (players scenario1) id) /\
  pellets w' = pellets scenario1 /\ outbox w' = outbox scenario1 /\
  tick w' = tick scenario1.
Proof.
  assert (Hwf : Obj.wf (players scenario1)).
  { unfold Obj.wf. simpl. constructor.
    - simpl. intros [H|[]]. discriminate.
    - constructor; [simpl; tauto|constructor]. }
  split; [exact Hwf|].
  exact (onDisconnect_spec "a" scenario1 Hwf).
Defined.

(** The colour drawn with 0.5 is the third of the palette. *)
Lemma randomColor_in_palette_half :
  let w := mkWorld [] [] 0 0 [] in
  (0 <=? Math_random_at (draws w)) = true /\
  (Math_random_at (draws w) <? 1) = true /\
  exists c, In c colors /\ fst (randomColor w) = Some c.
Proof.
  cbv zeta. split; [reflexivity|]. split; [reflexivity|].
  exact (randomColor_in_palette (mkWorld [] [] 0 0 []) eq_refl eq_refl).
Defined.

(** ** More statements on concrete worlds *)

(** A tick on scenario 1: B is eaten and respawns, A stays where it is. *)
Lemma tick_keeps_players_scenario1 :
  (ServerJs.gameLoop = ServerJs.gameLoop
   \/ ServerJs.gameLoop = AntiLag.gameLoop) /\
  let w' := ServerJs.gameLoop 1700000000000 scenario1 in
  exists sent,
    outbox w' = outbox scenario1 ++ sent /\
    Obj.keys (players w') = Obj.keys (players scenario1) /\
    forall id p,
      Obj.get (players scenario1) id = Some p ->
      exists p',
        Obj.get (players w') id = Some p' /\
        Player.name p' = Player.name p /\
        Player.color p' = Player.color p /\
        (In (to id youDied) sent \/
         (Player.x p' = Player.x p /\ Player.y p' = Player.y p)).
Proof.
  assert (Hloop : ServerJs.gameLoop = ServerJs.gameLoop
                  \/ ServerJs.gameLoop = AntiLag.gameLoop) by now left.
  split; [exact Hloop|].
  exact (tick_keeps_players ServerJs.gameLoop 1700000000000 scenario1 Hloop).
Defined.

(** Two sockets join and the first one leaves. *)
Lemma players_are_the_connected_sockets_b_stays :
  let es := [Connect "a"; Connect "b"; Disconnect "a"]%string in
  let w := onDisconnect "a" (onConnection "b" (onConnection "a" boot)) in
  (ServerJs.gameLoop = ServerJs.gameLoop
   \/ ServerJs.gameLoop = AntiLag.gameLoop) /\
  run ServerJs.gameLoop es boot = Normal w /\
  Obj.keys (players w) = roster es [] /\
  NoDup (Obj.keys (players w)).
Proof.
  cbv zeta.
  assert (Hloop : ServerJs.gameLoop = ServerJs.gameLoop
                  \/ ServerJs.gameLoop = AntiLag.gameLoop) by now left.
  assert (Hrun :
            run ServerJs.gameLoop
              [Connect "a"; Connect "b"; Disconnect "a"]%string boot =
            Normal (onDisconnect "a" (onConnection "b" (onConnection "a" boot))))
    by reflexivity.
  split; [exact Hloop|]. split; [exact Hrun|].
  exact (players_are_the_connected_sockets ServerJs.gameLoop _ _ Hloop Hrun).
Defined.

(** What a join, a tick, a rename and a leave send. *)
Lemma messages_of_a_run_join_tick_leave :
  let es :=
    [Connect "a"; Tick 1700000000000; SetName "a" (String "Bob");
     Disconnect "a"]%string in
  let w' :=
    onDisconnect "a"
      (onSetName "a" (String "Bob")
         (AntiLag.gameLoop 1700000000000 (onConnection "a" boot))) in
  (AntiLag.gameLoop = ServerJs.gameLoop
   \/ AntiLag.gameLoop = AntiLag.gameLoop) /\
  run AntiLag.gameLoop es boot = Normal w' /\
  exists sent,
    outbox w' = outbox boot ++ sent /\
    forallb addressed sent = true /\
    List.length (filter is_state sent) = count_ticks es /\
    List.length (filter is_init sent) = count_connects es /\
    List.length (filter is_youAtePlayer sent) =
      List.length (filter is_youDied sent) /\
    (count_ticks es = 0%nat -> count_connects es = 0%nat -> sent = []).
Proof.
  cbv zeta.
  assert (Hloop : AntiLag.gameLoop = ServerJs.gameLoop
                  \/ AntiLag.gameLoop = AntiLag.gameLoop) by now right.
  split; [exact Hloop|].
  assert (Hrun :
    run AntiLag.gameLoop
      [Connect "a"; Tick 1700000000000; SetName "a" (String "Bob");
       Disconnect "a"]%string boot =
    Normal
      (onDisconnect "a"
         (onSetName "a" (String "Bob")
            (AntiLag.gameLoop 1700000000000 (onConnection "a" boot)))))
    by reflexivity.
  split; [exact Hrun|].
  exact (messages_of_a_run AntiLag.gameLoop _ _ _ Hloop Hrun).
Defined.

(** Two moves of the player of scenario 5. *)
Lemma last_move_wins_scenario5 :
  let d1 := Some {| data_x := Number (-500); data_y := Number 10000 |} in
  let d2 := Some {| data_x := Number 300; data_y := Number 400 |} in
  let w1 :=
    mkWorld [("a", Player.mk 25 3975 0 25 (Some "#00e5ff") "A")]%string
      [] 0 0 [] in
  onMove "a" d1 scenario5 = Normal w1 /\
  onMove "a" d2 w1 = onMove "a" d2 scenario5.
Proof.
  cbv zeta.
  assert (H1 :
    onMove "a" (Some {| data_x := Number (-500); data_y := Number 10000 |})
      scenario5 =
    Normal
      (mkWorld [("a", Player.mk 25 3975 0 25 (Some "#00e5ff") "A")]%string
         [] 0 0 []))
    by reflexivity.
  split; [exact H1|].
  exact (last_move_wins "a" _ _ scenario5 _ H1).
Defined.

(** A move and a rename of the player of scenario 5, in both orders. *)
Lemma commands_commute_scenario5 :
  let e1 := Move "a" (Some {| data_x := Number 300; data_y := Number 400 |}) in
  let e2 := SetName "a" (String "Bob") in
  command_of e1 = Some ("a"%string, Moves) /\
  command_of e2 = Some ("a"%string, Renames) /\
  ("a"%string, Moves) <> ("a"%string, Renames) /\
  run ServerJs.gameLoop [e1; e2] scenario5 =
  run ServerJs.gameLoop [e2; e1] scenario5.
Proof.
  cbv zeta.
  assert (Hne : ("a"%string, Moves) <> ("a"%string, Renames))
    by (intros H; discriminate H).
  split; [reflexivity|]. split; [reflexivity|]. split; [exact Hne|].
  exact (commands_commute ServerJs.gameLoop
           (Move "a" (Some {| data_x := Number 300; data_y := Number 400 |}))
           (SetName "a" (String "Bob"))
           ("a"%string, Moves) ("a"%string, Renames) scenario5
           eq_refl eq_refl Hne).
Defined.

(** The draws of [demoEntropy] are in [[0, 1)]. *)
Lemma demo_draws_in_unit : unit_draws demoEntropy.
Proof. intros [|[|k]]; split; reflexivity. Defined.

(** The first pellet of the initial field. *)
Lemma reachable_pellets_on_map_first_pellet :
  unit_draws demoEntropy /\
  (ServerJs.gameLoop = ServerJs.gameLoop
   \/ ServerJs.gameLoop = AntiLag.gameLoop) /\
  reachable ServerJs.gameLoop boot /\
  In (Pellet.mk 0 2000 1000) (pellets boot) /\
  on_map (Pellet.mk 0 2000 1000) = true.
Proof.
  assert (Hloop : ServerJs.gameLoop = ServerJs.gameLoop
                  \/ ServerJs.gameLoop = AntiLag.gameLoop) by now left.
  assert (Hreach : reachable ServerJs.gameLoop boot)
    by (exists []; reflexivity).
  assert (Hin : In (Pellet.mk 0 2000 1000) (pellets boot))
    by (vm_compute; left; reflexivity).
  split; [exact demo_draws_in_unit|].
  split; [exact Hloop|]. split; [exact Hreach|]. split; [exact Hin|].
  exact (reachable_pellets_on_map ServerJs.gameLoop boot _
           demo_draws_in_unit Hloop Hreach Hin).
Defined.

(** The player that has just joined. *)
Lemma reachable_players_presentable_joined :
  unit_draws demoEntropy /\
  (ServerJs.gameLoop = ServerJs.gameLoop
   \/ ServerJs.gameLoop = AntiLag.gameLoop) /\
  reachable ServerJs.gameLoop (onConnection "a" boot) /\
  Obj.get (players (onConnection "a" boot)) "a" =
    Some (Player.mk 500 500 0 25 (Some "#00e5ff"%string) "Anonyme") /\
  presentable (Player.mk 500 500 0 25 (Some "#00e5ff"%string) "Anonyme").
Proof.
  assert (Hloop : ServerJs.gameLoop = ServerJs.gameLoop
                  \/ ServerJs.gameLoop = AntiLag.gameLoop) by now left.
  assert (Hreach : reachable ServerJs.gameLoop (onConnection "a" boot))
    by (exists [Connect "a"]; reflexivity).
  assert (Hget : Obj.get (players (onConnection "a" boot)) "a" =
                 Some (Player.mk 500 500 0 25 (Some "#00e5ff"%string) "Anonyme"))
    by (vm_compute; reflexivity).
  split; [exact demo_draws_in_unit|].
  split; [exact Hloop|]. split; [exact Hreach|]. split; [exact Hget|].
  exact (reachable_players_presentable ServerJs.gameLoop _ "a" _
           demo_draws_in_unit Hloop Hreach Hget).
Defined.

(** The player that has joined and eaten for one tick. *)
Lemma reachable_scores_count_after_a_tick :
  let w := AntiLag.gameLoop 1700000000000 (onConnection "a" boot) in
  let p :=
    Player.mk 500 500 1199 744.39999999999998 (Some "#00e5ff"%string)
      "Anonyme" in
  (AntiLag.gameLoop = ServerJs.gameLoop
   \/ AntiLag.gameLoop = AntiLag.gameLoop) /\
  reachable AntiLag.gameLoop w /\
  Obj.get (players w) "a" = Some p /\
  counting (Player.score p).
Proof.
  cbv zeta.
  assert (Hloop : AntiLag.gameLoop = ServerJs.gameLoop
                  \/ AntiLag.gameLoop = AntiLag.gameLoop) by now right.
  assert (Hreach :
            reachable AntiLag.gameLoop
              (AntiLag.gameLoop 1700000000000 (onConnection "a" boot)))
    by (exists [Connect "a"; Tick 1700000000000]; reflexivity).
  assert (Hget :
            Obj.get
              (players (AntiLag.gameLoop 1700000000000 (onConnection "a" boot)))
              "a" =
            Some (Player.mk 500 500 1199 744.39999999999998
                    (Some "#00e5ff"%string) "Anonyme"))
    by (vm_compute; reflexivity).
  split; [exact Hloop|]. split; [exact Hreach|]. split; [exact Hget|].
  exact (reachable_scores_count AntiLag.gameLoop _ "a" _ Hloop Hreach Hget).
Defined.

(** The same player: its radius. *)
Lemma reachable_radius_at_least_initial_after_a_tick :
  let w := AntiLag.gameLoop 1700000000000 (onConnection "a" boot) in
  let p :=
    Player.mk 500 500 1199 744.39999999999998 (Some "#00e5ff"%string)
      "Anonyme" in
  (AntiLag.gameLoop = ServerJs.gameLoop
   \/ AntiLag.gameLoop = AntiLag.gameLoop) /\
  reachable AntiLag.gameLoop w /\
  Obj.get (players w) "a" = Some p /\
  (INITIAL_RADIUS <=? Player.radius p) = true.
Proof.
  cbv zeta.
  assert (Hloop : AntiLag.gameLoop = ServerJs.gameLoop
                  \/ AntiLag.gameLoop = AntiLag.gameLoop) by now right.
  assert (Hreach :
            reachable AntiLag.gameLoop
              (AntiLag.gameLoop 1700000000000 (onConnection "a" boot)))
    by (exists [Connect "a"; Tick 1700000000000]; reflexivity).
  assert (Hget :
            Obj.get
              (players (AntiLag.gameLoop 1700000000000 (onConnection "a" boot)))
              "a" =
            Some (Player.mk 500 500 1199 744.39999999999998
                    (Some "#00e5ff"%string) "Anonyme"))
    by (vm_compute; reflexivity).
  split; [exact Hloop|]. split; [exact Hreach|]. split; [exact Hget|].
  exact (reachable_radius_at_least_initial AntiLag.gameLoop _ "a" _
           Hloop Hreach Hget).
Defined.

(** A second player joins on top of the first, which has eaten for one
    tick, and is eaten in the next tick. *)
Lemma dying_is_starting_again_second_player :
  let w :=
    onConnection "b"
      (ServerJs.gameLoop 1700000000000 (onConnection "a" boot)) in
  let w' := ServerJs.gameLoop 1700000000050 w in
  let sent := skipn (List.length (outbox w)) (outbox w') in
  (ServerJs.gameLoop = ServerJs.gameLoop
   \/ ServerJs.gameLoop = AntiLag.gameLoop) /\
  reachable ServerJs.gameLoop w /\
  outbox w' = outbox w ++ sent /\
  In (to "b" youDied) sent /\
  exists p,
    Obj.get (players w') "b" = Some p /\
    Player.score p = 0 /\ Player.radius p = INITIAL_RADIUS.
Proof.
  cbv zeta.
  assert (Hloop : ServerJs.gameLoop = ServerJs.gameLoop
                  \/ ServerJs.gameLoop = AntiLag.gameLoop) by now left.
  assert (Hreach :
            reachable ServerJs.gameLoop
              (onConnection "b"
                 (ServerJs.gameLoop 1700000000000 (onConnection "a" boot))))
    by (exists [Connect "a"; Tick 1700000000000; Connect "b"]; reflexivity).
  assert (Hsent :
    outbox
      (ServerJs.gameLoop 1700000000050
         (onConnection "b"
            (ServerJs.gameLoop 1700000000000 (onConnection "a" boot)))) =
    outbox
      (onConnection "b"
         (ServerJs.gameLoop 1700000000000 (onConnection "a" boot))) ++
    skipn
      (List.length
         (outbox
            (onConnection "b"
               (ServerJs.gameLoop 1700000000000 (onConnection "a" boot)))))
      (outbox
         (ServerJs.gameLoop 1700000000050
            (onConnection "b"
               (ServerJs.gameLoop 1700000000000 (onConnection "a" boot))))))
    by (vm_compute; reflexivity).
  assert (Hin :
    In (to "b" youDied)
      (skipn
         (List.length
            (outbox
               (onConnection "b"
                  (ServerJs.gameLoop 1700000000000 (onConnection "a" boot)))))
         (outbox
            (ServerJs.gameLoop 1700000000050
               (onConnection "b"
                  (ServerJs.gameLoop 1700000000000 (onConnection "a" boot)))))))
    by (vm_compute; right; left; reflexivity).
  split; [exact Hloop|]. split; [exact Hreach|]. split; [exact Hsent|].
  split; [exact Hin|].
  exact (dying_is_starting_again ServerJs.gameLoop 1700000000050 _ _ "b"
           Hloop Hreach Hsent Hin).
Defined.

(** The one pair of scenario 1. *)
Lemma kill_pass_guards_never_fire_scenario1 :
  Obj.wf (players scenario1) /\
  pairs (Obj.keys (players scenario1)) = [] ++ [("a", "b")]%string /\
  let body := fun w p => pairBody (fst p) (snd p) w in
  let w' := fold_left body [] scenario1 in
  killPhase scenario1 = fold_left body [] (pairBody "a" "b" w') /\
  "a"%string <> "b"%string /\
  exists a b,
    Obj.get (players w') "a" = Some a /\
    Obj.get (players w') "b" = Some b.
Proof.
  assert (Hwf : Obj.wf (players scenario1)).
  { unfold Obj.wf. simpl. constructor.
    - simpl. intros [H|[]]. discriminate.
    - constructor; [simpl; tauto|constructor]. }
  assert (Hp : pairs (Obj.keys (players scenario1)) =
               [] ++ [("a", "b")]%string) by reflexivity.
  split; [exact Hwf|]. split; [exact Hp|].
  exact (kill_pass_guards_never_fire scenario1 [] [] "a" "b" Hwf Hp).
Defined.

(** The scores of scenario 2, had A eaten B: 125 and 50. *)
Lemma scores_are_exact_scenario2 :
  let prey := Player.mk 90 0 50 55 (Some "#ffb300"%string) "B" in
  to_integer (Player.score playerA) = Some 125%Z /\
  to_integer (Player.score prey) = Some 50%Z /\
  (0 <= 125)%Z /\
  (0 <= 50 < 2 ^ 53)%Z /\
  let gained := Math_floor (Player.score prey * 0.5) in
  ((125 + 1 < 2 ^ 53)%Z ->
   to_integer (Player.score (grow playerA)) = Some (125 + 1)%Z) /\
  to_integer gained = Some (50 / 2)%Z /\
  ((125 + 50 / 2 < 2 ^ 53)%Z ->
   "a"%string <> "b"%string ->
   exists eater',
     Obj.get (players (kill "a" "b" playerA prey scenario2)) "a" =
       Some eater' /\
     to_integer (Player.score eater') = Some (125 + 50 / 2)%Z).
Proof.
  cbv zeta.
  assert (H1 : (0 <= 125)%Z) by lia.
  assert (H2 : (0 <= 50 < 2 ^ 53)%Z) by (split; [lia|reflexivity]).
  split; [reflexivity|]. split; [reflexivity|].
  split; [exact H1|]. split; [exact H2|].
  exact (scores_are_exact "a" "b" playerA
           (Player.mk 90 0 50 55 (Some "#ffb300"%string) "B")
           125 50 scenario2 eq_refl eq_refl H1 H2).
Defined.

(** A join and two ticks 50 ms apart. *)
Lemma pellet_ids_are_distinct_two_ticks :
  let es :=
    [Connect "a"; Tick 1700000000000; Tick 1700000000050]%string in
  let w :=
    ServerJs.gameLoop 1700000000050
      (ServerJs.gameLoop 1700000000000 (onConnection "a" boot)) in
  unit_draws demoEntropy /\
  (ServerJs.gameLoop = ServerJs.gameLoop
   \/ ServerJs.gameLoop = AntiLag.gameLoop) /\
  timed 1198 es /\
  run ServerJs.gameLoop es boot = Normal w /\
  NoDup (map Pellet.id (pellets w)).
Proof.
  cbv zeta.
  assert (Hloop : ServerJs.gameLoop = ServerJs.gameLoop
                  \/ ServerJs.gameLoop = AntiLag.gameLoop) by now left.
  assert (Htimed :
            timed 1198
              [Connect "a"; Tick 1700000000000; Tick 1700000000050]%string).
  { simpl. exists 1700000000000%Z.
    split; [reflexivity|]. split; [split; [lia|reflexivity]|].
    exists 1700000000050%Z.
    split; [reflexivity|]. split; [split; [lia|reflexivity]|].
    exact I. }
  assert (Hrun :
            run ServerJs.gameLoop
              [Connect "a"; Tick 1700000000000; Tick 1700000000050]%string
              boot =
            Normal
              (ServerJs.gameLoop 1700000000050
                 (ServerJs.gameLoop 1700000000000 (onConnection "a" boot))))
    by reflexivity.
  split; [exact demo_draws_in_unit|]. split; [exact Hloop|].
  split; [exact Htimed|]. split; [exact Hrun|].
  exact (pellet_ids_are_distinct ServerJs.gameLoop _ _
           demo_draws_in_unit Hloop Htimed Hrun).
Defined.

(** ** The broadcast and the regrown pellet on concrete runs *)

(** Three ticks from startup, and the fourth. *)
Lemma C1_state_every_tick_pellets_every_fourth_fourth_tick :
  let es := [Tick 1700000000000; Tick 1700000000050; Tick 1700000000100] in
  let w :=
    AntiLag.gameLoop 1700000000100
      (AntiLag.gameLoop 1700000000050
         (AntiLag.gameLoop 1700000000000 boot)) in
  run AntiLag.gameLoop es boot = Normal w /\
  tick (AntiLag.gameLoop 1700000000150 w) = 4%Z.
Proof.
  cbv zeta.
  assert (Hrun :
            run AntiLag.gameLoop
              [Tick 1700000000000; Tick 1700000000050; Tick 1700000000100]
              boot =
            Normal
              (AntiLag.gameLoop 1700000000100
                 (AntiLag.gameLoop 1700000000050
                    (AntiLag.gameLoop 1700000000000 boot))))
    by reflexivity.
  split; [exact Hrun|].
  exact (proj1 (proj2 (C1_state_every_tick_pellets_every_fourth
                         1700000000150 _)) _ Hrun).
Defined.

(** Four ticks from startup, 50 ms apart, in each file: [server.js] sends
    the pellets with each of the four [state] messages, the anti-lag
    revision with the fourth only. *)
Lemma C1_server_js_sends_pellets_on_every_tick :
  let es :=
    [Tick 1700000000000; Tick 1700000000050;
     Tick 1700000000100; Tick 1700000000150] in
  match run ServerJs.gameLoop es boot, run AntiLag.gameLoop es boot with
  | Normal wS, Normal wA =>
      map is_state (outbox wS) = [true; true; true; true] /\
      map carries_pellets (outbox wS) = [true; true; true; true] /\
      map is_state (outbox wA) = [true; true; true; true] /\
      map carries_pellets (outbox wA) = [false; false; false; true]
  | _, _ => False
  end.
Proof. vm_compute. repeat split. Qed.

(** The first tick after a join at (500, 500): the player eats the 1199
    pellets under it, and one pellet is regrown. *)
Lemma C6_pellet_cap_first_meal :
  let now := 1700000000000 in
  let w := onConnection "a" boot in
  let w2 := killPhase (pelletPhase w) in
  let w3 := regrowPhase now w2 in
  (List.length (pellets w) <= MAX_PELLETS)%nat /\
  unit_draws demoEntropy /\
  now = of_Z 1700000000000 /\
  ids_inv 1199 w /\
  pellets w2 = [Pellet.mk 0 2000 1000] /\
  pellets w3 =
    [Pellet.mk 0 2000 1000; Pellet.mk 1700000000000.125 500 500] /\
  pellets (ServerJs.gameLoop now w) = pellets w3 /\
  pellets (AntiLag.gameLoop now w) = pellets w3 /\
  ids_inv 1700000000001 w3.
Proof.
  cbv zeta.
  assert (Hcap : (List.length (pellets (onConnection "a" boot))
                  <= MAX_PELLETS)%nat)
    by (apply Nat.leb_le; reflexivity).
  assert (Hnow : 1700000000000 = of_Z 1700000000000) by reflexivity.
  assert (Hinv : ids_inv 1199 (onConnection "a" boot)).
  { destruct (handlers_frame (Connect "a") boot (onConnection "a" boot)
                ServerJs.gameLoop eq_refl ltac:(intros; discriminate))
      as [_ Hp].
    unfold ids_inv. rewrite Hp. exact boot_ids_inv. }
  assert (H2 : pellets (killPhase (pelletPhase (onConnection "a" boot))) =
               [Pellet.mk 0 2000 1000]) by (vm_compute; reflexivity).
  pose proof (C6_pellet_cap 1700000000000 (onConnection "a" boot) Hcap) as H.
  cbv zeta in H.
  destruct H as (HS & HA & _ & _ & _ & H3 & Hids).
  split; [exact Hcap|]. split; [exact demo_draws_in_unit|].
  split; [exact Hnow|]. split; [exact Hinv|]. split; [exact H2|].
  split; [rewrite H3; vm_compute; reflexivity|].
  split; [exact HS|]. split; [exact HA|].
  exact (Hids 1700000000000%Z 1198%Z demo_draws_in_unit Hnow
           ltac:(lia) ltac:(split; [lia|reflexivity]) Hinv).
Defined.

(** A player eats 1199 pellets and leaves, and the two ticks that refill
    the field read the same clock and draw the same number: the two
    regrown pellets have the same id. *)
Lemma C6_same_clock_same_draw_same_id :
  let es :=
    [Connect "a"; Tick 1700000000000;
     Disconnect "a"; Tick 1700000000000]%string in
  unit_draws demoEntropy /\
  match run ServerJs.gameLoop es boot with
  | Normal w =>
      pellets w =
        [Pellet.mk 0 2000 1000;
         Pellet.mk 1700000000000.125 500 500;
         Pellet.mk 1700000000000.125 500 500] /\
      ~ NoDup (map Pellet.id (pellets w))
  | Throw => False
  end.
Proof.
  split; [exact demo_draws_in_unit|].
  vm_compute. split; [reflexivity|].
  intros H. inversion H as [|x l _ H']. inversion H' as [|y l' Hn _].
  apply Hn. left. reflexivity.
Qed.
